(** * Device planning for Relay (src/relay/transforms/device_planner.cc)

    A shallow embedding of the four phases of [PlanDevices]:
    [RewriteOnDevices] (phase 0), [DeviceAnalyzer] (phase 1),
    [DeviceDefaulter] (phase 2) and [DeviceCapturer] (phase 3), together with
    the pieces of [DeviceDomains], [OnDevice] and [DeviceCopy] they call. *)

From Stdlib Require Import List String Bool Arith Lia Permutation.
Import ListNotations.
Open Scope string_scope.
Set Warnings "-register-all,-notation-for-abbreviation".

(** ** SEScopes *)

(** An [SEScope]: a device type, a target and a memory scope, each of which
    may be unknown. *)
Record SEScope := MkSEScope {
  device_type : option nat;
  target : option nat;
  memory_scope : option string
}.

Definition opt_eqb {A} (eqb : A -> A -> bool) (a b : option A) : bool :=
  match a, b with
  | None, None => true
  | Some x, Some y => eqb x y
  | _, _ => false
  end.

Definition se_scope_eqb (a b : SEScope) : bool :=
  opt_eqb Nat.eqb (device_type a) (device_type b)
  && opt_eqb Nat.eqb (target a) (target b)
  && opt_eqb String.eqb (memory_scope a) (memory_scope b).

Definition FullyUnconstrained : SEScope := MkSEScope None None None.

Definition IsFullyUnconstrained (s : SEScope) : bool :=
  match s with MkSEScope None None None => true | _ => false end.

Definition IsFullyConstrainedScope (s : SEScope) : bool :=
  match s with MkSEScope (Some _) (Some _) (Some _) => true | _ => false end.

(** [SEScope::Join]: facet-wise, failing on two different known facets. *)
Definition join_facet {A} (eqb : A -> A -> bool) (a b : option A)
  : option (option A) :=
  match a, b with
  | None, _ => Some b
  | _, None => Some a
  | Some x, Some y => if eqb x y then Some a else None
  end.

Definition Join (a b : SEScope) : option SEScope :=
  match join_facet Nat.eqb (device_type a) (device_type b),
        join_facet Nat.eqb (target a) (target b),
        join_facet String.eqb (memory_scope a) (memory_scope b) with
  | Some d, Some t, Some m => Some (MkSEScope d t m)
  | _, _, _ => None
  end.

(** [SEScope::Default]: fill every unknown facet of [s] from [d]. *)
Definition default_facet {A} (a d : option A) : option A :=
  match a with None => d | Some _ => a end.

Definition Default (s d : SEScope) : SEScope :=
  MkSEScope (default_facet (device_type s) (device_type d))
            (default_facet (target s) (target d))
            (default_facet (memory_scope s) (memory_scope d)).

(** The compilation configuration. *)
Record CompilationConfig := MkConfig {
  default_primitive_se_scope : SEScope;
  host_se_scope : SEScope;
  CanonicalSEScope : SEScope -> SEScope
}.

(** ** The Relay IR *)

(** Attributes of a call: plain, "on_device" or "device_copy". *)
Inductive CallAttrs : Type :=
| NoAttrs
| OnDeviceAttrs (se_scope : SEScope) (is_fixed : bool)
| DeviceCopyAttrs (src_se_scope dst_se_scope : SEScope).

(** Function attributes: [kPrimitive] and the two attributes written by
    [FunctionOnDevice]. *)
Record FuncAttrs := MkFuncAttrs {
  primitive : bool;
  param_se_scopes : option (list SEScope);
  result_se_scope : option SEScope
}.

Definition NoFuncAttrs : FuncAttrs := MkFuncAttrs false None None.

Inductive Pattern : Type :=
| PatternWildcard
| PatternVar (var : string)
| PatternConstructor (con : string) (patterns : list Pattern)
| PatternTuple (patterns : list Pattern).

(** Relay expressions, one constructor per node class. Variables are
    identified by their names. *)
Inductive Expr : Type :=
| VarNode (name : string)
| GlobalVarNode (name : string)
| ConstantNode (id : nat)
| OpNode (name : string)
| ConstructorNode (name : string)
| TupleNode (fields : list Expr)
| TupleGetItemNode (tuple : Expr) (index : nat)
| IfNode (cond true_branch false_branch : Expr)
| LetNode (var : string) (value body : Expr)
| FunctionNode (params : list string) (body : Expr) (attrs : FuncAttrs)
| CallNode (op : Expr) (args : list Expr) (attrs : CallAttrs)
| MatchNode (data : Expr) (clauses : list (Pattern * Expr))
| RefCreateNode (value : Expr)
| RefReadNode (ref : Expr)
| RefWriteNode (ref value : Expr).

(** The [on_device] and [device_copy] call shapes (src/relay/op/memory/on_device.h
    and device_copy.h). *)
Definition OnDevice (e : Expr) (s : SEScope) (is_fixed : bool) : Expr :=
  CallNode (OpNode "on_device") [e] (OnDeviceAttrs s is_fixed).

Definition DeviceCopy (e : Expr) (src dst : SEScope) : Expr :=
  CallNode (OpNode "device_copy") [e] (DeviceCopyAttrs src dst).

(** [OnDeviceProps]: [Some (body, se_scope, is_fixed)] for an "on_device" call. *)
Definition GetOnDeviceProps (e : Expr) : option (Expr * SEScope * bool) :=
  match e with
  | CallNode (OpNode op) [body] (OnDeviceAttrs s f) =>
      if String.eqb op "on_device" then Some (body, s, f) else None
  | _ => None
  end.

(** [DeviceCopyProps]: [Some (body, src, dst)] for a "device_copy" call. *)
Definition GetDeviceCopyProps (e : Expr) : option (Expr * SEScope * SEScope) :=
  match e with
  | CallNode (OpNode op) [body] (DeviceCopyAttrs src dst) =>
      if String.eqb op "device_copy" then Some (body, src, dst) else None
  | _ => None
  end.

(** Modelled from the spec: [MaybeOnDevice] (on_device.cc is not among the
    sources). "on_device never wraps a variable reference or global
    reference" (spec, invariant 5 and the output contract); otherwise the
    expression is wrapped. *)
Definition MaybeOnDevice (e : Expr) (s : SEScope) (is_fixed : bool) : Expr :=
  match e with
  | VarNode _ | GlobalVarNode _ => e
  | _ => OnDevice e s is_fixed
  end.

(** [FunctionOnDevice]: attach "param_se_scopes" and "result_se_scope". *)
Definition FunctionOnDevice (f : Expr) (params : list SEScope) (result : SEScope)
  : Expr :=
  match f with
  | FunctionNode ps body attrs =>
      FunctionNode ps body
        (MkFuncAttrs (primitive attrs) (Some params) (Some result))
  | _ => f
  end.

(** ** Phase 0: [RewriteOnDevices] *)

Module RewriteOnDevices.

(** [ExprMutator] with the three overridden visits. The let-chain loop of
    the source (visit each bound value, then the final body, then rebuild)
    is written as the equivalent recursion on the let body. *)
Fixpoint VisitExpr (e : Expr) : Expr :=
  match e with
  | TupleGetItemNode t i =>
      let tuple := VisitExpr t in
      let tuple_get_item := TupleGetItemNode tuple i in
      match GetOnDeviceProps tuple with
      | Some (_, s, false) => OnDevice tuple_get_item s false
      | _ => tuple_get_item
      end
  | LetNode x v b =>
      let value := VisitExpr v in
      let value :=
        match GetOnDeviceProps value with
        | Some (body, s, false) => OnDevice body s true
        | _ => value
        end in
      LetNode x value (VisitExpr b)
  | FunctionNode ps b attrs =>
      let body := VisitExpr b in
      let body :=
        match GetOnDeviceProps body with
        | Some (inner, s, false) => OnDevice inner s true
        | _ => body
        end in
      FunctionNode ps body attrs
  (* the remaining cases are the default [ExprMutator] rebuilds *)
  | VarNode _ | GlobalVarNode _ | ConstantNode _ | OpNode _
  | ConstructorNode _ => e
  | TupleNode fs => TupleNode (List.map VisitExpr fs)
  | IfNode c t f => IfNode (VisitExpr c) (VisitExpr t) (VisitExpr f)
  | CallNode op args attrs => CallNode (VisitExpr op) (List.map VisitExpr args) attrs
  | MatchNode d cls =>
      MatchNode (VisitExpr d) (List.map (fun c => (fst c, VisitExpr (snd c))) cls)
  | RefCreateNode v => RefCreateNode (VisitExpr v)
  | RefReadNode r => RefReadNode (VisitExpr r)
  | RefWriteNode r v => RefWriteNode (VisitExpr r) (VisitExpr v)
  end.

End RewriteOnDevices.

(** The identity of a node in the memo tables of [DeviceDomains]. The C++
    code keys [expr_to_domain_] and [call_to_callee_domain_] by node
    identity. The IR is modelled as a tree, without sharing of sub-terms, so
    a node is identified by where it sits: the global function it belongs to
    and the path of child positions from that function's body, innermost
    first. Variables, global variables, operators and constructors are
    shared objects in Relay and are identified by their names. *)
Definition Loc : Type := (string * list nat)%type.

(** The position of the [i]-th child. The children of a node are numbered
    in this order: the value and body of a let (0, 1); the body of a function
    (0); the operator and the arguments of a call (0, 1, ...); the fields of
    a tuple (0, ...); the tuple of a projection (0); the condition and the
    branches of an if (0, 1, 2); the matched expression and the right-hand
    sides of a match (0, 1, ...); the operand(s) of the reference nodes. *)
Definition child (l : Loc) (i : nat) : Loc := (fst l, i :: snd l).

(** The position of a global function's body. *)
Definition root_of (gv : string) : Loc := (gv, []).

Inductive Key : Type :=
| KVar (name : string)
| KGlobal (name : string)
| KOp (name : string)
| KConstructor (name : string)
| KNode (gv : string) (path : list nat).

Definition key_of (e : Expr) (l : Loc) : Key :=
  match e with
  | VarNode x => KVar x
  | GlobalVarNode g => KGlobal g
  | OpNode o => KOp o
  | ConstructorNode c => KConstructor c
  | _ => KNode (fst l) (snd l)
  end.

Fixpoint path_eqb (p q : list nat) : bool :=
  match p, q with
  | [], [] => true
  | i :: p', j :: q' => Nat.eqb i j && path_eqb p' q'
  | _, _ => false
  end.

Definition key_eqb (k k' : Key) : bool :=
  match k, k' with
  | KVar x, KVar y | KGlobal x, KGlobal y | KOp x, KOp y
  | KConstructor x, KConstructor y => String.eqb x y
  | KNode g p, KNode g' p' => String.eqb g g' && path_eqb p p'
  | _, _ => false
  end.

Fixpoint lookup {A} (k : Key) (m : list (Key * A)) : option A :=
  match m with
  | [] => None
  | (k', v) :: m' => if key_eqb k k' then Some v else lookup k m'
  end.

(** ** Device domains (src/relay/transforms/device_domains.{h,cc}) *)

(** Checked types, as far as the planner looks at them. *)
Inductive Ty : Type :=
| TensorType
| ShapeType
| FuncType (params : list Ty) (ret : Ty)
| OtherType.

(** A domain: a first-order union-find variable, or a higher-order domain
    with one sub-domain per parameter and one for the result. *)
Inductive DeviceDomain : Type :=
| FirstOrder (id : nat)
| HigherOrder (params : list DeviceDomain) (result : DeviceDomain).

Inductive UFNode : Type :=
| Root (se_scope : SEScope)
| Link (parent : nat).

Record DeviceDomains := MkDomains {
  config : CompilationConfig;
  expr_to_domain : list (Key * DeviceDomain);
  call_to_callee_domain : list (Key * DeviceDomain);
  uf : nat -> UFNode;
  next_id : nat
}.


(** Errors: the two fatal diagnostics of the analyzer, the failures of
    [UnifyExprExact]/[UnifyExprCollapsed], and failed [ICHECK]s. *)
Inductive PrintedDom : Type :=
| PFirst (se_scope : SEScope)
| PHigher (params : list PrintedDom) (result : PrintedDom).

Inductive PlanError : Type :=
| CallScopesMismatch (call : Expr) (func_domain implied_domain : PrintedDom)
| FunctionAnnotationMismatch (func : Expr) (func_domain annotation_domain : PrintedDom)
| IncompatibleExprs (lhs : Expr) (lhs_domain : PrintedDom) (rhs : Expr) (rhs_domain : PrintedDom)
| IncompatibleDomain (e : Expr) (e_domain expected_domain : PrintedDom)
| CheckFailed (what : string).

Inductive Result (A : Type) : Type :=
| Ok (a : A)
| Fatal (err : PlanError).
Arguments Ok {A}.
Arguments Fatal {A}.

Definition bind {A B} (m : Result A) (k : A -> Result B) : Result B :=
  match m with Ok a => k a | Fatal e => Fatal e end.

Notation "'let*' x ':=' m 'in' k" := (bind m (fun x => k))
  (at level 200, x name, m at level 100, k at level 200).

Definition ICHECK (b : bool) (what : string) : Result unit :=
  if b then Ok tt else Fatal (CheckFailed what).

Section Domains.

Variable checked_type : Expr -> Ty.

Definition set_node (st : DeviceDomains) (id : nat) (n : UFNode) : DeviceDomains :=
  MkDomains (config st) (expr_to_domain st) (call_to_callee_domain st)
    (fun k => if Nat.eqb k id then n else uf st k) (next_id st).

Fixpoint find_fuel (fuel : nat) (nodes : nat -> UFNode) (id : nat) : nat :=
  match fuel with
  | O => id
  | S fuel' => match nodes id with Link p => find_fuel fuel' nodes p | Root _ => id end
  end.

(** The representative of a first-order variable. *)
Definition Lookup (st : DeviceDomains) (id : nat) : nat :=
  find_fuel (S (next_id st)) (uf st) id.

Definition leaf_scope (st : DeviceDomains) (id : nat) : SEScope :=
  match uf st (Lookup st id) with Root s => s | Link _ => FullyUnconstrained end.

(** A fresh first-order domain holding [s]. *)
Definition MakeFirstOrderDomain (st : DeviceDomains) (s : SEScope)
  : DeviceDomains * DeviceDomain :=
  let id := next_id st in
  (MkDomains (config st) (expr_to_domain st) (call_to_callee_domain st)
     (fun k => if Nat.eqb k id then Root s else uf st k) (S id),
   FirstOrder id).

(** Modelled from the spec: [ForSEScope(type, scope)] "builds a fresh domain
    matching type (higher-order if function type, else first-order) whose
    every first-order leaf is pre-constrained to scope"; with [scope] the
    fully unconstrained scope this is [Free(type)]. *)
Fixpoint ForSEScope (st : DeviceDomains) (ty : Ty) (s : SEScope)
  : DeviceDomains * DeviceDomain :=
  match ty with
  | FuncType ps r =>
      let '(st, params) :=
        (fix go st ps := match ps with
                         | [] => (st, [])
                         | p :: ps' =>
                             let '(st, d) := ForSEScope st p s in
                             let '(st, ds) := go st ps' in (st, d :: ds)
                         end) st ps in
      let '(st, result) := ForSEScope st r s in
      (st, HigherOrder params result)
  | _ => MakeFirstOrderDomain st (if IsFullyUnconstrained s then s
                                  else CanonicalSEScope (config st) s)
  end.

Definition Free (st : DeviceDomains) (ty : Ty) : DeviceDomains * DeviceDomain :=
  ForSEScope st ty FullyUnconstrained.

(** [DomainFor(expr)]: the domain bound to the node [e] at [l], or a fresh
    one matching its type. *)
Definition DomainFor (st : DeviceDomains) (e : Expr) (l : Loc)
  : DeviceDomains * DeviceDomain :=
  match lookup (key_of e l) (expr_to_domain st) with
  | Some d => (st, d)
  | None =>
      let '(st, d) := Free st (checked_type e) in
      (MkDomains (config st) ((key_of e l, d) :: expr_to_domain st)
         (call_to_callee_domain st) (uf st) (next_id st), d)
  end.

(** [ResultDomain] / [ResultSEScope]: follow the result position down to a
    first-order leaf. *)
Fixpoint ResultSEScope (st : DeviceDomains) (d : DeviceDomain) : SEScope :=
  match d with
  | FirstOrder id => leaf_scope st id
  | HigherOrder _ r => ResultSEScope st r
  end.

Definition function_arity (d : DeviceDomain) : option nat :=
  match d with HigherOrder ps _ => Some (List.length ps) | FirstOrder _ => None end.

Definition function_params (d : DeviceDomain) : list DeviceDomain :=
  match d with HigherOrder ps _ => ps | FirstOrder _ => [] end.

Definition function_result (d : DeviceDomain) : DeviceDomain :=
  match d with HigherOrder _ r => r | FirstOrder _ => d end.

(** [ToString]: the domain with every leaf replaced by its current scope. *)
Fixpoint ToString (st : DeviceDomains) (d : DeviceDomain) : PrintedDom :=
  match d with
  | FirstOrder id => PFirst (leaf_scope st id)
  | HigherOrder ps r => PHigher (List.map (ToString st) ps) (ToString st r)
  end.

End Domains.

(** Modelled from the spec (device_domains.cc is not among the sources):
    unification. First-order variables are merged by linking one
    representative to the other and storing the [Join] of their scopes,
    which fails when two known facets differ; higher-order domains unify
    arity-wise, parameters first and then the result. A failed unification
    leaves the merges already done in place. *)
Definition UnifyLeaves (st : DeviceDomains) (a b : nat) : DeviceDomains * bool :=
  let ra := Lookup st a in
  let rb := Lookup st b in
  if Nat.eqb ra rb then (st, true) else
  match Join (leaf_scope st ra) (leaf_scope st rb) with
  | None => (st, false)
  | Some s =>
      let s := if IsFullyUnconstrained s then s else CanonicalSEScope (config st) s in
      (set_node (set_node st rb (Link ra)) ra (Root s), true)
  end.

Fixpoint UnifyOrNull (st : DeviceDomains) (a b : DeviceDomain)
  : DeviceDomains * bool :=
  match a, b with
  | FirstOrder x, FirstOrder y => UnifyLeaves st x y
  | HigherOrder ps r, HigherOrder qs r' =>
      if Nat.eqb (List.length ps) (List.length qs) then
        let '(st, ok) :=
          (fix go st ps qs :=
             match ps, qs with
             | p :: ps', q :: qs' =>
                 let '(st, ok) := UnifyOrNull st p q in
                 if ok then go st ps' qs' else (st, false)
             | _, _ => (st, true)
             end) st ps qs in
        if ok then UnifyOrNull st r r' else (st, false)
      else (st, false)
  | _, _ => (st, false)
  end.

(** Modelled from the spec: collapsing unification of a first-order domain
    with a possibly higher-order one: every parameter and result sub-domain
    is unified with the first-order side. *)
Fixpoint UnifyCollapsedOrFalse (st : DeviceDomains) (lhs rhs : DeviceDomain)
  : DeviceDomains * bool :=
  match rhs with
  | FirstOrder _ => UnifyOrNull st lhs rhs
  | HigherOrder ps r =>
      let '(st, ok) :=
        (fix go st ps :=
           match ps with
           | p :: ps' =>
               let '(st, ok) := UnifyCollapsedOrFalse st lhs p in
               if ok then go st ps' else (st, false)
           | [] => (st, true)
           end) st ps in
      if ok then UnifyCollapsedOrFalse st lhs r else (st, false)
  end.

(** Modelled from the spec: [IsFullyConstrained], [SetDefault] and
    [SetResultDefaultThenParams]. [SetDefault] default-fills every leaf that
    is not fully constrained (facet-wise, [SEScope::Default]).
    [SetResultDefaultThenParams] on a higher-order domain first defaults the
    result position (recursively), then defaults every parameter domain to
    the result scope just fixed. *)
Fixpoint IsFullyConstrained (st : DeviceDomains) (d : DeviceDomain) : bool :=
  match d with
  | FirstOrder id => IsFullyConstrainedScope (leaf_scope st id)
  | HigherOrder ps r => forallb (IsFullyConstrained st) ps && IsFullyConstrained st r
  end.

Fixpoint SetDefault (st : DeviceDomains) (d : DeviceDomain) (s : SEScope)
  : DeviceDomains :=
  match d with
  | FirstOrder id =>
      let cur := leaf_scope st id in
      if IsFullyConstrainedScope cur then st
      else set_node st (Lookup st id) (Root (CanonicalSEScope (config st) (Default cur s)))
  | HigherOrder ps r =>
      let st := (fix go st ps :=
                   match ps with
                   | p :: ps' => go (SetDefault st p s) ps'
                   | [] => st
                   end) st ps in
      SetDefault st r s
  end.

Fixpoint SetResultDefaultThenParams (st : DeviceDomains) (d : DeviceDomain)
  (default_se_scope : SEScope) : DeviceDomains :=
  match d with
  | FirstOrder _ => SetDefault st d default_se_scope
  | HigherOrder ps r =>
      let st := SetResultDefaultThenParams st r default_se_scope in
      let result_se_scope := ResultSEScope st r in
      fold_left (fun st p => SetDefault st p result_se_scope) ps st
  end.

Section Callee.

Variable checked_type : Expr -> Ty.

Fixpoint ForSEScopes (st : DeviceDomains) (tys : list Ty) (s : SEScope)
  : DeviceDomains * list DeviceDomain :=
  match tys with
  | [] => (st, [])
  | t :: ts =>
      let '(st, d) := ForSEScope st t s in
      let '(st, ds) := ForSEScopes st ts s in (st, d :: ds)
  end.

Definition is_shape_op (name : string) : bool :=
  existsb (String.eqb name)
    ["shape_of"; "shape_func"; "reshape_tensor"; "alloc_storage"; "alloc_tensor"].

(** Modelled from the spec: the domain of a shape primitive's argument or
    result: the host scope for shape-typed positions, free otherwise. *)
Definition ShapePosition (st : DeviceDomains) (ty : Ty) : DeviceDomains * DeviceDomain :=
  match ty with
  | ShapeType => ForSEScope st ty (host_se_scope (config st))
  | _ => Free st ty
  end.

Definition MakeHigherOrderDomain (args_and_result : list DeviceDomain) : DeviceDomain :=
  match rev args_and_result with
  | r :: rargs => HigherOrder (rev rargs) r
  | [] => HigherOrder [] (FirstOrder 0)
  end.

Definition remember_callee (st : DeviceDomains) (call : Key) (d : DeviceDomain)
  : DeviceDomains * DeviceDomain :=
  (MkDomains (config st) (expr_to_domain st) ((call, d) :: call_to_callee_domain st)
     (uf st) (next_id st), d).

(** Modelled from the spec: [DomainForCallee(call)], memoised per call node;
    [l] is the position of [call]. *)
Definition DomainForCallee (st : DeviceDomains) (call : Expr) (l : Loc)
  : DeviceDomains * DeviceDomain :=
  match lookup (key_of call l) (call_to_callee_domain st) with
  | Some d => (st, d)
  | None =>
      match call with
      | CallNode op args _ =>
          match GetOnDeviceProps call, GetDeviceCopyProps call, op with
          | Some (body, s, is_fixed), _, _ =>
              (* on_device : fn(<s>):<s> when fixed, fn(<s>):?x? otherwise *)
              let '(st, arg) := ForSEScope st (checked_type body) s in
              let '(st, res) :=
                if is_fixed then (st, arg) else Free st (checked_type body) in
              remember_callee st (key_of call l) (HigherOrder [arg] res)
          | None, Some (body, src, dst), _ =>
              (* device_copy : fn(<src>):<dst> *)
              let '(st, arg) := ForSEScope st (checked_type body) src in
              let '(st, res) := ForSEScope st (checked_type body) dst in
              remember_callee st (key_of call l) (HigherOrder [arg] res)
          | None, None, OpNode name =>
              if is_shape_op name then
                let '(st, ds) :=
                  (fix go st args :=
                     match args with
                     | [] => (st, [])
                     | a :: args' =>
                         let '(st, d) := ShapePosition st (checked_type a) in
                         let '(st, ds) := go st args' in (st, d :: ds)
                     end) st args in
                let '(st, res) := ShapePosition st (checked_type call) in
                remember_callee st (key_of call l) (HigherOrder ds res)
              else
                (* <primitive> : fn(?x?, ..., ?x?):?x? *)
                let '(st, free) := MakeFirstOrderDomain st FullyUnconstrained in
                remember_callee st (key_of call l)
                  (HigherOrder (List.map (fun _ => free) args) free)
          | None, None, ConstructorNode _ =>
              let '(st, free) := MakeFirstOrderDomain st FullyUnconstrained in
              remember_callee st (key_of call l)
                (HigherOrder (List.map (fun _ => free) args) free)
          | None, None, _ => DomainFor checked_type st op (child l 0)
          end
      | _ => DomainFor checked_type st call l
      end
  end.

(** Modelled from the spec: [UnifyExprExact] and [UnifyExprCollapsed]; a
    failure is fatal and reports the expressions and both domains. *)
Definition UnifyExprExact (st : DeviceDomains) (lhs : Expr) (lhs_loc : Loc)
  (rhs : Expr) (rhs_loc : Loc) : Result DeviceDomains :=
  let '(st, ld) := DomainFor checked_type st lhs lhs_loc in
  let '(st, rd) := DomainFor checked_type st rhs rhs_loc in
  let '(st', ok) := UnifyOrNull st ld rd in
  if ok then Ok st'
  else Fatal (IncompatibleExprs lhs (ToString st' ld) rhs (ToString st' rd)).

Definition UnifyExprExactDomain (st : DeviceDomains) (e : Expr) (l : Loc)
  (expected : DeviceDomain) : Result DeviceDomains :=
  let '(st, d) := DomainFor checked_type st e l in
  let '(st', ok) := UnifyOrNull st d expected in
  if ok then Ok st'
  else Fatal (IncompatibleDomain e (ToString st' d) (ToString st' expected)).

Definition UnifyExprCollapsed (st : DeviceDomains) (e : Expr) (l : Loc)
  (other : DeviceDomain) : Result DeviceDomains :=
  let '(st, d) := DomainFor checked_type st e l in
  let '(st', ok) := UnifyCollapsedOrFalse st d other in
  if ok then Ok st'
  else Fatal (IncompatibleDomain e (ToString st' d) (ToString st' other)).

End Callee.

(** Modelled from the spec: the function attributes read back by
    [GetFunctionResultSEScope] / [GetFunctionParamSEScope]; an absent
    attribute reads as the fully unconstrained scope. *)
Definition GetFunctionResultSEScope (attrs : FuncAttrs) : SEScope :=
  match result_se_scope attrs with Some s => s | None => FullyUnconstrained end.

Definition GetFunctionParamSEScope (attrs : FuncAttrs) (i : nat) : SEScope :=
  match param_se_scopes attrs with
  | Some l => nth i l FullyUnconstrained
  | None => FullyUnconstrained
  end.

(** An IR module: the global functions in iteration order, and the parts of
    the module the planner copies over. *)
Record IRModule := MkModule {
  functions : list (string * Expr);
  type_definitions : list string;
  imports : list string;
  source_map : list (string * string)
}.

(** ** Phase 1: [DeviceAnalyzer] *)

Module DeviceAnalyzer.
Section Analyzer.

Variable checked_type : Expr -> Ty.

Notation DomainFor := (DomainFor checked_type).
Notation DomainForCallee := (DomainForCallee checked_type).
Notation UnifyExprExact := (UnifyExprExact checked_type).
Notation UnifyExprExactDomain := (UnifyExprExactDomain checked_type).
Notation UnifyExprCollapsed := (UnifyExprCollapsed checked_type).

(** [DevicePatternAnalyzer]: every pattern variable is collapsed onto the
    matched expression [adt], at [adt_loc]. *)
Fixpoint VisitPattern (st : DeviceDomains) (adt : Expr) (adt_loc : Loc) (p : Pattern)
  : Result DeviceDomains :=
  match p with
  | PatternWildcard => Ok st
  | PatternVar v =>
      let '(st, var_domain) := DomainFor st (VarNode v) adt_loc in
      UnifyExprCollapsed st adt adt_loc var_domain
  | PatternConstructor _ ps | PatternTuple ps =>
      (fix go st ps :=
         match ps with
         | [] => Ok st
         | p :: ps' => let* st := VisitPattern st adt adt_loc p in go st ps'
         end) st ps
  end.

(** The last step of the call visit: the callee domain must unify with the
    domain implied by the arguments and the call context. *)
Definition CheckCallDomains (st : DeviceDomains) (call : Expr)
  (func_domain implied_domain : DeviceDomain) : Result DeviceDomains :=
  let '(st', ok) := UnifyOrNull st func_domain implied_domain in
  if ok then Ok st'
  else Fatal (CallScopesMismatch call (ToString st' func_domain)
                                     (ToString st' implied_domain)).

(** The domain built from the "param_se_scopes" and "result_se_scope"
    attributes of a function. *)
Definition AnnotationDomain (st : DeviceDomains) (ps : list string) (b : Expr)
  (attrs : FuncAttrs) : DeviceDomains * DeviceDomain :=
  let '(st, param_domains) :=
    (fix go st ps i :=
       match ps with
       | [] => (st, [])
       | p :: ps' =>
           let '(st, d) := ForSEScope st (checked_type (VarNode p))
                             (GetFunctionParamSEScope attrs i) in
           let '(st, ds) := go st ps' (S i) in (st, d :: ds)
       end) st ps 0 in
  let '(st, result_domain) :=
    ForSEScope st (checked_type b) (GetFunctionResultSEScope attrs) in
  (st, MakeHigherOrderDomain (param_domains ++ [result_domain])).

(** The check of a function against its own scope attributes. *)
Definition CheckFunctionAnnotation (st : DeviceDomains) (function : Expr)
  (ps : list string) (b : Expr) (attrs : FuncAttrs) (func_domain : DeviceDomain)
  : Result DeviceDomains :=
  if negb (IsFullyUnconstrained (GetFunctionResultSEScope attrs)) then
    let '(st, annotation_domain) := AnnotationDomain st ps b attrs in
    let '(st', ok) := UnifyOrNull st func_domain annotation_domain in
    if ok then Ok st'
    else Fatal (FunctionAnnotationMismatch function (ToString st' func_domain)
                                           (ToString st' annotation_domain))
  else Ok st.

(** The visit of the node [e] at position [l]. *)
Fixpoint VisitExpr (st : DeviceDomains) (e : Expr) (l : Loc) {struct e}
  : Result DeviceDomains :=
  match e with
  | CallNode op args _ =>
      let* st := VisitExpr st op (child l 0) in
      let '(st, func_domain) := DomainForCallee st e l in
      let* _ := ICHECK (opt_eqb Nat.eqb (function_arity func_domain)
                                (Some (List.length args))) "call arity" in
      bind ((fix go st args i :=
               match args with
               | [] => Ok (st, [])
               | a :: args' =>
                   let '(st, d) := DomainFor st a (child l i) in
                   let* st := VisitExpr st a (child l i) in
                   bind (go st args' (S i)) (fun '(st, ds) => Ok (st, d :: ds))
               end) st args 1)
        (fun '(st, arg_domains) =>
           let '(st, call_domain) := DomainFor st e l in
           CheckCallDomains st e func_domain
             (MakeHigherOrderDomain (arg_domains ++ [call_domain])))
  | LetNode x v b =>
      let* st := UnifyExprExact st (VarNode x) l v (child l 0) in
      let* st := UnifyExprExact st e l b (child l 1) in
      let '(st, _) := DomainFor st (VarNode x) l in
      let* st := VisitExpr st v (child l 0) in
      VisitExpr st b (child l 1)
  | FunctionNode ps b attrs =>
      if primitive attrs then Ok st else
      let '(st, func_domain) := DomainFor st e l in
      let* _ := ICHECK (match function_arity func_domain with
                        | Some _ => true | None => false end) "higher-order" in
      let* st := UnifyExprExactDomain st b (child l 0) (function_result func_domain) in
      let* _ := ICHECK (opt_eqb Nat.eqb (function_arity func_domain)
                                (Some (List.length ps))) "function arity" in
      let* st :=
        (fix go st ps pds :=
           match ps, pds with
           | p :: ps', pd :: pds' =>
               let* st := UnifyExprExactDomain st (VarNode p) l pd in
               let '(st, _) := DomainFor st (VarNode p) l in
               go st ps' pds'
           | _, _ => Ok st
           end) st ps (function_params func_domain) in
      let* st := CheckFunctionAnnotation st e ps b attrs func_domain in
      VisitExpr st b (child l 0)
  | TupleNode fs =>
      (fix go st fs i :=
         match fs with
         | [] => Ok st
         | f :: fs' =>
             let '(st, domain) := DomainFor st f (child l i) in
             let* st := UnifyExprCollapsed st e l domain in
             let* st := VisitExpr st f (child l i) in
             go st fs' (S i)
         end) st fs 0
  | TupleGetItemNode t _ =>
      let '(st, domain) := DomainFor st e l in
      let* st := UnifyExprCollapsed st t (child l 0) domain in
      VisitExpr st t (child l 0)
  | MatchNode d cls =>
      let '(st, match_domain) := DomainFor st e l in
      let* st := UnifyExprCollapsed st d (child l 0) match_domain in
      let* st :=
        (fix go st cls i :=
           match cls with
           | [] => Ok st
           | (lhs, rhs) :: cls' =>
               let* st := VisitPattern st d (child l 0) lhs in
               let* st := UnifyExprExactDomain st rhs (child l i) match_domain in
               let* st := VisitExpr st rhs (child l i) in
               go st cls' (S i)
           end) st cls 1 in
      VisitExpr st d (child l 0)
  | GlobalVarNode _ | VarNode _ | ConstantNode _ => Ok (fst (DomainFor st e l))
  | ConstructorNode _ | OpNode _ => Ok st
  | IfNode c t f =>
      let '(st, domain) := DomainFor st e l in
      let* st := UnifyExprCollapsed st c (child l 0) domain in
      let* st := UnifyExprExactDomain st t (child l 1) domain in
      let* st := UnifyExprExactDomain st f (child l 2) domain in
      let* st := VisitExpr st c (child l 0) in
      let* st := VisitExpr st t (child l 1) in
      VisitExpr st f (child l 2)
  | RefCreateNode v =>
      let '(st, domain) := DomainFor st v (child l 0) in
      let* st := UnifyExprCollapsed st e l domain in
      VisitExpr st v (child l 0)
  | RefReadNode r =>
      let '(st, domain) := DomainFor st e l in
      let* st := UnifyExprCollapsed st r (child l 0) domain in
      VisitExpr st r (child l 0)
  | RefWriteNode r v =>
      let '(st, domain) := DomainFor st v (child l 1) in
      let* st := UnifyExprCollapsed st r (child l 0) domain in
      let* st := UnifyExprCollapsed st e l domain in
      let* st := VisitExpr st r (child l 0) in
      VisitExpr st v (child l 1)
  end.

(** [Analyze]: for every global definition, unify the global with its
    function and collect the function's constraints. *)
Definition Analyze (mod_ : IRModule) (st : DeviceDomains) : Result DeviceDomains :=
  fold_left (fun acc '(gv, f) =>
               let* st := acc in
               let* st := UnifyExprExact st (GlobalVarNode gv) (root_of gv) f (root_of gv) in
               VisitExpr st f (root_of gv))
            (functions mod_) (Ok st).

End Analyzer.
End DeviceAnalyzer.

(** ** Phase 2: [DeviceDefaulter] *)

Module DeviceDefaulter.
Section Defaulter.

Variable checked_type : Expr -> Ty.

Notation DomainFor := (DomainFor checked_type).
Notation DomainForCallee := (DomainForCallee checked_type).

(** The defaulting step shared by the function and the call visits. *)
Definition DefaultCallee (st : DeviceDomains) (func_domain : DeviceDomain)
  : DeviceDomains :=
  if negb (IsFullyConstrained st func_domain) then
    SetResultDefaultThenParams st func_domain (default_primitive_se_scope (config st))
  else st.

(** The visit of the node [e] at position [l]. *)
Fixpoint VisitExpr (st : DeviceDomains) (e : Expr) (l : Loc) {struct e}
  : Result DeviceDomains :=
  let fix visit_all st es i :=
    match es with
    | [] => Ok st
    | e :: es' => let* st := VisitExpr st e (child l i) in visit_all st es' (S i)
    end in
  match e with
  | FunctionNode ps b attrs =>
      if primitive attrs then Ok st else
      let '(st, func_domain) := DomainFor st e l in
      let* _ := ICHECK (opt_eqb Nat.eqb (function_arity func_domain)
                                (Some (List.length ps))) "function arity" in
      let st := DefaultCallee st func_domain in
      VisitExpr st b (child l 0)
  | CallNode op args _ =>
      let '(st, func_domain) := DomainForCallee st e l in
      let* _ := ICHECK (opt_eqb Nat.eqb (function_arity func_domain)
                                (Some (List.length args))) "call arity" in
      let st := DefaultCallee st func_domain in
      (* ExprVisitor::VisitExpr_(CallNode): the operator, then the arguments *)
      let* st := VisitExpr st op (child l 0) in
      visit_all st args 1
  | LetNode x v b =>
      let '(st, let_domain) := DomainFor st e l in
      let let_se_scope := ResultSEScope st let_domain in
      let* _ := ICHECK (negb (IsFullyUnconstrained let_se_scope)) "let scope" in
      let '(st, let_var_domain) := DomainFor st (VarNode x) l in
      let st := if negb (IsFullyConstrained st let_var_domain)
                then SetDefault st let_var_domain let_se_scope else st in
      let* st := VisitExpr st v (child l 0) in
      VisitExpr st b (child l 1)
  (* the default ExprVisitor traversal *)
  | VarNode _ | GlobalVarNode _ | ConstantNode _ | OpNode _
  | ConstructorNode _ => Ok st
  | TupleNode fs => visit_all st fs 0
  | TupleGetItemNode t _ => VisitExpr st t (child l 0)
  | IfNode c t f =>
      let* st := VisitExpr st c (child l 0) in
      let* st := VisitExpr st t (child l 1) in
      VisitExpr st f (child l 2)
  | MatchNode d cls =>
      let* st := VisitExpr st d (child l 0) in
      (fix go st cls i :=
         match cls with
         | [] => Ok st
         | (_, rhs) :: cls' =>
             let* st := VisitExpr st rhs (child l i) in go st cls' (S i)
         end) st cls 1
  | RefCreateNode v => VisitExpr st v (child l 0)
  | RefReadNode r => VisitExpr st r (child l 0)
  | RefWriteNode r v =>
      let* st := VisitExpr st r (child l 0) in VisitExpr st v (child l 1)
  end.

Definition Default (mod_ : IRModule) (st : DeviceDomains) : Result DeviceDomains :=
  fold_left (fun acc '(gv, f) => let* st := acc in VisitExpr st f (root_of gv))
            (functions mod_) (Ok st).

End Defaulter.
End DeviceDefaulter.

(** ** Phase 3: [DeviceCapturer] *)

Module DeviceCapturer.
Section Capturer.

(** The domains after defaulting; the capturer only reads them. *)
Variable domains : DeviceDomains.

(** [DomainFor] on a node the analyzer has seen, [e] at [l] ([ICHECK] of
    [contains]). *)
Definition DomainOf (e : Expr) (l : Loc) : Result DeviceDomain :=
  match lookup (key_of e l) (expr_to_domain domains) with
  | Some d => Ok d
  | None => Fatal (CheckFailed "no domain")
  end.

(** [DomainForCallee] on a call the analyzer has seen. *)
Definition CalleeDomain (call : Expr) (l : Loc) : Result DeviceDomain :=
  match lookup (key_of call l) (call_to_callee_domain domains) with
  | Some d => Ok d
  | None =>
      match call with
      | CallNode (OpNode _) _ _ | CallNode (ConstructorNode _) _ _ =>
          Fatal (CheckFailed "no callee domain")
      | CallNode op _ _ => DomainOf op (child l 0)
      | _ => DomainOf call l
      end
  end.

(** [GetSEScope]: look through an "on_device" (whose body is its argument,
    child 1) and read the result scope. *)
Definition GetSEScope (e : Expr) (l : Loc) : Result SEScope :=
  let '(true_expr, true_loc) :=
    match GetOnDeviceProps e with Some (body, _, _) => (body, child l 1) | None => (e, l) end in
  let* d := DomainOf true_expr true_loc in
  let s := ResultSEScope domains d in
  let* _ := ICHECK (negb (IsFullyUnconstrained s)) "no SEScope" in
  Ok s.

(** [VisitChild(lexical, expected, child_se_scope, child)]; [visited] is the
    rewritten child, [VisitExpr(child)]. *)
Definition VisitChild (lexical_se_scope expected_se_scope child_se_scope : SEScope)
  (child : Expr) (visited : Result Expr) : Result Expr :=
  let* _ := ICHECK (negb (IsFullyUnconstrained lexical_se_scope)) "lexical" in
  let* _ := ICHECK (negb (IsFullyUnconstrained expected_se_scope)) "expected" in
  match child with
  | OpNode _ | ConstructorNode _ => Ok child
  | _ =>
      let* result := visited in
      let result :=
        if negb (se_scope_eqb child_se_scope expected_se_scope) then
          DeviceCopy (MaybeOnDevice result child_se_scope true)
                     child_se_scope expected_se_scope
        else result in
      let result :=
        if negb (se_scope_eqb expected_se_scope lexical_se_scope) then
          MaybeOnDevice result expected_se_scope true
        else result in
      Ok result
  end.

(** [VisitChild(parent, child)], with the parent at [pl] and the child at
    [cl]. *)
Definition VisitChildOf (parent : Expr) (pl : Loc) (child : Expr) (cl : Loc)
  (visited : Result Expr) : Result Expr :=
  let* expected_se_scope := GetSEScope parent pl in
  let* child_se_scope := GetSEScope child cl in
  VisitChild expected_se_scope expected_se_scope child_se_scope child visited.

(** The visit of the node [e] at position [l]. *)
Fixpoint VisitExpr (e : Expr) (l : Loc) : Result Expr :=
  match e with
  | VarNode _ | GlobalVarNode _ | ConstantNode _ | OpNode _ | ConstructorNode _ => Ok e
  | TupleNode fs =>
      let* fields :=
        (fix go fs i :=
           match fs with
           | [] => Ok []
           | f :: fs' =>
               let* f' := VisitChildOf e l f (child l i) (VisitExpr f (child l i)) in
               let* rest := go fs' (S i) in Ok (f' :: rest)
           end) fs 0 in
      Ok (TupleNode fields)
  | FunctionNode ps b attrs =>
      if primitive attrs then Ok e else
      let* func_domain := DomainOf e l in
      let* _ := ICHECK (opt_eqb Nat.eqb (function_arity func_domain)
                                (Some (List.length ps))) "function arity" in
      let result_se_scope := ResultSEScope domains func_domain in
      let* _ := ICHECK (negb (IsFullyUnconstrained result_se_scope)) "result" in
      let* param_se_scopes :=
        (fix go pds :=
           match pds with
           | [] => Ok []
           | pd :: pds' =>
               let s := ResultSEScope domains pd in
               let* _ := ICHECK (negb (IsFullyUnconstrained s)) "param" in
               let* rest := go pds' in Ok (s :: rest)
           end) (function_params func_domain) in
      let* body_se_scope := GetSEScope b (child l 0) in
      let* body := VisitChild result_se_scope result_se_scope body_se_scope b
                              (VisitExpr b (child l 0)) in
      Ok (FunctionOnDevice (FunctionNode ps body attrs) param_se_scopes result_se_scope)
  | CallNode op args attrs =>
      let* call_se_scope := GetSEScope e l in
      let generic :=
        let* func_domain := CalleeDomain e l in
        let result_se_scope := ResultSEScope domains func_domain in
        let* _ := ICHECK (negb (IsFullyUnconstrained result_se_scope)) "callee result" in
        let* op' := VisitChild call_se_scope call_se_scope result_se_scope op
                               (VisitExpr op (child l 0)) in
        let* _ := ICHECK (opt_eqb Nat.eqb (function_arity func_domain)
                                  (Some (List.length args))) "call arity" in
        let* args' :=
          (fix go args pds i :=
             match args, pds with
             | a :: args', pd :: pds' =>
                 let param_se_scope := ResultSEScope domains pd in
                 let* _ := ICHECK (negb (IsFullyUnconstrained param_se_scope)) "param" in
                 let* arg_se_scope := GetSEScope a (child l i) in
                 let* a' := VisitChild call_se_scope param_se_scope arg_se_scope a
                                       (VisitExpr a (child l i)) in
                 let* rest := go args' pds' (S i) in Ok (a' :: rest)
             | _, _ => Ok []
             end) args (function_params func_domain) 1 in
        Ok (CallNode op' args' attrs) in
      match args with
      | [body] =>
          match GetOnDeviceProps e, GetDeviceCopyProps e with
          | Some _, _ =>
              (* the original "on_device" calls are pinched out *)
              VisitExpr body (child l 1)
          | None, Some (_, src, dst) =>
              let src_se_scope := CanonicalSEScope (config domains) src in
              let dst_se_scope := CanonicalSEScope (config domains) dst in
              let* _ := ICHECK (se_scope_eqb call_se_scope dst_se_scope) "copy dst" in
              if se_scope_eqb src_se_scope dst_se_scope then VisitExpr body (child l 1)
              else VisitChild dst_se_scope dst_se_scope src_se_scope body
                              (VisitExpr body (child l 1))
          | None, None => generic
          end
      | _ => generic
      end
  | LetNode x v b =>
      let* let_se_scope := GetSEScope e l in
      let* var_se_scope := GetSEScope (VarNode x) l in
      let* value_se_scope := GetSEScope v (child l 0) in
      let* value := VisitChild let_se_scope var_se_scope value_se_scope v
                               (VisitExpr v (child l 0)) in
      let* body :=
        (* the let chain continues while the lets agree on their scope *)
        (fix chain (cur : Expr) (cl : Loc) : Result Expr :=
           match cur with
           | LetNode x' v' b' =>
               let* s := GetSEScope cur cl in
               if se_scope_eqb s let_se_scope then
                 let* var_se_scope := GetSEScope (VarNode x') cl in
                 let* value_se_scope := GetSEScope v' (child cl 0) in
                 let* value := VisitChild let_se_scope var_se_scope value_se_scope v'
                                          (VisitExpr v' (child cl 0)) in
                 let* body := chain b' (child cl 1) in
                 Ok (LetNode x' value body)
               else VisitChild let_se_scope let_se_scope s cur (VisitExpr cur cl)
           | _ =>
               let* s := GetSEScope cur cl in
               VisitChild let_se_scope let_se_scope s cur (VisitExpr cur cl)
           end) b (child l 1) in
      Ok (LetNode x value body)
  | IfNode c t f =>
      let* cond := VisitChildOf e l c (child l 0) (VisitExpr c (child l 0)) in
      let* true_branch := VisitChildOf e l t (child l 1) (VisitExpr t (child l 1)) in
      let* false_branch := VisitChildOf e l f (child l 2) (VisitExpr f (child l 2)) in
      Ok (IfNode cond true_branch false_branch)
  | TupleGetItemNode t i =>
      let* tuple := VisitChildOf e l t (child l 0) (VisitExpr t (child l 0)) in
      Ok (TupleGetItemNode tuple i)
  | RefCreateNode v =>
      let* value := VisitChildOf e l v (child l 0) (VisitExpr v (child l 0)) in
      Ok (RefCreateNode value)
  | RefReadNode r =>
      let* ref := VisitChildOf e l r (child l 0) (VisitExpr r (child l 0)) in
      Ok (RefReadNode ref)
  | RefWriteNode r v =>
      let* ref := VisitChildOf e l r (child l 0) (VisitExpr r (child l 0)) in
      let* value := VisitChildOf e l v (child l 1) (VisitExpr v (child l 1)) in
      Ok (RefWriteNode ref value)
  | MatchNode d cls =>
      let* data := VisitChildOf e l d (child l 0) (VisitExpr d (child l 0)) in
      let* clauses :=
        (fix go cls i :=
           match cls with
           | [] => Ok []
           | (lhs, rhs) :: cls' =>
               let* rhs' := VisitChildOf e l rhs (child l i) (VisitExpr rhs (child l i)) in
               let* rest := go cls' (S i) in Ok ((lhs, rhs') :: rest)
           end) cls 1 in
      Ok (MatchNode data clauses)
  end.

(** [Capture]: a new module with the same type definitions, imports and
    source map, and every global function rewritten. *)
Definition Capture (mod_ : IRModule) : Result IRModule :=
  let* fns :=
    (fix go fns :=
       match fns with
       | [] => Ok []
       | (gv, f) :: fns' =>
           let* f' := VisitExpr f (root_of gv) in
           let* rest := go fns' in Ok ((gv, f') :: rest)
       end) (functions mod_) in
  Ok (MkModule fns (type_definitions mod_) (imports mod_) (source_map mod_)).

End Capturer.
End DeviceCapturer.

(** ** The composite pass *)

(** [Rewrite]: phase 0 as a function pass over every global function. *)
Definition Rewrite (mod_ : IRModule) : IRModule :=
  MkModule (List.map (fun '(gv, f) => (gv, RewriteOnDevices.VisitExpr f)) (functions mod_))
           (type_definitions mod_) (imports mod_) (source_map mod_).

Definition EmptyDomains (cfg : CompilationConfig) : DeviceDomains :=
  MkDomains cfg [] [] (fun _ => Root FullyUnconstrained) 0.

(** [PlanDevicesCore]: analyze, default, capture. [checked_type] stands for
    the types the type checker has attached to the module. *)
Definition PlanDevicesCore (cfg : CompilationConfig) (checked_type : Expr -> Ty)
  (mod_ : IRModule) : Result IRModule :=
  let* domains := DeviceAnalyzer.Analyze checked_type mod_ (EmptyDomains cfg) in
  let* domains := DeviceDefaulter.Default checked_type mod_ domains in
  DeviceCapturer.Capture domains mod_.

Definition PlanDevices (cfg : CompilationConfig) (checked_type : Expr -> Ty)
  (mod_ : IRModule) : Result IRModule :=
  PlanDevicesCore cfg checked_type (Rewrite mod_).

(** ** Notions used to state the properties of the planner *)

(** The call visit of the analyzer up to its last step: the state, the
    callee domain and the domain implied by the arguments and the call. *)
Definition CallPrefix (checked_type : Expr -> Ty) (st : DeviceDomains) (e : Expr)
  (l : Loc) : Result (DeviceDomains * DeviceDomain * DeviceDomain) :=
  match e with
  | CallNode op args _ =>
      let* st := DeviceAnalyzer.VisitExpr checked_type st op (child l 0) in
      let '(st, func_domain) := DomainForCallee checked_type st e l in
      let* _ := ICHECK (opt_eqb Nat.eqb (function_arity func_domain)
                                (Some (List.length args))) "call arity" in
      bind ((fix go st args i :=
               match args with
               | [] => Ok (st, [])
               | a :: args' =>
                   let '(st, d) := DomainFor checked_type st a (child l i) in
                   let* st := DeviceAnalyzer.VisitExpr checked_type st a (child l i) in
                   bind (go st args' (S i)) (fun '(st, ds) => Ok (st, d :: ds))
               end) st args 1)
        (fun '(st, arg_domains) =>
           let '(st, call_domain) := DomainFor checked_type st e l in
           Ok (st, func_domain, MakeHigherOrderDomain (arg_domains ++ [call_domain])))
  | _ => Fatal (CheckFailed "not a call")
  end.

(** The function visit of the analyzer up to the check against the scope
    attributes: the state and the function's domain. *)
Definition FunctionPrefix (checked_type : Expr -> Ty) (st : DeviceDomains) (e : Expr)
  (l : Loc) : Result (DeviceDomains * DeviceDomain) :=
  match e with
  | FunctionNode ps b attrs =>
      if primitive attrs then Fatal (CheckFailed "primitive") else
      let '(st, func_domain) := DomainFor checked_type st e l in
      let* _ := ICHECK (match function_arity func_domain with
                        | Some _ => true | None => false end) "higher-order" in
      let* st := UnifyExprExactDomain checked_type st b (child l 0)
                   (function_result func_domain) in
      let* _ := ICHECK (opt_eqb Nat.eqb (function_arity func_domain)
                                (Some (List.length ps))) "function arity" in
      let* st :=
        (fix go st ps pds :=
           match ps, pds with
           | p :: ps', pd :: pds' =>
               let* st := UnifyExprExactDomain checked_type st (VarNode p) l pd in
               let '(st, _) := DomainFor checked_type st (VarNode p) l in
               go st ps' pds'
           | _, _ => Ok st
           end) st ps (function_params func_domain) in
      Ok (st, func_domain)
  | _ => Fatal (CheckFailed "not a function")
  end.

(** The first-order leaves of a domain, and the leaf of its result position. *)
Fixpoint leaves (d : DeviceDomain) : list nat :=
  match d with
  | FirstOrder id => [id]
  | HigherOrder ps r => flat_map leaves ps ++ leaves r
  end.

Fixpoint result_leaf (d : DeviceDomain) : nat :=
  match d with
  | FirstOrder id => id
  | HigherOrder _ r => result_leaf r
  end.

(** Every leaf of [d] resolves to a root of the union-find. *)
Definition roots_ok (st : DeviceDomains) (d : DeviceDomain) : bool :=
  forallb (fun l => match uf st (Lookup st l) with Root _ => true | Link _ => false end)
          (leaves d).

(** [id] shares its representative with one of the leaves [ls]. *)
Definition in_rep (st : DeviceDomains) (id : nat) (ls : list nat) : bool :=
  existsb (fun l => Nat.eqb (Lookup st id) (Lookup st l)) ls.

(** The scope [SetDefault] gives the leaf [l] when defaulting it to [s]. *)
Definition default_leaf (st : DeviceDomains) (l : nat) (s : SEScope) : SEScope :=
  let cur := leaf_scope st l in
  if IsFullyConstrainedScope cur then cur
  else CanonicalSEScope (config st) (Default cur s).

(** The scope of [id] after defaulting the leaves [ls] to [s]: unchanged
    when fully constrained or not sharing a representative with [ls],
    otherwise [s] fills in its unknown facets. *)
Definition defaulted_scope (st : DeviceDomains) (ls : list nat) (s : SEScope) (id : nat)
  : SEScope :=
  let cur := leaf_scope st id in
  if IsFullyConstrainedScope cur then cur
  else if in_rep st id ls then CanonicalSEScope (config st) (Default cur s)
  else cur.

(** The scope of [id] after defaulting [d] result first: the result leaf to
    [dflt], then every other leaf of [d] to the result scope. *)
Definition result_then_params_scope (st : DeviceDomains) (d : DeviceDomain) (dflt : SEScope)
  (id : nat) : SEScope :=
  let cur := leaf_scope st id in
  let result := default_leaf st (result_leaf d) dflt in
  if IsFullyConstrainedScope cur then cur
  else if Nat.eqb (Lookup st id) (Lookup st (result_leaf d)) then result
  else if in_rep st id (leaves d) then CanonicalSEScope (config st) (Default cur result)
  else cur.

(** [st'] has the configuration and the representatives of [st], and keeps
    its roots. *)
Definition stable (st st' : DeviceDomains) : Prop :=
  config st' = config st
  /\ (forall id, Lookup st' id = Lookup st id)
  /\ (forall j s0, uf st j = Root s0 -> exists s1, uf st' j = Root s1).

(** [Forall_nodes p e]: [p] holds at every node of [e], except inside the
    bodies of primitive functions. *)
Fixpoint Forall_nodes (p : Expr -> bool) (e : Expr) : bool :=
  p e &&
  match e with
  | VarNode _ | GlobalVarNode _ | ConstantNode _ | OpNode _ | ConstructorNode _ => true
  | TupleNode fs => forallb (Forall_nodes p) fs
  | TupleGetItemNode t _ => Forall_nodes p t
  | IfNode c t f => Forall_nodes p c && Forall_nodes p t && Forall_nodes p f
  | LetNode _ v b => Forall_nodes p v && Forall_nodes p b
  | FunctionNode _ b attrs => primitive attrs || Forall_nodes p b
  | CallNode op args _ => Forall_nodes p op && forallb (Forall_nodes p) args
  | MatchNode d cls => Forall_nodes p d && forallb (fun c => Forall_nodes p (snd c)) cls
  | RefCreateNode v => Forall_nodes p v
  | RefReadNode r => Forall_nodes p r
  | RefWriteNode r v => Forall_nodes p r && Forall_nodes p v
  end.

Definition module_ok (p : Expr -> bool) (mod_ : IRModule) : bool :=
  forallb (fun gf => Forall_nodes p (snd gf)) (functions mod_).

(** A function carries "param_se_scopes" (one per parameter) and
    "result_se_scope", unless it is primitive. *)
Definition has_se_scope_attrs (e : Expr) : bool :=
  match e with
  | FunctionNode ps _ attrs =>
      primitive attrs ||
      match param_se_scopes attrs, result_se_scope attrs with
      | Some pss, Some _ => Nat.eqb (List.length pss) (List.length ps)
      | _, _ => false
      end
  | _ => true
  end.


(** An "on_device" or "device_copy" directly around a primitive operator. *)
Definition annotates_op (e : Expr) : bool :=
  match GetOnDeviceProps e, GetDeviceCopyProps e with
  | Some (OpNode _, _, _), _ => true
  | _, Some (OpNode _, _, _) => true
  | _, _ => false
  end.

(** A variable or a global variable. *)
Definition is_var (e : Expr) : bool :=
  match e with VarNode _ | GlobalVarNode _ => true | _ => false end.

(** A call or a function: the nodes the capturer builds anew. *)
Definition call_or_function (e : Expr) : bool :=
  match e with CallNode _ _ _ | FunctionNode _ _ _ => true | _ => false end.

(** The name of a primitive operator. *)
Definition op_name (e : Expr) : option string :=
  match e with OpNode n => Some n | _ => None end.

(** No "on_device" or "device_copy" directly around a primitive operator. *)
Definition no_annotated_op (e : Expr) : bool := negb (annotates_op e).

(** [All_nodes p e]: [p] holds at every node of [e], the bodies of primitive
    functions included (phase 0 rewrites them as well). *)
Fixpoint All_nodes (p : Expr -> bool) (e : Expr) : bool :=
  p e &&
  match e with
  | VarNode _ | GlobalVarNode _ | ConstantNode _ | OpNode _ | ConstructorNode _ => true
  | TupleNode fs => forallb (All_nodes p) fs
  | TupleGetItemNode t _ => All_nodes p t
  | IfNode c t f => All_nodes p c && All_nodes p t && All_nodes p f
  | LetNode _ v b => All_nodes p v && All_nodes p b
  | FunctionNode _ b _ => All_nodes p b
  | CallNode op args _ => All_nodes p op && forallb (All_nodes p) args
  | MatchNode d cls => All_nodes p d && forallb (fun c => All_nodes p (snd c)) cls
  | RefCreateNode v => All_nodes p v
  | RefReadNode r => All_nodes p r
  | RefWriteNode r v => All_nodes p r && All_nodes p v
  end.

(** An "on_device" call that is not fixed. *)
Definition unfixed_on_device (e : Expr) : bool :=
  match GetOnDeviceProps e with Some (_, _, false) => true | _ => false end.

(** A tuple projection out of a non-fixed "on_device". *)
Definition projects_unfixed (e : Expr) : bool :=
  match e with TupleGetItemNode t _ => unfixed_on_device t | _ => false end.

(** A let binding a non-fixed "on_device", or a function whose body is one. *)
Definition binds_unfixed (e : Expr) : bool :=
  match e with
  | LetNode _ v _ => unfixed_on_device v
  | FunctionNode _ b _ => unfixed_on_device b
  | _ => false
  end.

(** The three places phase 0 rewrites. *)
Definition rewrite_site (e : Expr) : bool := projects_unfixed e || binds_unfixed e.

(** A primitive function. *)
Definition is_primitive_function (e : Expr) : bool :=
  match e with FunctionNode _ _ attrs => primitive attrs | _ => false end.

(** A function is primitive, or its "param_se_scopes" and "result_se_scope"
    are present and none of them is the fully unconstrained scope. *)
Definition se_scopes_known (e : Expr) : bool :=
  match e with
  | FunctionNode _ _ attrs =>
      primitive attrs ||
      match param_se_scopes attrs, result_se_scope attrs with
      | Some pss, Some rs =>
          forallb (fun s => negb (IsFullyUnconstrained s)) pss
          && negb (IsFullyUnconstrained rs)
      | _, _ => false
      end
  | _ => true
  end.

Definition lookup_function (gv : string) (mod_ : IRModule) : option Expr :=
  match find (fun gf => String.eqb (fst gf) gv) (functions mod_) with
  | Some (_, f) => Some f
  | None => None
  end.

(** Structural size of an expression, the measure of the inductions on the
    capturer. *)
Fixpoint expr_size (e : Expr) : nat :=
  match e with
  | VarNode _ | GlobalVarNode _ | ConstantNode _ | OpNode _ | ConstructorNode _ => 1
  | TupleNode fs => S (list_sum (List.map expr_size fs))
  | TupleGetItemNode t _ => S (expr_size t)
  | IfNode c t f => S (expr_size c + expr_size t + expr_size f)
  | LetNode _ v b => S (expr_size v + expr_size b)
  | FunctionNode _ b _ => S (expr_size b)
  | CallNode op args _ => S (expr_size op + list_sum (List.map expr_size args))
  | MatchNode d cls =>
      S (expr_size d + list_sum (List.map (fun c => expr_size (snd c)) cls))
  | RefCreateNode v => S (expr_size v)
  | RefReadNode r => S (expr_size r)
  | RefWriteNode r v => S (expr_size r + expr_size v)
  end.

(** Induction on domains with a hypothesis for every parameter. *)
Fixpoint DeviceDomain_ind' (P : DeviceDomain -> Prop)
  (Hf : forall id, P (FirstOrder id))
  (Hh : forall ps r, Forall P ps -> P r -> P (HigherOrder ps r))
  (d : DeviceDomain) : P d :=
  match d with
  | FirstOrder id => Hf id
  | HigherOrder ps r =>
      Hh ps r
        ((fix go ps : Forall P ps :=
            match ps with
            | [] => Forall_nil P
            | p :: ps' => Forall_cons p (DeviceDomain_ind' P Hf Hh p) (go ps')
            end) ps)
        (DeviceDomain_ind' P Hf Hh r)
  end.

(** ** Example configurations and modules *)

Definition CPU : SEScope := MkSEScope (Some 1) (Some 1) (Some "global").
Definition GPU : SEScope := MkSEScope (Some 2) (Some 2) (Some "global").

(** A configuration whose scopes are already canonical. *)
Definition ex_config : CompilationConfig := MkConfig CPU CPU (fun s => s).

(** Types of a first-order module: functions over tensors, with the arities
    of the globals given. *)
Definition tensor_types (globals : list (string * nat)) (e : Expr) : Ty :=
  match e with
  | FunctionNode ps _ _ => FuncType (List.map (fun _ => TensorType) ps) TensorType
  | GlobalVarNode g =>
      match find (fun p => String.eqb (fst p) g) globals with
      | Some (_, n) => FuncType (repeat TensorType n) TensorType
      | None => TensorType
      end
  | _ => TensorType
  end.

Definition add (a b : Expr) : Expr := CallNode (OpNode "add") [a; b] NoAttrs.

(** [def main(x, y) { add(x, on_device(y, GPU)) }] *)
Definition copy_module : IRModule :=
  MkModule [("main", FunctionNode ["x"; "y"]
                       (add (VarNode "x") (OnDevice (VarNode "y") GPU false))
                       NoFuncAttrs)] [] [] [].

(** A primitive function holding a no-op copy. *)
Definition prim_function : Expr :=
  FunctionNode ["x"] (DeviceCopy (VarNode "x") CPU CPU) (MkFuncAttrs true None None).

Definition prim_module : IRModule :=
  MkModule [("prim", prim_function)] ["List"] ["std"] [("prim", "prim.py:1")].

(** [def B(y) { 1 }] and [def A(z) { let u = B(z); on_device(2, GPU, fixed) }],
    in the two iteration orders. *)
Definition fn_B : Expr := FunctionNode ["y"] (ConstantNode 1) NoFuncAttrs.

Definition fn_A : Expr :=
  FunctionNode ["z"]
    (LetNode "u" (CallNode (GlobalVarNode "B") [VarNode "z"] NoAttrs)
       (OnDevice (ConstantNode 2) GPU true))
    NoFuncAttrs.

Definition module_AB : IRModule := MkModule [("A", fn_A); ("B", fn_B)] [] [] [].
Definition module_BA : IRModule := MkModule [("B", fn_B); ("A", fn_A)] [] [] [].

(** A higher-order module: [g] calls its function-typed parameter [f], and
    [main] passes [h], which copies from GPU to CPU. *)
Definition fn_type : Ty := FuncType [TensorType] TensorType.

Definition var_type (x : string) : Ty := if String.eqb x "f" then fn_type else TensorType.

Definition ho_types (e : Expr) : Ty :=
  match e with
  | FunctionNode ps _ _ => FuncType (List.map var_type ps) TensorType
  | VarNode x => var_type x
  | GlobalVarNode g =>
      if String.eqb g "g" then FuncType [fn_type; TensorType] TensorType else fn_type
  | _ => TensorType
  end.

Definition ho_module : IRModule :=
  MkModule
    [("main", FunctionNode ["x"]
                (CallNode (GlobalVarNode "g") [GlobalVarNode "h"; VarNode "x"] NoAttrs)
                NoFuncAttrs);
     ("g", FunctionNode ["f"; "a"] (CallNode (VarNode "f") [VarNode "a"] NoAttrs)
             NoFuncAttrs);
     ("h", FunctionNode ["p"] (DeviceCopy (VarNode "p") GPU CPU) NoFuncAttrs)]
    [] [] [].

(** [def main(x) { add(on_device(x, CPU, fixed), on_device(x, GPU, fixed)) }] *)
Definition conflict_call : Expr := OnDevice (VarNode "x") GPU true.

Definition conflict_module : IRModule :=
  MkModule [("main", FunctionNode ["x"]
                       (add (OnDevice (VarNode "x") CPU true) conflict_call)
                       NoFuncAttrs)] [] [] [].

(** The planned [copy_module]: [y] stays on GPU and is copied to CPU. *)
Definition copy_module_planned : IRModule :=
  MkModule [("main", FunctionNode ["x"; "y"]
                       (add (VarNode "x") (DeviceCopy (VarNode "y") GPU CPU))
                       (MkFuncAttrs false (Some [CPU; GPU]) (Some CPU)))] [] [] [].

(** The planned [module_AB] and [module_BA]. *)
Definition planned_AB : IRModule :=
  MkModule
    [("A", FunctionNode ["z"]
             (LetNode "u" (CallNode (GlobalVarNode "B") [VarNode "z"] NoAttrs) (ConstantNode 2))
             (MkFuncAttrs false (Some [GPU]) (Some GPU)));
     ("B", FunctionNode ["y"] (ConstantNode 1) (MkFuncAttrs false (Some [GPU]) (Some GPU)))]
    [] [] [].

Definition planned_BA : IRModule :=
  MkModule
    [("B", FunctionNode ["y"] (ConstantNode 1) (MkFuncAttrs false (Some [CPU]) (Some CPU)));
     ("A", FunctionNode ["z"]
             (LetNode "u" (OnDevice (CallNode (GlobalVarNode "B") [VarNode "z"] NoAttrs) CPU true)
                (ConstantNode 2))
             (MkFuncAttrs false (Some [CPU]) (Some GPU)))]
    [] [] [].

(** The planned [ho_module]: the parameter [f] of [g] is recorded with the
    result scope of its domain only. *)
Definition ho_planned : IRModule :=
  MkModule
    [("main", FunctionNode ["x"]
                (CallNode (GlobalVarNode "g") [GlobalVarNode "h"; VarNode "x"] NoAttrs)
                (MkFuncAttrs false (Some [GPU]) (Some CPU)));
     ("g", FunctionNode ["f"; "a"] (CallNode (VarNode "f") [VarNode "a"] NoAttrs)
             (MkFuncAttrs false (Some [CPU; GPU]) (Some CPU)));
     ("h", FunctionNode ["p"] (DeviceCopy (VarNode "p") GPU CPU)
             (MkFuncAttrs false (Some [GPU]) (Some CPU)))]
    [] [] [].

(** Two first-order domains, on CPU and on GPU. *)
Definition two_leaves : DeviceDomains :=
  fst (MakeFirstOrderDomain (fst (MakeFirstOrderDomain (EmptyDomains ex_config) CPU)) GPU).

(** [on_device(on_device(x, CPU, fixed), GPU, fixed)], and the analyzer's
    call visit on it up to the final unification. *)
Definition nested_conflict : Expr := OnDevice (OnDevice (VarNode "x") CPU true) GPU true.

Definition nested_prefix : DeviceDomains * DeviceDomain * DeviceDomain :=
  match CallPrefix (tensor_types []) (EmptyDomains ex_config) nested_conflict (root_of "main") with
  | Ok p => p
  | Fatal _ => (EmptyDomains ex_config, FirstOrder 0, FirstOrder 0)
  end.

Definition nested_unified : DeviceDomains :=
  let '(st, fd, implied) := nested_prefix in fst (UnifyOrNull st fd implied).

(** A free function domain [fn(?0, ?1):?2]. *)
Definition free_fn : DeviceDomains * DeviceDomain :=
  Free (EmptyDomains ex_config) (FuncType [TensorType; TensorType] TensorType).






(** The [main] of [copy_module] next to [prim_function]. *)
Definition mixed_module : IRModule :=
  MkModule (functions copy_module ++ [("prim", prim_function)]) [] [] [].

Definition mixed_planned : IRModule :=
  MkModule (functions copy_module_planned ++ [("prim", prim_function)]) [] [] [].

(** ** The analysis state and its invariant *)

(** The union-find of the domains is well founded: every link joins two
    allocated nodes and goes up a rank, so [Lookup] reaches a root. *)
Definition uf_wf (st : DeviceDomains) : Prop :=
  exists h : nat -> nat, forall j p, uf st j = Link p ->
    j < next_id st /\ p < next_id st /\ h j < h p.

(** The number of allocated nodes of a greater rank than [j]: the fuel
    [Lookup] needs from [j]. *)
Definition higher (h : nat -> nat) (n j : nat) : nat :=
  List.length (filter (fun k => Nat.ltb (h j) (h k)) (seq 0 n)).

(** Linking the root [rb] below the root [ra], which gets the scope [s]. *)
Definition link_roots (st : DeviceDomains) (ra rb : nat) (s : SEScope) : DeviceDomains :=
  set_node (set_node st rb (Link ra)) ra (Root s).

(** Canonicalisation keeps every fully constrained scope as it is. *)
Definition canonical_fixed (cfg : CompilationConfig) : Prop :=
  forall s, IsFullyConstrainedScope s = true -> CanonicalSEScope cfg s = s.

(** Every leaf of [d] is an allocated node of [st]. *)
Definition below (st : DeviceDomains) (d : DeviceDomain) : bool :=
  forallb (fun x => Nat.ltb x (next_id st)) (leaves d).

(** Two domains of the same shape: both first-order, or both higher-order
    of the same arity with parts of the same shape. *)
Fixpoint same_shape (a b : DeviceDomain) : bool :=
  match a, b with
  | FirstOrder _, FirstOrder _ => true
  | HigherOrder ps r, HigherOrder qs r' =>
      Nat.eqb (List.length ps) (List.length qs)
      && (fix go ps qs := match ps, qs with
                          | p :: ps', q :: qs' => same_shape p q && go ps' qs'
                          | _, _ => true
                          end) ps qs
      && same_shape r r'
  | _, _ => false
  end.

(** The pairs of leaves [UnifyOrNull] joins, position by position. *)
Fixpoint leaf_pairs (a b : DeviceDomain) : list (nat * nat) :=
  match a, b with
  | FirstOrder x, FirstOrder y => [(x, y)]
  | HigherOrder ps r, HigherOrder qs r' =>
      (fix go ps qs := match ps, qs with
                       | p :: ps', q :: qs' => (leaf_pairs p q ++ go ps' qs')%list
                       | _, _ => []
                       end) ps qs ++ leaf_pairs r r'
  | _, _ => []
  end.

(** The pairs of leaves [UnifyCollapsedOrFalse] joins: the first-order
    [lhs] with every first-order part of [rhs]. *)
Fixpoint collapsed_pairs (lhs rhs : DeviceDomain) : list (nat * nat) :=
  match rhs with
  | FirstOrder _ => leaf_pairs lhs rhs
  | HigherOrder ps r => flat_map (collapsed_pairs lhs) ps ++ collapsed_pairs lhs r
  end.

(** Some pair of leaves resolves to two different fully constrained scopes. *)
Definition clash (st : DeviceDomains) (pairs : list (nat * nat)) : bool :=
  existsb (fun '(x, y) =>
             IsFullyConstrainedScope (leaf_scope st x)
             && IsFullyConstrainedScope (leaf_scope st y)
             && negb (se_scope_eqb (leaf_scope st x) (leaf_scope st y))) pairs.

(** [st'] refines [st]: the same configuration, nodes and memo tables, a
    well-founded union-find that keeps every join of [st], and the scope of
    every fully constrained leaf when canonicalisation keeps those. *)
Definition refines (st st' : DeviceDomains) : Prop :=
  config st' = config st /\ next_id st' = next_id st
  /\ expr_to_domain st' = expr_to_domain st
  /\ call_to_callee_domain st' = call_to_callee_domain st
  /\ uf_wf st'
  /\ (forall j k, Lookup st j = Lookup st k -> Lookup st' j = Lookup st' k)
  /\ (canonical_fixed (config st) -> forall x,
        IsFullyConstrainedScope (leaf_scope st x) = true -> leaf_scope st' x = leaf_scope st x).

(** [UnifyOrNull] on the parameters of two higher-order domains, and the
    shape test and leaf pairs that go with it. *)
Fixpoint unify_list (st : DeviceDomains) (ps qs : list DeviceDomain) : DeviceDomains * bool :=
  match ps, qs with
  | p :: ps', q :: qs' =>
      let '(st, ok) := UnifyOrNull st p q in
      if ok then unify_list st ps' qs' else (st, false)
  | _, _ => (st, true)
  end.

Fixpoint shape_list (ps qs : list DeviceDomain) : bool :=
  match ps, qs with
  | p :: ps', q :: qs' => same_shape p q && shape_list ps' qs'
  | _, _ => true
  end.

Fixpoint pairs_list (ps qs : list DeviceDomain) : list (nat * nat) :=
  match ps, qs with
  | p :: ps', q :: qs' => (leaf_pairs p q ++ pairs_list ps' qs')%list
  | _, _ => []
  end.

(** [UnifyCollapsedOrFalse] on the parameters of a higher-order domain. *)
Definition collapsed_list (lhs : DeviceDomain) :=
  fix go (st : DeviceDomains) (ps : list DeviceDomain) : DeviceDomains * bool :=
  match ps with
  | p :: ps' =>
      let '(st, ok) := UnifyCollapsedOrFalse st lhs p in
      if ok then go st ps' else (st, false)
  | [] => (st, true)
  end.

(** Every memoised domain has only allocated leaves. *)
Definition table_below (st : DeviceDomains) (t : list (Key * DeviceDomain)) : Prop :=
  forall k d, In (k, d) t -> below st d = true.

(** The invariant of the analysis state. *)
Definition domains_ok (st : DeviceDomains) : Prop :=
  uf_wf st /\ table_below st (expr_to_domain st) /\ table_below st (call_to_callee_domain st).

(** A later state: the same configuration, no fewer nodes. *)
Definition grows (st st' : DeviceDomains) : Prop :=
  config st' = config st /\ next_id st <= next_id st'.

(** A step keeps the invariant, returns a domain of allocated leaves and
    grows the state. *)
Definition step_ok (st st' : DeviceDomains) (d : DeviceDomain) : Prop :=
  domains_ok st' /\ below st' d = true /\ grows st st'.

(** Induction on types, through the parameters of function types. *)
Fixpoint Ty_ind' (P : Ty -> Prop) (HT : P TensorType) (HS : P ShapeType)
  (HF : forall ps r, Forall P ps -> P r -> P (FuncType ps r)) (HO : P OtherType)
  (t : Ty) : P t :=
  match t with
  | TensorType => HT
  | ShapeType => HS
  | FuncType ps r =>
      HF ps r
        ((fix go ps : Forall P ps :=
            match ps with
            | [] => Forall_nil P
            | p :: ps' => Forall_cons p (Ty_ind' P HT HS HF HO p) (go ps')
            end) ps)
        (Ty_ind' P HT HS HF HO r)
  | OtherType => HO
  end.

(** The loops of [ForSEScope], [DomainForCallee], [AnnotationDomain] and of
    the analyzer's visits, as named functions. *)
Definition for_list (s : SEScope) :=
  fix go (st : DeviceDomains) (ps : list Ty) : DeviceDomains * list DeviceDomain :=
    match ps with
    | [] => (st, [])
    | p :: ps' =>
        let '(st, d) := ForSEScope st p s in
        let '(st, ds) := go st ps' in (st, d :: ds)
    end.

Definition shape_args (checked_type : Expr -> Ty) :=
  fix go (st : DeviceDomains) (args : list Expr) : DeviceDomains * list DeviceDomain :=
    match args with
    | [] => (st, [])
    | a :: args' =>
        let '(st, d) := ShapePosition st (checked_type a) in
        let '(st, ds) := go st args' in (st, d :: ds)
    end.

Definition visit_patterns (checked_type : Expr -> Ty) (adt : Expr) (adt_loc : Loc) :=
  fix go (st : DeviceDomains) (ps : list Pattern) : Result DeviceDomains :=
    match ps with
    | [] => Ok st
    | p :: ps' => let* st := DeviceAnalyzer.VisitPattern checked_type st adt adt_loc p in go st ps'
    end.

Definition annotation_params (checked_type : Expr -> Ty) (attrs : FuncAttrs) :=
  fix go (st : DeviceDomains) (ps : list string) (i : nat) : DeviceDomains * list DeviceDomain :=
    match ps with
    | [] => (st, [])
    | p :: ps' =>
        let '(st, d) := ForSEScope st (checked_type (VarNode p))
                          (GetFunctionParamSEScope attrs i) in
        let '(st, ds) := go st ps' (S i) in (st, d :: ds)
    end.

Definition visit_args (checked_type : Expr -> Ty) (l : Loc) :=
  fix go (st : DeviceDomains) (args : list Expr) (i : nat)
    : Result (DeviceDomains * list DeviceDomain) :=
    match args with
    | [] => Ok (st, [])
    | a :: args' =>
        let '(st, d) := DomainFor checked_type st a (child l i) in
        let* st := DeviceAnalyzer.VisitExpr checked_type st a (child l i) in
        bind (go st args' (S i)) (fun '(st, ds) => Ok (st, d :: ds))
    end.

Definition unify_params (checked_type : Expr -> Ty) (l : Loc) :=
  fix go (st : DeviceDomains) (ps : list string) (pds : list DeviceDomain)
    : Result DeviceDomains :=
    match ps, pds with
    | p :: ps', pd :: pds' =>
        let* st := UnifyExprExactDomain checked_type st (VarNode p) l pd in
        let '(st, _) := DomainFor checked_type st (VarNode p) l in
        go st ps' pds'
    | _, _ => Ok st
    end.

Definition visit_fields (checked_type : Expr -> Ty) (e : Expr) (l : Loc) :=
  fix go (st : DeviceDomains) (fs : list Expr) (i : nat) : Result DeviceDomains :=
    match fs with
    | [] => Ok st
    | f :: fs' =>
        let '(st, domain) := DomainFor checked_type st f (child l i) in
        let* st := UnifyExprCollapsed checked_type st e l domain in
        let* st := DeviceAnalyzer.VisitExpr checked_type st f (child l i) in
        go st fs' (S i)
    end.

Definition visit_clauses (checked_type : Expr -> Ty) (d : Expr) (l : Loc)
  (match_domain : DeviceDomain) :=
  fix go (st : DeviceDomains) (cls : list (Pattern * Expr)) (i : nat) : Result DeviceDomains :=
    match cls with
    | [] => Ok st
    | (lhs, rhs) :: cls' =>
        let* st := DeviceAnalyzer.VisitPattern checked_type st d (child l 0) lhs in
        let* st := UnifyExprExactDomain checked_type st rhs (child l i) match_domain in
        let* st := DeviceAnalyzer.VisitExpr checked_type st rhs (child l i) in
        go st cls' (S i)
    end.

(** Induction on patterns, through their sub-patterns. *)
Fixpoint Pattern_ind' (P : Pattern -> Prop) (HW : P PatternWildcard)
  (HV : forall v, P (PatternVar v))
  (HC : forall c ps, Forall P ps -> P (PatternConstructor c ps))
  (HT : forall ps, Forall P ps -> P (PatternTuple ps)) (p : Pattern) : P p :=
  let go := fix go ps : Forall P ps :=
      match ps with
      | [] => Forall_nil P
      | p :: ps' => Forall_cons p (Pattern_ind' P HW HV HC HT p) (go ps')
      end in
  match p with
  | PatternWildcard => HW
  | PatternVar v => HV v
  | PatternConstructor c ps => HC c ps (go ps)
  | PatternTuple ps => HT ps (go ps)
  end.

(** The analyzer's visit of [e] keeps the invariant and grows the state. *)
Definition vok (checked_type : Expr -> Ty) (e : Expr) : Prop :=
  forall st l st', domains_ok st -> DeviceAnalyzer.VisitExpr checked_type st e l = Ok st' ->
  domains_ok st' /\ grows st st'.

(** One global function of [Analyze]. *)
Definition analyze_step (checked_type : Expr -> Ty) (acc : Result DeviceDomains)
  (gf : string * Expr) : Result DeviceDomains :=
  let '(gv, f) := gf in
  let* st := acc in
  let* st := UnifyExprExact checked_type st (GlobalVarNode gv) (root_of gv) f (root_of gv) in
  DeviceAnalyzer.VisitExpr checked_type st f (root_of gv).

(** Two variables fixed to CPU and to GPU, and the state that records it. *)
Definition conflict_types : Expr -> Ty := tensor_types [].

Definition constrain_a : Expr := OnDevice (VarNode "a") CPU true.

Definition constrain_b : Expr := OnDevice (VarNode "b") GPU true.

Definition state_a : DeviceDomains :=
  match DeviceAnalyzer.VisitExpr conflict_types (EmptyDomains ex_config) constrain_a
          (root_of "a") with
  | Ok st => st | Fatal _ => EmptyDomains ex_config end.

Definition state_ab : DeviceDomains :=
  match DeviceAnalyzer.VisitExpr conflict_types state_a constrain_b (root_of "b") with
  | Ok st => st | Fatal _ => EmptyDomains ex_config end.

Definition domain_a : DeviceDomain := snd (DomainFor conflict_types state_ab (VarNode "a") (root_of "a")).

Definition domain_b : DeviceDomain := snd (DomainFor conflict_types state_ab (VarNode "b") (root_of "b")).

(** [g] records its parameter and result on CPU, and [main] calls it on an
    argument fixed to GPU; the analysis of [g] up to the check of its
    attributes. *)
Definition g_annotated : Expr :=
  FunctionNode ["x"] (VarNode "x") (MkFuncAttrs false (Some [CPU]) (Some CPU)).

Definition annotation_module : IRModule :=
  MkModule [("main", FunctionNode ["c"]
                       (CallNode (GlobalVarNode "g") [OnDevice (VarNode "c") GPU true] NoAttrs)
                       NoFuncAttrs);
            ("g", g_annotated)] [] [] [].

Definition annotation_types : Expr -> Ty := tensor_types [("main", 1); ("g", 1)].

Definition annotation_main_state : DeviceDomains :=
  match DeviceAnalyzer.Analyze annotation_types
          (MkModule (firstn 1 (functions (Rewrite annotation_module))) [] [] [])
          (EmptyDomains ex_config) with
  | Ok st => st | Fatal _ => EmptyDomains ex_config end.

Definition annotation_state : DeviceDomains :=
  match UnifyExprExact annotation_types annotation_main_state (GlobalVarNode "g") (root_of "g")
          g_annotated (root_of "g") with
  | Ok st => st | Fatal _ => EmptyDomains ex_config end.

Definition annotation_prefix : DeviceDomains * DeviceDomain :=
  match FunctionPrefix annotation_types annotation_state g_annotated (root_of "g") with
  | Ok p => p | Fatal _ => (EmptyDomains ex_config, FirstOrder 0) end.

Definition annotation_domain : DeviceDomains * DeviceDomain :=
  let '(st, _) := annotation_prefix in
  DeviceAnalyzer.AnnotationDomain annotation_types st ["x"] (VarNode "x")
    (MkFuncAttrs false (Some [CPU]) (Some CPU)).

(** One global function of [Default], and the loop of [Capture]. *)
Definition default_step (checked_type : Expr -> Ty) (acc : Result DeviceDomains)
  (gf : string * Expr) : Result DeviceDomains :=
  let '(gv, f) := gf in
  let* st := acc in DeviceDefaulter.VisitExpr checked_type st f (root_of gv).

Definition capture_functions (domains : DeviceDomains) :=
  fix go (fns : list (string * Expr)) : Result (list (string * Expr)) :=
    match fns with
    | [] => Ok []
    | (gv, f) :: fns' =>
        let* f' := DeviceCapturer.VisitExpr domains f (root_of gv) in
        let* rest := go fns' in Ok ((gv, f') :: rest)
    end.

(** Types for [module_AB] and [module_BA]. *)
Definition order_types : Expr -> Ty := tensor_types [("A", 1); ("B", 1)].

(** The domains [module_AB] is captured with, after analysis and defaulting. *)
Definition domains_AB : DeviceDomains :=
  match bind (DeviceAnalyzer.Analyze order_types (Rewrite module_AB) (EmptyDomains ex_config))
             (fun d => DeviceDefaulter.Default order_types (Rewrite module_AB) d) with
  | Ok d => d | Fatal _ => EmptyDomains ex_config end.

(** The domains after the analysis of [A], the first function of [module_AB]. *)
Definition domains_A : DeviceDomains :=
  match bind (UnifyExprExact order_types (EmptyDomains ex_config) (GlobalVarNode "A")
                (root_of "A") fn_A (root_of "A"))
             (fun st => DeviceAnalyzer.VisitExpr order_types st fn_A (root_of "A")) with
  | Ok d => d | Fatal _ => EmptyDomains ex_config end.

(** ** Basic facts *)

Lemma se_scope_eqb_spec (a b : SEScope) : se_scope_eqb a b = true <-> a = b.
Proof.
  destruct a as [d1 t1 m1], b as [d2 t2 m2]; unfold se_scope_eqb; simpl.
  rewrite !andb_true_iff.
  destruct d1, d2, t1, t2, m1, m2; simpl;
    rewrite ?Nat.eqb_eq, ?String.eqb_eq; split; intuition congruence.
Qed.

Lemma se_scope_eqb_refl (a : SEScope) : se_scope_eqb a a = true.
Proof. apply se_scope_eqb_spec; reflexivity. Qed.

Lemma se_scope_eqb_false (a b : SEScope) : se_scope_eqb a b = false <-> a <> b.
Proof.
  rewrite <- se_scope_eqb_spec. destruct (se_scope_eqb a b); split; congruence.
Qed.

Lemma bind_Ok {A B} (m : Result A) (k : A -> Result B) (b : B) :
  bind m k = Ok b -> exists a, m = Ok a /\ k a = Ok b.
Proof. destruct m; simpl; [eauto | discriminate]. Qed.

Lemma ICHECK_Ok (b : bool) (what : string) (u : unit) : ICHECK b what = Ok u -> b = true.
Proof. unfold ICHECK; destruct b; congruence. Qed.

(** Take apart a successful [let*] in a hypothesis. *)
Ltac inv_bind H :=
  let a := fresh "a" in
  let Ha := fresh "Ha" in
  apply bind_Ok in H; destruct H as [a [Ha H]].

Lemma OnDevice_not_subterm (e : Expr) (s : SEScope) (f : bool) : OnDevice e s f <> e.
Proof. intro H; apply (f_equal expr_size) in H; simpl in H; lia. Qed.

(** ** Phase 0 *)

(** C4: a tuple projection of a non-fixed "on_device" is rewritten to
    [on_device((on_device(e', d, false)).i, d, false)], where [e'] is the
    rewritten [e]: the projection is wrapped, but the inner annotation stays
    on the tuple; the result is never [on_device(e'.i, d, false)]. *)
Theorem RewriteOnDevices_tuple_get_item (e : Expr) (d : SEScope) (i : nat) :
  RewriteOnDevices.VisitExpr (TupleGetItemNode (OnDevice e d false) i) =
    OnDevice (TupleGetItemNode (OnDevice (RewriteOnDevices.VisitExpr e) d false) i) d false
  /\ RewriteOnDevices.VisitExpr (TupleGetItemNode (OnDevice e d false) i) <>
    OnDevice (TupleGetItemNode (RewriteOnDevices.VisitExpr e) i) d false.
Proof.
  assert (Heq : RewriteOnDevices.VisitExpr (TupleGetItemNode (OnDevice e d false) i) =
    OnDevice (TupleGetItemNode (OnDevice (RewriteOnDevices.VisitExpr e) d false) i) d false)
    by reflexivity.
  split; [exact Heq|]. rewrite Heq. intro H.
  injection H as H. apply (OnDevice_not_subterm _ _ _ H).
Qed.

(** C5: phase 0 turns a non-fixed "on_device" bound by a let or forming a
    function body into the fixed [on_device(e', d, true)] ([e'] the rewritten
    [e]); a fixed "on_device" is kept as it is, wherever it occurs (alone, as
    a let-bound value, as a function body, or under a tuple projection). *)
Theorem RewriteOnDevices_fixes_annotations :
  (forall x e d b,
     RewriteOnDevices.VisitExpr (LetNode x (OnDevice e d false) b) =
     LetNode x (OnDevice (RewriteOnDevices.VisitExpr e) d true) (RewriteOnDevices.VisitExpr b))
  /\ (forall ps e d attrs,
     RewriteOnDevices.VisitExpr (FunctionNode ps (OnDevice e d false) attrs) =
     FunctionNode ps (OnDevice (RewriteOnDevices.VisitExpr e) d true) attrs)
  /\ (forall e d,
     RewriteOnDevices.VisitExpr (OnDevice e d true) =
     OnDevice (RewriteOnDevices.VisitExpr e) d true)
  /\ (forall x e d b,
     RewriteOnDevices.VisitExpr (LetNode x (OnDevice e d true) b) =
     LetNode x (OnDevice (RewriteOnDevices.VisitExpr e) d true) (RewriteOnDevices.VisitExpr b))
  /\ (forall ps e d attrs,
     RewriteOnDevices.VisitExpr (FunctionNode ps (OnDevice e d true) attrs) =
     FunctionNode ps (OnDevice (RewriteOnDevices.VisitExpr e) d true) attrs)
  /\ (forall e d i,
     RewriteOnDevices.VisitExpr (TupleGetItemNode (OnDevice e d true) i) =
     TupleGetItemNode (OnDevice (RewriteOnDevices.VisitExpr e) d true) i).
Proof. repeat split; reflexivity. Qed.

(** ** Phase 3: [VisitChild] *)

Lemma MaybeOnDevice_var (r : Expr) (s : SEScope) (f : bool) :
  is_var r = true -> MaybeOnDevice r s f = r.
Proof. destruct r; simpl; congruence. Qed.

Lemma MaybeOnDevice_not_var (r : Expr) (s : SEScope) (f : bool) :
  is_var r = false -> MaybeOnDevice r s f = OnDevice r s f.
Proof. destruct r; simpl; congruence. Qed.

(** C2: [VisitChild(lexical, expected, child_se_scope, child)] returns a
    primitive operator or constructor unchanged. For any other child, with
    [r] the rewritten child: when [child_se_scope] differs from [expected],
    [r] is copied, as [device_copy(on_device(r, child_se_scope, fixed),
    child_se_scope, expected)], or [device_copy(r, child_se_scope, expected)]
    when [r] is a variable or global variable; when moreover [expected]
    differs from [lexical] the result is wrapped in
    [on_device(., expected, fixed)], which is again left out around a
    variable. *)
Theorem VisitChild_cases (lexical expected child_se_scope : SEScope) (child r : Expr) :
  IsFullyUnconstrained lexical = false -> IsFullyUnconstrained expected = false ->
  let C := DeviceCapturer.VisitChild lexical expected child_se_scope child in
  ((exists n, child = OpNode n \/ child = ConstructorNode n) ->
     forall visited, C visited = Ok child)
  /\ ((forall n, child <> OpNode n /\ child <> ConstructorNode n) ->
     (child_se_scope = expected -> expected = lexical -> C (Ok r) = Ok r)
     /\ (child_se_scope <> expected -> expected = lexical -> is_var r = false ->
         C (Ok r) = Ok (DeviceCopy (OnDevice r child_se_scope true) child_se_scope expected))
     /\ (child_se_scope <> expected -> expected = lexical -> is_var r = true ->
         C (Ok r) = Ok (DeviceCopy r child_se_scope expected))
     /\ (child_se_scope <> expected -> expected <> lexical -> is_var r = false ->
         C (Ok r) = Ok (OnDevice (DeviceCopy (OnDevice r child_se_scope true)
                                             child_se_scope expected) expected true))
     /\ (child_se_scope <> expected -> expected <> lexical -> is_var r = true ->
         C (Ok r) = Ok (OnDevice (DeviceCopy r child_se_scope expected) expected true))
     /\ (child_se_scope = expected -> expected <> lexical -> is_var r = false ->
         C (Ok r) = Ok (OnDevice r expected true))
     /\ (child_se_scope = expected -> expected <> lexical -> is_var r = true ->
         C (Ok r) = Ok r)).
Proof.
  intros Hl He C. unfold C, DeviceCapturer.VisitChild. rewrite Hl, He. simpl.
  split.
  - intros [n [-> | ->]] visited; reflexivity.
  - intros Hn.
    assert (Hc : forall A (x y : A),
               match child with OpNode _ | ConstructorNode _ => x | _ => y end = y)
      by (intros A x y; destruct child; auto;
          [destruct (Hn name) as [H _] | destruct (Hn name) as [_ H]]; congruence).
    rewrite Hc. simpl.
    repeat split; intros H1 H2; try intros H3;
      try (apply se_scope_eqb_spec in H1; rewrite H1);
      try (apply se_scope_eqb_false in H1; rewrite H1);
      try (apply se_scope_eqb_spec in H2; rewrite H2);
      try (apply se_scope_eqb_false in H2; rewrite H2);
      simpl;
      rewrite ?MaybeOnDevice_var, ?MaybeOnDevice_not_var by (simpl; auto);
      reflexivity.
Qed.

(** ** Phase 3: [Capture] *)

Lemma Capture_inv (domains : DeviceDomains) (mod_ mod' : IRModule) :
  DeviceCapturer.Capture domains mod_ = Ok mod' ->
  Forall2 (fun gf gf' => fst gf' = fst gf /\
                         DeviceCapturer.VisitExpr domains (snd gf) (root_of (fst gf)) = Ok (snd gf'))
          (functions mod_) (functions mod')
  /\ type_definitions mod' = type_definitions mod_
  /\ imports mod' = imports mod_
  /\ source_map mod' = source_map mod_.
Proof.
  unfold DeviceCapturer.Capture. intros H. inv_bind H. injection H as <-. simpl.
  repeat split; auto. revert a Ha.
  induction (functions mod_) as [|[gv f] fns IH]; intros out Hgo.
  - injection Hgo as <-. constructor.
  - inv_bind Hgo. inv_bind Hgo. injection Hgo as <-.
    constructor; auto.
Qed.

Lemma Capture_of_Forall2 (domains : DeviceDomains) (mod_ : IRModule)
  (fns : list (string * Expr)) :
  Forall2 (fun gf gf' => fst gf' = fst gf /\
                         DeviceCapturer.VisitExpr domains (snd gf) (root_of (fst gf)) = Ok (snd gf'))
          (functions mod_) fns ->
  DeviceCapturer.Capture domains mod_ =
    Ok (MkModule fns (type_definitions mod_) (imports mod_) (source_map mod_)).
Proof.
  unfold DeviceCapturer.Capture. intros H.
  assert (Hgo : (fix go fns :=
       match fns with
       | [] => Ok []
       | (gv, f) :: fns' =>
           let* f' := DeviceCapturer.VisitExpr domains f (root_of gv) in
           let* rest := go fns' in Ok ((gv, f') :: rest)
       end) (functions mod_) = Ok fns).
  { induction H as [|[gv f] [gv' f'] fns0 fns1 [Hn Hv] _ IH]; [reflexivity|].
    simpl in *. subst gv'. rewrite Hv. simpl. rewrite IH. reflexivity. }
  rewrite Hgo. reflexivity.
Qed.

(** C10: the module built by [Capture] has the type definitions, imports and
    source map of the input module, and the same global names in the same
    order; only the functions are rewritten. *)
Theorem Capture_keeps_module_parts (domains : DeviceDomains) (mod_ mod' : IRModule) :
  DeviceCapturer.Capture domains mod_ = Ok mod' ->
  type_definitions mod' = type_definitions mod_
  /\ imports mod' = imports mod_
  /\ source_map mod' = source_map mod_
  /\ List.map fst (functions mod') = List.map fst (functions mod_).
Proof.
  intros H. destruct (Capture_inv domains mod_ mod' H) as [HF [Ht [Hi Hs]]].
  repeat split; auto.
  induction HF as [|gf gf' l l' [Hn _] _ IH]; simpl; congruence.
Qed.

(** ** Phase 1: unification *)

Lemma Join_fully_constrained_differ (a b : SEScope) :
  IsFullyConstrainedScope a = true -> IsFullyConstrainedScope b = true -> a <> b ->
  Join a b = None.
Proof.
  destruct a as [[d1|] [t1|] [m1|]], b as [[d2|] [t2|] [m2|]]; simpl;
    try discriminate; intros _ _ Hne.
  unfold Join; simpl.
  destruct (Nat.eqb_spec d1 d2), (Nat.eqb_spec t1 t2), (String.eqb_spec m1 m2);
    subst; try reflexivity. congruence.
Qed.

Lemma leaf_scope_same_rep (st : DeviceDomains) (a b : nat) :
  Lookup st a = Lookup st b -> leaf_scope st a = leaf_scope st b.
Proof. unfold leaf_scope. intros ->. reflexivity. Qed.

Lemma Lookup_root (st : DeviceDomains) (id : nat) (s : SEScope) :
  uf st (Lookup st id) = Root s -> Lookup st (Lookup st id) = Lookup st id.
Proof. intros H. unfold Lookup at 1. simpl. rewrite H. reflexivity. Qed.

Lemma leaf_scope_rep (st : DeviceDomains) (id : nat) :
  IsFullyConstrainedScope (leaf_scope st id) = true ->
  leaf_scope st (Lookup st id) = leaf_scope st id.
Proof.
  unfold leaf_scope at 1 2. destruct (uf st (Lookup st id)) eqn:E; [|discriminate].
  intros _. unfold leaf_scope. rewrite (Lookup_root st id se_scope E), E. reflexivity.
Qed.

(** ** Concrete runs *)

(** The claim of C2 fails for a variable child: with the call on CPU and the
    argument [y] on GPU, the copy of [y] is not wrapped in an "on_device"; the
    planner produces [device_copy(y, GPU, CPU)] on [copy_module]. *)
Lemma VisitChild_var_counterexample :
  DeviceCapturer.VisitChild CPU CPU GPU (VarNode "y") (Ok (VarNode "y")) =
    Ok (DeviceCopy (VarNode "y") GPU CPU)
  /\ DeviceCopy (VarNode "y") GPU CPU <> DeviceCopy (OnDevice (VarNode "y") GPU true) GPU CPU
  /\ PlanDevices ex_config (tensor_types [("main", 2)]) copy_module = Ok copy_module_planned.
Proof.
  split; [reflexivity|]. split.
  - intros H. inversion H.
  - vm_compute. reflexivity.
Defined.

Lemma VisitChild_cases_witness :
  IsFullyUnconstrained CPU = false
  /\ DeviceCapturer.VisitChild CPU CPU GPU (VarNode "y") (Ok (VarNode "y")) =
       Ok (DeviceCopy (VarNode "y") GPU CPU).
Proof.
  split; [reflexivity|].
  destruct (VisitChild_cases CPU CPU GPU (VarNode "y") (VarNode "y") eq_refl eq_refl)
    as [_ H].
  destruct H as [_ [_ [H3 _]]].
  - intros n; split; discriminate.
  - apply H3; [intros Hx; inversion Hx | reflexivity | reflexivity].
Defined.

(** The claim of C1 fails for primitive functions: the planner returns them
    without "param_se_scopes" and "result_se_scope". *)
Lemma primitive_function_unattributed :
  PlanDevices ex_config (tensor_types [("prim", 1)]) prim_module = Ok prim_module
  /\ lookup_function "prim" prim_module =
       Some (FunctionNode ["x"] (DeviceCopy (VarNode "x") CPU CPU) (MkFuncAttrs true None None)).
Proof. split; vm_compute; reflexivity. Defined.

Lemma Capture_keeps_module_parts_witness :
  DeviceCapturer.Capture (EmptyDomains ex_config) prim_module = Ok prim_module
  /\ (type_definitions prim_module = type_definitions prim_module
      /\ imports prim_module = imports prim_module
      /\ source_map prim_module = source_map prim_module
      /\ List.map fst (functions prim_module) = List.map fst (functions prim_module)).
Proof.
  assert (H : DeviceCapturer.Capture (EmptyDomains ex_config) prim_module = Ok prim_module)
    by (vm_compute; reflexivity).
  split; [exact H|]. exact (Capture_keeps_module_parts _ _ _ H).
Defined.


(** The claim of C9 fails: the same two functions, visited in the two
    orders, are planned differently ([B] on GPU, or on CPU). *)
Lemma plan_depends_on_function_order :
  Permutation (functions module_AB) (functions module_BA)
  /\ PlanDevices ex_config (tensor_types [("A", 1); ("B", 1)]) module_AB = Ok planned_AB
  /\ PlanDevices ex_config (tensor_types [("A", 1); ("B", 1)]) module_BA = Ok planned_BA
  /\ lookup_function "B" planned_AB <> lookup_function "B" planned_BA.
Proof.
  split; [apply perm_swap|]. split; [vm_compute; reflexivity|].
  split; [vm_compute; reflexivity|].
  vm_compute. intros H; inversion H.
Defined.

(** C8: the planner does not accept its own output on [ho_module]. The
    parameter [f] of [g] has the domain [fn(GPU):CPU]; its "param_se_scopes"
    entry records only the result scope CPU, which the second run reads back
    as [fn(CPU):CPU], in conflict with the call [f(a)] on the GPU argument
    [a]. *)
Theorem plan_twice_fails :
  PlanDevices ex_config ho_types ho_module = Ok ho_planned
  /\ PlanDevices ex_config ho_types ho_planned =
       Fatal (CallScopesMismatch (CallNode (VarNode "f") [VarNode "a"] NoAttrs)
                (PHigher [PFirst CPU] (PFirst CPU))
                (PHigher [PFirst GPU] (PFirst CPU))).
Proof. split; vm_compute; reflexivity. Qed.

(** ** Phase 2: defaulting *)

(** Overwriting a root with a root keeps every path of the union-find. *)
Lemma find_fuel_set_root (fuel : nat) (nodes : nat -> UFNode) (k : nat) (s s0 : SEScope)
  (id : nat) :
  nodes k = Root s0 ->
  find_fuel fuel (fun j => if Nat.eqb j k then Root s else nodes j) id =
  find_fuel fuel nodes id.
Proof.
  intros Hk. revert id. induction fuel as [|fuel IH]; intros id; [reflexivity|].
  simpl. destruct (Nat.eqb_spec id k) as [->|Hne].
  - rewrite Hk. reflexivity.
  - destruct (nodes id); [reflexivity|]. apply IH.
Qed.

Lemma Lookup_set_root (st : DeviceDomains) (k : nat) (s s0 : SEScope) (id : nat) :
  uf st k = Root s0 -> Lookup (set_node st k (Root s)) id = Lookup st id.
Proof.
  intros Hk. unfold Lookup, set_node. cbn [uf next_id].
  apply (find_fuel_set_root _ _ _ _ s0). exact Hk.
Qed.

Lemma leaf_scope_set_root (st : DeviceDomains) (k : nat) (s s0 : SEScope) (id : nat) :
  uf st k = Root s0 ->
  leaf_scope (set_node st k (Root s)) id =
  if Nat.eqb (Lookup st id) k then s else leaf_scope st id.
Proof.
  intros Hk. unfold leaf_scope. rewrite (Lookup_set_root st k s s0 id Hk).
  unfold set_node at 1. cbn [uf]. destruct (Nat.eqb (Lookup st id) k); reflexivity.
Qed.

Lemma ResultSEScope_leaf (st : DeviceDomains) (d : DeviceDomain) :
  ResultSEScope st d = leaf_scope st (result_leaf d).
Proof. induction d as [l|ps r IH]; simpl; auto. Qed.

Lemma result_leaf_in (d : DeviceDomain) : In (result_leaf d) (leaves d).
Proof. induction d as [l|ps r IH]; simpl; auto. apply in_or_app. right. exact IH. Qed.

Lemma IsFullyConstrained_leaves (st : DeviceDomains) (d : DeviceDomain) :
  IsFullyConstrained st d = true ->
  forall l, In l (leaves d) -> IsFullyConstrainedScope (leaf_scope st l) = true.
Proof.
  induction d as [l0|ps r IHps IHr] using DeviceDomain_ind'; intros H l Hl.
  - destruct Hl as [<-|[]]. exact H.
  - cbn [IsFullyConstrained] in H. apply andb_prop in H as [H1 H2].
    cbn [leaves] in Hl. apply in_app_or in Hl as [Hl|Hl]; [|exact (IHr H2 l Hl)].
    apply in_flat_map in Hl as [p [Hp Hl]].
    rewrite forallb_forall in H1. rewrite Forall_forall in IHps.
    exact (IHps p Hp (H1 p Hp) l Hl).
Qed.

Lemma stable_refl (st : DeviceDomains) : stable st st.
Proof. repeat split; eauto. Qed.

Lemma stable_trans (st1 st2 st3 : DeviceDomains) :
  stable st1 st2 -> stable st2 st3 -> stable st1 st3.
Proof.
  intros [C1 [L1 R1]] [C2 [L2 R2]]. repeat split.
  - congruence.
  - intros id. rewrite L2. apply L1.
  - intros j s0 H. destruct (R1 j s0 H) as [s1 H1]. exact (R2 j s1 H1).
Qed.

Lemma stable_set_root (st : DeviceDomains) (k : nat) (s s0 : SEScope) :
  uf st k = Root s0 -> stable st (set_node st k (Root s)).
Proof.
  intros Hk. repeat split.
  - intros id. apply (Lookup_set_root st k s s0 id Hk).
  - intros j s1 H. unfold set_node; cbn [uf].
    destruct (Nat.eqb j k); eauto.
Qed.

Lemma roots_ok_stable (st st' : DeviceDomains) (d : DeviceDomain) :
  stable st st' -> roots_ok st d = true -> roots_ok st' d = true.
Proof.
  intros [_ [L R]]. unfold roots_ok. rewrite !forallb_forall. intros H l Hl.
  specialize (H l Hl). rewrite L.
  destruct (uf st (Lookup st l)) eqn:E; [|discriminate].
  destruct (R _ _ E) as [s1 ->]. reflexivity.
Qed.

Lemma in_rep_stable (st st' : DeviceDomains) (id : nat) (ls : list nat) :
  stable st st' -> in_rep st' id ls = in_rep st id ls.
Proof.
  intros [_ [L _]]. unfold in_rep. induction ls as [|l ls IH]; simpl; [reflexivity|].
  rewrite IH, !L. reflexivity.
Qed.

Lemma in_rep_app (st : DeviceDomains) (id : nat) (l1 l2 : list nat) :
  in_rep st id (l1 ++ l2) = in_rep st id l1 || in_rep st id l2.
Proof. unfold in_rep. apply existsb_app. Qed.

Lemma in_rep_same (st : DeviceDomains) (id : nat) (ls : list nat) :
  in_rep st id ls = true -> exists l, In l ls /\ leaf_scope st id = leaf_scope st l.
Proof.
  unfold in_rep. rewrite existsb_exists. intros [l [Hl He]].
  apply Nat.eqb_eq in He. exists l. split; auto. apply leaf_scope_same_rep. exact He.
Qed.

Lemma fc_Default (s d : SEScope) :
  IsFullyConstrainedScope d = true -> IsFullyConstrainedScope (Default s d) = true.
Proof.
  destruct d as [[?|] [?|] [?|]]; try discriminate.
  destruct s as [[?|] [?|] [?|]]; reflexivity.
Qed.

Section Defaulting.

Variable cfg : CompilationConfig.

(** Canonicalisation keeps a fully constrained scope fully constrained. *)
Hypothesis canonical_fc : forall s,
  IsFullyConstrainedScope s = true -> IsFullyConstrainedScope (CanonicalSEScope cfg s) = true.

Lemma defaulted_fc (st : DeviceDomains) (cur s : SEScope) :
  config st = cfg -> IsFullyConstrainedScope s = true ->
  IsFullyConstrainedScope (CanonicalSEScope (config st) (Default cur s)) = true.
Proof. intros -> Hs. apply canonical_fc, fc_Default, Hs. Qed.

Lemma defaulted_scope_compose (st st1 st2 : DeviceDomains) (l1 l2 : list nat) (s : SEScope) :
  config st = cfg -> IsFullyConstrainedScope s = true ->
  stable st st1 -> (forall id, leaf_scope st1 id = defaulted_scope st l1 s id) ->
  stable st1 st2 -> (forall id, leaf_scope st2 id = defaulted_scope st1 l2 s id) ->
  forall id, leaf_scope st2 id = defaulted_scope st (l1 ++ l2) s id.
Proof.
  intros Hc Hs S1 E1 S2 E2 id. rewrite E2. unfold defaulted_scope.
  rewrite (in_rep_stable st st1 id l2 S1), in_rep_app, E1.
  assert (Hc1 : config st1 = config st) by apply S1.
  rewrite Hc1. unfold defaulted_scope.
  destruct (IsFullyConstrainedScope (leaf_scope st id)) eqn:F; [rewrite F; reflexivity|].
  destruct (in_rep st id l1) eqn:I1; simpl.
  - rewrite (defaulted_fc st _ _ Hc Hs). reflexivity.
  - rewrite F. reflexivity.
Qed.

Lemma SetDefault_leaf_spec (st : DeviceDomains) (l : nat) (s : SEScope) :
  roots_ok st (FirstOrder l) = true ->
  stable st (SetDefault st (FirstOrder l) s)
  /\ forall id, leaf_scope (SetDefault st (FirstOrder l) s) id = defaulted_scope st [l] s id.
Proof.
  intros Hr. unfold roots_ok in Hr. cbn [leaves forallb] in Hr. rewrite andb_true_r in Hr.
  unfold defaulted_scope, in_rep; cbn [SetDefault leaves existsb]. setoid_rewrite orb_false_r.
  destruct (IsFullyConstrainedScope (leaf_scope st l)) eqn:F.
  - split; [apply stable_refl|]. intros id.
    destruct (IsFullyConstrainedScope (leaf_scope st id)) eqn:G; [reflexivity|].
    destruct (Nat.eqb_spec (Lookup st id) (Lookup st l)) as [E|E]; [|reflexivity].
    rewrite (leaf_scope_same_rep st id l E), F in G. discriminate.
  - destruct (uf st (Lookup st l)) as [s0|] eqn:R; [|discriminate].
    split; [eapply stable_set_root; exact R|]. intros id.
    rewrite (leaf_scope_set_root st _ _ s0 id R).
    destruct (Nat.eqb_spec (Lookup st id) (Lookup st l)) as [E|E].
    + rewrite (leaf_scope_same_rep st id l E), F. reflexivity.
    + destruct (IsFullyConstrainedScope (leaf_scope st id)); reflexivity.
Qed.


Lemma defaulted_scope_nil (st : DeviceDomains) (s : SEScope) (id : nat) :
  defaulted_scope st [] s id = leaf_scope st id.
Proof. unfold defaulted_scope, in_rep; simpl. destruct (IsFullyConstrainedScope _); reflexivity. Qed.

Lemma fold_SetDefault_gen (ps : list DeviceDomain) :
  Forall (fun d => forall st s, config st = cfg -> IsFullyConstrainedScope s = true ->
            roots_ok st d = true ->
            stable st (SetDefault st d s)
            /\ forall id, leaf_scope (SetDefault st d s) id = defaulted_scope st (leaves d) s id) ps ->
  forall st s, config st = cfg -> IsFullyConstrainedScope s = true ->
  forallb (roots_ok st) ps = true ->
  let st' := fold_left (fun st p => SetDefault st p s) ps st in
  stable st st' /\ forall id, leaf_scope st' id = defaulted_scope st (flat_map leaves ps) s id.
Proof.
  induction 1 as [|p ps Hp Hps IH]; intros st s Hc Hs Hr; cbn [forallb fold_left flat_map] in *.
  - split; [apply stable_refl|]. intros id. symmetry. apply defaulted_scope_nil.
  - apply andb_prop in Hr as [Hr1 Hr2].
    destruct (Hp st s Hc Hs Hr1) as [S1 E1].
    assert (Hc1 : config (SetDefault st p s) = cfg) by (rewrite (proj1 S1); exact Hc).
    assert (Hr2' : forallb (roots_ok (SetDefault st p s)) ps = true).
    { rewrite forallb_forall in Hr2 |- *. intros q Hq.
      apply (roots_ok_stable st); [exact S1 | apply Hr2; exact Hq]. }
    destruct (IH _ s Hc1 Hs Hr2') as [S2 E2].
    split; [eapply stable_trans; eauto|].
    apply (defaulted_scope_compose st _ _ _ _ s Hc Hs S1 E1 S2 E2).
Qed.

Lemma SetDefault_higher (st : DeviceDomains) (ps : list DeviceDomain) (r : DeviceDomain)
  (s : SEScope) :
  SetDefault st (HigherOrder ps r) s
  = SetDefault (fold_left (fun st p => SetDefault st p s) ps st) r s.
Proof.
  cbn [SetDefault]. f_equal. revert st. induction ps as [|p ps IH]; intros st; simpl; auto.
Qed.

Lemma roots_ok_higher (st : DeviceDomains) (ps : list DeviceDomain) (r : DeviceDomain) :
  roots_ok st (HigherOrder ps r) = forallb (roots_ok st) ps && roots_ok st r.
Proof.
  unfold roots_ok. cbn [leaves]. rewrite forallb_app. f_equal.
  induction ps as [|p ps IH]; simpl; [reflexivity|]. rewrite forallb_app, IH. reflexivity.
Qed.

Lemma SetDefault_spec (d : DeviceDomain) :
  forall st s, config st = cfg -> IsFullyConstrainedScope s = true ->
  roots_ok st d = true ->
  stable st (SetDefault st d s)
  /\ forall id, leaf_scope (SetDefault st d s) id = defaulted_scope st (leaves d) s id.
Proof.
  induction d as [l|ps r Hps Hr] using DeviceDomain_ind'; intros st s Hc Hs Hroots.
  - apply SetDefault_leaf_spec, Hroots.
  - rewrite roots_ok_higher in Hroots. apply andb_prop in Hroots as [R1 R2].
    rewrite SetDefault_higher.
    destruct (fold_SetDefault_gen ps Hps st s Hc Hs R1) as [S1 E1].
    set (st1 := fold_left _ ps st) in *.
    assert (Hc1 : config st1 = cfg) by (rewrite (proj1 S1); exact Hc).
    destruct (Hr st1 s Hc1 Hs (roots_ok_stable _ _ _ S1 R2)) as [S2 E2].
    split; [eapply stable_trans; eauto|].
    cbn [leaves]. apply (defaulted_scope_compose st _ _ _ _ s Hc Hs S1 E1 S2 E2).
Qed.

Lemma fold_SetDefault_spec (ps : list DeviceDomain) (st : DeviceDomains) (s : SEScope) :
  config st = cfg -> IsFullyConstrainedScope s = true ->
  forallb (roots_ok st) ps = true ->
  let st' := fold_left (fun st p => SetDefault st p s) ps st in
  stable st st' /\ forall id, leaf_scope st' id = defaulted_scope st (flat_map leaves ps) s id.
Proof.
  apply fold_SetDefault_gen. apply Forall_forall. intros d _. apply SetDefault_spec.
Qed.


Lemma default_leaf_fc (st : DeviceDomains) (l : nat) (s : SEScope) :
  config st = cfg -> IsFullyConstrainedScope s = true ->
  IsFullyConstrainedScope (default_leaf st l s) = true.
Proof.
  intros Hc Hs. unfold default_leaf.
  destruct (IsFullyConstrainedScope (leaf_scope st l)) eqn:F; [exact F|].
  apply defaulted_fc; assumption.
Qed.

Lemma result_then_params_result (st : DeviceDomains) (d : DeviceDomain) (dflt : SEScope) :
  result_then_params_scope st d dflt (result_leaf d) = default_leaf st (result_leaf d) dflt.
Proof.
  unfold result_then_params_scope, default_leaf. rewrite Nat.eqb_refl.
  destruct (IsFullyConstrainedScope (leaf_scope st (result_leaf d))); reflexivity.
Qed.

Lemma SetResultDefaultThenParams_spec (d : DeviceDomain) :
  forall st dflt, config st = cfg -> IsFullyConstrainedScope dflt = true ->
  roots_ok st d = true ->
  stable st (SetResultDefaultThenParams st d dflt)
  /\ forall id, leaf_scope (SetResultDefaultThenParams st d dflt) id
               = result_then_params_scope st d dflt id.
Proof.
  induction d as [l|ps r IH]; intros st dflt Hc Hd Hroots.
  - cbn [SetResultDefaultThenParams].
    destruct (SetDefault_leaf_spec st l dflt Hroots) as [S E].
    split; [exact S|]. intros id. rewrite E.
    unfold defaulted_scope, result_then_params_scope, default_leaf, in_rep.
    cbn [result_leaf leaves existsb]. rewrite orb_false_r.
    destruct (IsFullyConstrainedScope (leaf_scope st id)) eqn:F; [reflexivity|].
    destruct (Nat.eqb_spec (Lookup st id) (Lookup st l)) as [Eq|Ne]; [|reflexivity].
    rewrite <- (leaf_scope_same_rep st id l Eq), F. reflexivity.
  - cbn [SetResultDefaultThenParams].
    rewrite roots_ok_higher in Hroots. apply andb_prop in Hroots as [R1 R2].
    destruct (IH st dflt Hc Hd R2) as [S1 E1].
    set (st1 := SetResultDefaultThenParams st r dflt) in *.
    rewrite ResultSEScope_leaf, E1, result_then_params_result.
    set (R := default_leaf st (result_leaf r) dflt).
    assert (HR : IsFullyConstrainedScope R = true) by (apply default_leaf_fc; assumption).
    assert (Hc1 : config st1 = cfg) by (rewrite (proj1 S1); exact Hc).
    assert (R1' : forallb (roots_ok st1) ps = true).
    { rewrite forallb_forall in R1 |- *. intros q Hq.
      apply (roots_ok_stable st); [exact S1 | apply R1; exact Hq]. }
    destruct (fold_SetDefault_spec ps st1 R Hc1 HR R1') as [S2 E2].
    split; [eapply stable_trans; eauto|]. intros id.
    rewrite E2. unfold defaulted_scope. rewrite E1, (in_rep_stable st st1 _ _ S1), (proj1 S1).
    unfold result_then_params_scope. cbn [result_leaf leaves]. rewrite in_rep_app. fold R.
    destruct (IsFullyConstrainedScope (leaf_scope st id)) eqn:F; [rewrite F; reflexivity|].
    destruct (Nat.eqb (Lookup st id) (Lookup st (result_leaf r))); [rewrite HR; reflexivity|].
    destruct (in_rep st id (leaves r)) eqn:Ir.
    + rewrite orb_true_r, (defaulted_fc st _ _ Hc HR). reflexivity.
    + rewrite orb_false_r, F. reflexivity.
Qed.

End Defaulting.

(** C6: when the Defaulter meets a function, or the callee of a call, it
    applies [DefaultCallee] to its domain (see [DeviceDefaulter.VisitExpr]).
    [DefaultCallee] first defaults the result position to the global default
    scope, then defaults every other position of the domain to that now-fixed
    result scope. Every leaf that is already fully constrained, and every leaf
    outside the domain, keeps its scope. The hypotheses: canonicalisation keeps
    a fully constrained scope fully constrained, the default scope is fully
    constrained, and every leaf of the domain resolves to a union-find root. *)
Theorem DefaultCallee_result_then_params (st : DeviceDomains) (d : DeviceDomain) :
  (forall s, IsFullyConstrainedScope s = true ->
             IsFullyConstrainedScope (CanonicalSEScope (config st) s) = true) ->
  IsFullyConstrainedScope (default_primitive_se_scope (config st)) = true ->
  roots_ok st d = true ->
  let st' := DeviceDefaulter.DefaultCallee st d in
  let dflt := default_primitive_se_scope (config st) in
  ResultSEScope st' d = default_leaf st (result_leaf d) dflt
  /\ (forall id, leaf_scope st' id = result_then_params_scope st d dflt id).
Proof.
  intros Hcanon Hd Hroots st' dflt.
  assert (Hall : forall id, leaf_scope st' id = result_then_params_scope st d dflt id).
  { subst st' dflt. unfold DeviceDefaulter.DefaultCallee.
    destruct (IsFullyConstrained st d) eqn:F; cbn [negb].
    - intros id. pose proof (IsFullyConstrained_leaves st d F) as Hl.
      unfold result_then_params_scope.
      destruct (IsFullyConstrainedScope (leaf_scope st id)) eqn:G; [reflexivity|].
      destruct (Nat.eqb_spec (Lookup st id) (Lookup st (result_leaf d))) as [E|E].
      + rewrite (leaf_scope_same_rep st _ _ E), (Hl _ (result_leaf_in d)) in G.
        discriminate.
      + destruct (in_rep st id (leaves d)) eqn:I; [|reflexivity].
        destruct (in_rep_same st id _ I) as [l [Hin Hs]].
        rewrite Hs, (Hl l Hin) in G. discriminate.
    - apply (SetResultDefaultThenParams_spec (config st) Hcanon d st _ eq_refl Hd Hroots). }
  split; [|exact Hall].
  rewrite ResultSEScope_leaf, Hall. apply result_then_params_result.
Qed.

Lemma DefaultCallee_result_then_params_witness :
  IsFullyConstrained (fst free_fn) (snd free_fn) = false
  /\ (let st' := DeviceDefaulter.DefaultCallee (fst free_fn) (snd free_fn) in
      let dflt := default_primitive_se_scope (config (fst free_fn)) in
      ResultSEScope st' (snd free_fn) = default_leaf (fst free_fn) (result_leaf (snd free_fn)) dflt
      /\ (forall id, leaf_scope st' id
                     = result_then_params_scope (fst free_fn) (snd free_fn) dflt id)).
Proof.
  split; [vm_compute; reflexivity|].
  apply (DefaultCallee_result_then_params (fst free_fn) (snd free_fn)).
  - intros s H. exact H.
  - vm_compute. reflexivity.
  - vm_compute. reflexivity.
Defined.

(** ** The capturer's output *)

Lemma in_list_sum (f : Expr) (fs : list Expr) :
  In f fs -> expr_size f <= list_sum (List.map expr_size fs).
Proof.
  induction fs as [|g fs IH]; simpl; [tauto|]. intros [<-|H]; [lia|]. specialize (IH H). lia.
Qed.

Lemma in_list_sum_snd (c : Pattern * Expr) (cls : list (Pattern * Expr)) :
  In c cls -> expr_size (snd c) <= list_sum (List.map (fun c => expr_size (snd c)) cls).
Proof.
  induction cls as [|g cls IH]; simpl; [tauto|]. intros [<-|H]; [lia|]. specialize (IH H). lia.
Qed.

Lemma Forall_nodes_call (p : Expr -> bool) (op : Expr) (args : list Expr) (a : CallAttrs) :
  Forall_nodes p (CallNode op args a)
  = p (CallNode op args a) && (Forall_nodes p op && forallb (Forall_nodes p) args).
Proof. reflexivity. Qed.

Lemma arity_params (d : DeviceDomain) (k : nat) :
  opt_eqb Nat.eqb (function_arity d) (Some k) = true -> List.length (function_params d) = k.
Proof. destruct d; simpl; [discriminate|]. apply Nat.eqb_eq. Qed.

Section CaptureNodes.

Variable domains : DeviceDomains.
Variables p q : Expr -> bool.

Hypothesis Hleaf : forall e, call_or_function e = false -> p e = true.
Hypothesis Hprim : forall ps b attrs, primitive attrs = true -> p (FunctionNode ps b attrs) = true.
Hypothesis Hfun : forall ps b pss rs, List.length pss = List.length ps ->
  forallb (fun s => negb (IsFullyUnconstrained s)) pss = true ->
  negb (IsFullyUnconstrained rs) = true ->
  p (FunctionNode ps b (MkFuncAttrs false (Some pss) (Some rs))) = true.
Hypothesis Hondev : forall r s, p (OnDevice r s true) = true.
Hypothesis Hcopy : forall r c x, se_scope_eqb c x = false ->
  p (DeviceCopy (MaybeOnDevice r c true) c x) = true.
Hypothesis Hcall : forall op args attrs op' args' s c l,
  Forall_nodes q (CallNode op args attrs) = true ->
  GetOnDeviceProps (CallNode op args attrs) = None ->
  GetDeviceCopyProps (CallNode op args attrs) = None ->
  DeviceCapturer.VisitChild s s c op (DeviceCapturer.VisitExpr domains op l) = Ok op' ->
  List.length args' = List.length args ->
  p (CallNode op' args' attrs) = true.

Lemma MaybeOnDevice_nodes (r : Expr) (s : SEScope) :
  Forall_nodes p r = true -> Forall_nodes p (MaybeOnDevice r s true) = true.
Proof.
  intros H. destruct (is_var r) eqn:V.
  - rewrite MaybeOnDevice_var by exact V. exact H.
  - rewrite MaybeOnDevice_not_var by exact V. unfold OnDevice.
    rewrite Forall_nodes_call. cbn [forallb Forall_nodes].
    pose proof (Hondev r s) as Ho. unfold OnDevice in Ho.
    rewrite H, (Hleaf (OpNode "on_device")), Ho by reflexivity. reflexivity.
Qed.

Lemma VisitChild_nodes (l x c : SEScope) (child : Expr) (visited : Result Expr) (r : Expr) :
  (forall v, visited = Ok v -> Forall_nodes p v = true) ->
  DeviceCapturer.VisitChild l x c child visited = Ok r -> Forall_nodes p r = true.
Proof.
  intros Hvis H. unfold DeviceCapturer.VisitChild in H.
  inv_bind H. inv_bind H.
  assert (Hgen : forall v, visited = Ok v ->
    Forall_nodes p
      (if negb (se_scope_eqb x l)
       then MaybeOnDevice (if negb (se_scope_eqb c x)
                           then DeviceCopy (MaybeOnDevice v c true) c x else v) x true
       else (if negb (se_scope_eqb c x)
             then DeviceCopy (MaybeOnDevice v c true) c x else v)) = true).
  { intros v Hv. specialize (Hvis v Hv).
    assert (Hin : Forall_nodes p (if negb (se_scope_eqb c x)
                                  then DeviceCopy (MaybeOnDevice v c true) c x else v) = true).
    { destruct (se_scope_eqb c x) eqn:E; cbn [negb]; [exact Hvis|].
      pose proof (Hcopy v c x E) as Hc. unfold DeviceCopy in Hc |- *.
      rewrite Forall_nodes_call. cbn [forallb Forall_nodes].
      rewrite Hc, MaybeOnDevice_nodes, (Hleaf (OpNode "device_copy"))
        by (reflexivity || exact Hvis).
      reflexivity. }
    destruct (negb (se_scope_eqb x l)); [apply MaybeOnDevice_nodes|]; exact Hin. }
  destruct child;
    first [ injection H as <-; cbn [Forall_nodes]; rewrite Hleaf by reflexivity; reflexivity
          | inv_bind H; injection H as <-; apply Hgen; assumption ].
Qed.

Lemma VisitChildOf_nodes (parent : Expr) (pl : Loc) (child : Expr) (cl : Loc)
  (visited : Result Expr) (r : Expr) :
  (forall v, visited = Ok v -> Forall_nodes p v = true) ->
  DeviceCapturer.VisitChildOf domains parent pl child cl visited = Ok r ->
  Forall_nodes p r = true.
Proof.
  intros Hvis H. unfold DeviceCapturer.VisitChildOf in H.
  inv_bind H. inv_bind H. exact (VisitChild_nodes _ _ _ _ _ _ Hvis H).
Qed.

Lemma call_generic_nodes (op : Expr) (args : list Expr) (attrs : CallAttrs) (l : Loc)
  (call_se_scope : SEScope) (e' : Expr) :
  Forall_nodes q (CallNode op args attrs) = true ->
  GetOnDeviceProps (CallNode op args attrs) = None ->
  GetDeviceCopyProps (CallNode op args attrs) = None ->
  (forall v, DeviceCapturer.VisitExpr domains op (child l 0) = Ok v -> Forall_nodes p v = true) ->
  (forall a, In a args ->
     forall l' v, DeviceCapturer.VisitExpr domains a l' = Ok v -> Forall_nodes p v = true) ->
  (let* func_domain := DeviceCapturer.CalleeDomain domains (CallNode op args attrs) l in
   let result_se_scope := ResultSEScope domains func_domain in
   let* _ := ICHECK (negb (IsFullyUnconstrained result_se_scope)) "callee result" in
   let* op' := DeviceCapturer.VisitChild call_se_scope call_se_scope result_se_scope op
                 (DeviceCapturer.VisitExpr domains op (child l 0)) in
   let* _ := ICHECK (opt_eqb Nat.eqb (function_arity func_domain)
                             (Some (List.length args))) "call arity" in
   let* args' :=
     (fix go args pds i :=
        match args, pds with
        | a :: args', pd :: pds' =>
            let param_se_scope := ResultSEScope domains pd in
            let* _ := ICHECK (negb (IsFullyUnconstrained param_se_scope)) "param" in
            let* arg_se_scope := DeviceCapturer.GetSEScope domains a (child l i) in
            let* a' := DeviceCapturer.VisitChild call_se_scope param_se_scope arg_se_scope a
                          (DeviceCapturer.VisitExpr domains a (child l i)) in
            let* rest := go args' pds' (S i) in Ok (a' :: rest)
        | _, _ => Ok []
        end) args (function_params func_domain) 1 in
   Ok (CallNode op' args' attrs)) = Ok e' ->
  Forall_nodes p e' = true.
Proof.
  intros Hq Hon Hcp Hop Hargs Hv.
  apply bind_Ok in Hv as [fd [Hfd Hv]].
  apply bind_Ok in Hv as [u1 [Hu1 Hv]].
  apply bind_Ok in Hv as [op' [Hop' Hv]].
  apply bind_Ok in Hv as [u2 [Har Hv]].
  apply ICHECK_Ok, arity_params in Har.
  apply bind_Ok in Hv as [args' [Hargs' Hv]]. injection Hv as <-.
  match type of Hargs' with ?F args (function_params fd) 1 = _ =>
    assert (L : forall xs pds i r, (forall x, In x xs -> In x args) ->
              F xs pds i = Ok r ->
              List.length r = Nat.min (List.length xs) (List.length pds)
              /\ forallb (Forall_nodes p) r = true) end.
  { induction xs as [|x xs IHl]; intros pds i r Hin Hr.
    - injection Hr as <-. split; reflexivity.
    - destruct pds as [|pd pds].
      + injection Hr as <-. split; reflexivity.
      + cbn beta iota in Hr.
        apply bind_Ok in Hr as [u [_ Hr]].
        apply bind_Ok in Hr as [s0 [_ Hr]].
        apply bind_Ok in Hr as [x' [Hx' Hr]].
        apply bind_Ok in Hr as [rest [Hr Hr']]. injection Hr' as <-.
        destruct (IHl pds _ _ (fun y Hy => Hin y (or_intror Hy)) Hr) as [E F].
        split; [cbn [List.length]; rewrite E; reflexivity|].
        cbn [forallb]. rewrite F, andb_true_r.
        eapply VisitChild_nodes; [|exact Hx'].
        apply Hargs, Hin. left; reflexivity. }
  destruct (L args _ 1 args' (fun y Hy => Hy) Hargs') as [Len Hall].
  rewrite Har, Nat.min_id in Len.
  rewrite Forall_nodes_call, Hall, andb_true_r.
  rewrite (Hcall op args attrs op' args' _ _ _ Hq Hon Hcp Hop' Len).
  rewrite (VisitChild_nodes _ _ _ _ _ _ Hop Hop'). reflexivity.
Qed.

Lemma VisitExpr_nodes_lt (n : nat) : forall e l, expr_size e < n ->
  Forall_nodes q e = true ->
  forall e', DeviceCapturer.VisitExpr domains e l = Ok e' -> Forall_nodes p e' = true.
Proof.
  induction n as [|n IH]; intros e l Hs Hq e' Hv; [lia|].
  assert (Child : forall c, expr_size c < expr_size e -> Forall_nodes q c = true ->
            forall l' v, DeviceCapturer.VisitExpr domains c l' = Ok v -> Forall_nodes p v = true)
    by (intros c Hc Hcq l' v; apply IH; [lia | exact Hcq]).
  clear IH.
  pose proof Hq as Hq0.
  destruct e as [x|x|k|o|c|fs|t i|c t f|x v b|ps b attrs|op args attrs|d cls|v|r|r v];
    cbn [DeviceCapturer.VisitExpr] in Hv; cbn [Forall_nodes] in Hq;
    repeat match goal with H : _ && _ = true |- _ => apply andb_prop in H as [? ?] end.
  (* leaves *)
  1-5: injection Hv as <-; cbn [Forall_nodes]; rewrite Hleaf by reflexivity; reflexivity.
  - (* tuple *)
    apply bind_Ok in Hv as [fields [Hf Hv]]. injection Hv as <-.
    match type of Hf with ?F fs 0 = _ =>
      assert (L : forall xs i r, (forall x, In x xs -> In x fs) -> F xs i = Ok r ->
                forallb (Forall_nodes p) r = true) end.
    { induction xs as [|x xs IHl]; intros i r Hin Hr.
      - injection Hr as <-. reflexivity.
      - cbn beta iota in Hr.
        apply bind_Ok in Hr as [x' [Hx' Hr]].
        apply bind_Ok in Hr as [rest [Hr Hr']]. injection Hr' as <-.
        cbn [forallb].
        rewrite (IHl _ rest (fun y Hy => Hin y (or_intror Hy)) Hr), andb_true_r.
        eapply VisitChildOf_nodes; [|exact Hx'].
        assert (Hx : In x fs) by (apply Hin; left; reflexivity).
        apply Child.
        + cbn [expr_size]. pose proof (in_list_sum x fs Hx). lia.
        + assert (Hqfs : forallb (Forall_nodes q) fs = true) by assumption.
          rewrite forallb_forall in Hqfs. apply Hqfs, Hx. }
    cbn [Forall_nodes]. rewrite (L fs 0 fields (fun y Hy => Hy) Hf), Hleaf by reflexivity.
    reflexivity.
  - (* tuple projection *)
    apply bind_Ok in Hv as [t' [Ht Hv]]. injection Hv as <-.
    cbn [Forall_nodes]. rewrite Hleaf by reflexivity.
    eapply VisitChildOf_nodes; [|exact Ht]. apply Child; [cbn [expr_size]; lia | assumption].
  - (* if *)
    apply bind_Ok in Hv as [c' [Hc Hv]].
    apply bind_Ok in Hv as [t' [Ht Hv]].
    apply bind_Ok in Hv as [f' [Hf Hv]]. injection Hv as <-.
    cbn [Forall_nodes]. rewrite Hleaf by reflexivity.
    rewrite (VisitChildOf_nodes _ _ _ _ _ _
               (Child c ltac:(cbn [expr_size]; lia) ltac:(assumption) _) Hc).
    rewrite (VisitChildOf_nodes _ _ _ _ _ _
               (Child t ltac:(cbn [expr_size]; lia) ltac:(assumption) _) Ht).
    rewrite (VisitChildOf_nodes _ _ _ _ _ _
               (Child f ltac:(cbn [expr_size]; lia) ltac:(assumption) _) Hf).
    reflexivity.
  - (* let *)
    apply bind_Ok in Hv as [let_s [_ Hv]].
    apply bind_Ok in Hv as [var_s [_ Hv]].
    apply bind_Ok in Hv as [val_s [_ Hv]].
    apply bind_Ok in Hv as [v' [Hv' Hv]].
    apply bind_Ok in Hv as [b' [Hb' Hv]]. injection Hv as <-.
    cbn [Forall_nodes]. rewrite Hleaf by reflexivity.
    rewrite (VisitChild_nodes _ _ _ _ _ _
               (Child v ltac:(cbn [expr_size]; lia) ltac:(assumption) _) Hv').
    assert (Hbs : expr_size b < expr_size (LetNode x v b)) by (cbn [expr_size]; lia).
    assert (Hbq : Forall_nodes q b = true) by assumption.
    match type of Hb' with ?F b _ = _ =>
      assert (L : forall cur cl, expr_size cur < expr_size (LetNode x v b) ->
                Forall_nodes q cur = true ->
                forall r, F cur cl = Ok r -> Forall_nodes p r = true) end.
    { induction cur as [| | | | | | | | x' v1 IHv1 b1 IHb1 | | | | | |];
        intros cl Hcs Hcq r Hr; cbn beta iota in Hr;
        try (apply bind_Ok in Hr as [s0 [_ Hr]];
             eapply VisitChild_nodes; [|exact Hr]; exact (Child _ Hcs Hcq _)).
      apply bind_Ok in Hr as [s0 [_ Hr]].
      destruct (se_scope_eqb s0 let_s).
      - apply bind_Ok in Hr as [s1 [_ Hr]].
        apply bind_Ok in Hr as [s2 [_ Hr]].
        apply bind_Ok in Hr as [v1' [Hv1 Hr]].
        apply bind_Ok in Hr as [b1' [Hb1 Hr]]. injection Hr as <-.
        cbn [Forall_nodes] in Hcq |- *. apply andb_prop in Hcq as [_ Hcq].
        apply andb_prop in Hcq as [Hq1 Hq2].
        cbn [expr_size] in Hcs.
        rewrite Hleaf by reflexivity.
        rewrite (VisitChild_nodes _ _ _ _ _ _
                   (Child v1 ltac:(cbn [expr_size]; lia) Hq1 _) Hv1).
        rewrite (IHb1 _ ltac:(cbn [expr_size]; lia) Hq2 _ Hb1). reflexivity.
      - eapply VisitChild_nodes; [|exact Hr]. exact (Child _ Hcs Hcq _). }
    exact (L b _ Hbs Hbq b' Hb').
  - (* function *)
    destruct (primitive attrs) eqn:Pr.
    + injection Hv as <-. cbn [Forall_nodes]. rewrite Hprim, Pr by exact Pr. reflexivity.
    + apply bind_Ok in Hv as [fd [_ Hv]].
      apply bind_Ok in Hv as [u [Har Hv]]. apply ICHECK_Ok, arity_params in Har.
      apply bind_Ok in Hv as [u' [Hu' Hv]]. apply ICHECK_Ok in Hu'.
      apply bind_Ok in Hv as [pss [Hpss Hv]].
      apply bind_Ok in Hv as [bs [_ Hv]].
      apply bind_Ok in Hv as [b' [Hb' Hv]]. injection Hv as <-.
      match type of Hpss with ?F (function_params fd) = _ =>
        assert (L : forall xs r, F xs = Ok r -> List.length r = List.length xs
                  /\ forallb (fun s => negb (IsFullyUnconstrained s)) r = true) end.
      { induction xs as [|d xs IHl]; intros r Hr; cbn beta iota in Hr.
        - injection Hr as <-. split; reflexivity.
        - apply bind_Ok in Hr as [u1 [Hu1 Hr]]. apply ICHECK_Ok in Hu1.
          apply bind_Ok in Hr as [rest [Hr Hr']]. injection Hr' as <-.
          destruct (IHl _ Hr) as [E F].
          cbn [List.length forallb]. rewrite E, F, Hu1. split; reflexivity. }
      destruct (L _ _ Hpss) as [L1 L2].
      cbn [FunctionOnDevice Forall_nodes]. rewrite Pr.
      rewrite Hfun by first [rewrite L1; exact Har | exact L2 | exact Hu']. cbn [andb orb].
      eapply VisitChild_nodes; [|exact Hb'].
      apply Child; [cbn [expr_size]; lia|].
      match goal with H : context [Forall_nodes q b] |- _ => exact H end.
  - (* call *)
    assert (Hop : forall v, DeviceCapturer.VisitExpr domains op (child l 0) = Ok v ->
                  Forall_nodes p v = true)
      by (apply Child; [cbn [expr_size]; lia | assumption]).
    assert (Hargs : forall a, In a args -> forall l' v,
              DeviceCapturer.VisitExpr domains a l' = Ok v -> Forall_nodes p v = true).
    { intros a Ha. assert (Hqa : forallb (Forall_nodes q) args = true) by assumption.
      rewrite forallb_forall in Hqa.
      apply Child; [|exact (Hqa a Ha)].
      pose proof (in_list_sum a args Ha). cbn [expr_size]. lia. }
    apply bind_Ok in Hv as [call_s [_ Hv]].
    destruct args as [|a [|a2 rest]].
    + apply (call_generic_nodes op [] attrs l call_s e' Hq0);
        [destruct op; reflexivity | destruct op; reflexivity | exact Hop | exact Hargs | exact Hv].
    + destruct (GetOnDeviceProps (CallNode op [a] attrs)) as [[[body s0] f0]|] eqn:On.
      * exact (Hargs a (or_introl eq_refl) _ e' Hv).
      * destruct (GetDeviceCopyProps (CallNode op [a] attrs)) as [[[body src] dst]|] eqn:Cp.
        -- apply bind_Ok in Hv as [u [_ Hv]].
           destruct (se_scope_eqb _ _).
           ++ exact (Hargs a (or_introl eq_refl) _ e' Hv).
           ++ eapply VisitChild_nodes; [|exact Hv]. exact (Hargs a (or_introl eq_refl) _).
        -- exact (call_generic_nodes op [a] attrs l call_s e' Hq0 On Cp Hop Hargs Hv).
    + apply (call_generic_nodes op (a :: a2 :: rest) attrs l call_s e' Hq0);
        [destruct op; reflexivity | destruct op; reflexivity | exact Hop | exact Hargs | exact Hv].
  - (* match *)
    apply bind_Ok in Hv as [d' [Hd Hv]].
    apply bind_Ok in Hv as [cls' [Hcls Hv]]. injection Hv as <-.
    assert (Hqcls : forallb (fun c => Forall_nodes q (snd c)) cls = true) by assumption.
    rewrite forallb_forall in Hqcls.
    match type of Hcls with ?F cls 1 = _ =>
      assert (L : forall xs i r, (forall c, In c xs -> In c cls) -> F xs i = Ok r ->
                forallb (fun c => Forall_nodes p (snd c)) r = true) end.
    { induction xs as [|[lhs rhs] xs IHl]; intros i r Hin Hr; cbn beta iota in Hr.
      - injection Hr as <-. reflexivity.
      - apply bind_Ok in Hr as [rhs' [Hrhs Hr]].
        apply bind_Ok in Hr as [rest [Hr Hr']]. injection Hr' as <-.
        cbn [forallb snd].
        rewrite (IHl _ rest (fun y Hy => Hin y (or_intror Hy)) Hr), andb_true_r.
        assert (Hc : In (lhs, rhs) cls) by (apply Hin; left; reflexivity).
        eapply VisitChildOf_nodes; [|exact Hrhs].
        apply Child; [|exact (Hqcls _ Hc)].
        pose proof (in_list_sum_snd _ cls Hc). cbn [expr_size snd] in *. lia. }
    cbn [Forall_nodes]. rewrite Hleaf by reflexivity.
    rewrite (L cls 1 cls' (fun y Hy => Hy) Hcls), andb_true_r.
    eapply VisitChildOf_nodes; [|exact Hd]. apply Child; [cbn [expr_size]; lia | assumption].
  - (* ref create *)
    apply bind_Ok in Hv as [v' [Hv' Hv]]. injection Hv as <-.
    cbn [Forall_nodes]. rewrite Hleaf by reflexivity.
    eapply VisitChildOf_nodes; [|exact Hv']. apply Child; [cbn [expr_size]; lia | assumption].
  - (* ref read *)
    apply bind_Ok in Hv as [r' [Hr' Hv]]. injection Hv as <-.
    cbn [Forall_nodes]. rewrite Hleaf by reflexivity.
    eapply VisitChildOf_nodes; [|exact Hr']. apply Child; [cbn [expr_size]; lia | assumption].
  - (* ref write *)
    apply bind_Ok in Hv as [r' [Hr' Hv]].
    apply bind_Ok in Hv as [v' [Hv' Hv]]. injection Hv as <-.
    cbn [Forall_nodes]. rewrite Hleaf by reflexivity.
    rewrite (VisitChildOf_nodes _ _ _ _ _ _
               (Child r ltac:(cbn [expr_size]; lia) ltac:(assumption) _) Hr').
    rewrite (VisitChildOf_nodes _ _ _ _ _ _
               (Child v ltac:(cbn [expr_size]; lia) ltac:(assumption) _) Hv').
    reflexivity.
Qed.

Lemma VisitExpr_nodes (e : Expr) (l : Loc) (e' : Expr) :
  Forall_nodes q e = true -> DeviceCapturer.VisitExpr domains e l = Ok e' ->
  Forall_nodes p e' = true.
Proof. intros Hq Hv. exact (VisitExpr_nodes_lt (S (expr_size e)) e l ltac:(lia) Hq e' Hv). Qed.

Lemma Capture_nodes_gen (mod_ mod' : IRModule) :
  DeviceCapturer.Capture domains mod_ = Ok mod' ->
  module_ok q mod_ = true -> module_ok p mod' = true.
Proof.
  intros H Hq. apply Capture_inv in H as [H _]. unfold module_ok in *.
  revert Hq. induction H as [|gf gf' fns fns' [_ Hv] _ IHF]; [reflexivity|].
  cbn [forallb]. intros Hq. apply andb_prop in Hq as [Hq1 Hq2].
  rewrite (VisitExpr_nodes _ _ _ Hq1 Hv), (IHF Hq2). reflexivity.
Qed.

End CaptureNodes.

(** [Capture_nodes_gen] for a property of functions that does not look at
    the scopes recorded in their attributes. *)
Lemma Capture_nodes (domains : DeviceDomains) (p q : Expr -> bool)
  (Hleaf : forall e, call_or_function e = false -> p e = true)
  (Hprim : forall ps b attrs, primitive attrs = true -> p (FunctionNode ps b attrs) = true)
  (Hfun : forall ps b pss rs, List.length pss = List.length ps ->
     p (FunctionNode ps b (MkFuncAttrs false (Some pss) (Some rs))) = true)
  (Hondev : forall r s, p (OnDevice r s true) = true)
  (Hcopy : forall r c x, se_scope_eqb c x = false ->
     p (DeviceCopy (MaybeOnDevice r c true) c x) = true)
  (Hcall : forall op args attrs op' args' s c l,
     Forall_nodes q (CallNode op args attrs) = true ->
     GetOnDeviceProps (CallNode op args attrs) = None ->
     GetDeviceCopyProps (CallNode op args attrs) = None ->
     DeviceCapturer.VisitChild s s c op (DeviceCapturer.VisitExpr domains op l) = Ok op' ->
     List.length args' = List.length args ->
     p (CallNode op' args' attrs) = true)
  (mod_ mod' : IRModule) :
  DeviceCapturer.Capture domains mod_ = Ok mod' ->
  module_ok q mod_ = true -> module_ok p mod' = true.
Proof.
  apply (Capture_nodes_gen domains p q); auto.
Qed.


Lemma Forall_nodes_true_lt (n : nat) :
  forall e, expr_size e < n -> Forall_nodes (fun _ => true) e = true.
Proof.
  induction n as [|n IH]; intros e Hs; [lia|].
  assert (Child : forall c, expr_size c < expr_size e -> Forall_nodes (fun _ => true) c = true)
    by (intros c Hc; apply IH; lia).
  clear IH.
  assert (Hl : forall fs, (forall f, In f fs -> expr_size f < expr_size e) ->
             forallb (Forall_nodes (fun _ => true)) fs = true).
  { intros fs Hfs. apply forallb_forall. intros f Hf. apply Child, Hfs, Hf. }
  destruct e; cbn [Forall_nodes andb]; rewrite ?Child, ?Hl, ?orb_true_r; try reflexivity;
    try (cbn [expr_size]; lia);
    try (intros f Hf; pose proof (in_list_sum f _ Hf); cbn [expr_size]; lia).
  apply forallb_forall. intros c Hc. apply Child.
  pose proof (in_list_sum_snd c _ Hc). cbn [expr_size]. lia.
Qed.

Lemma Forall_nodes_true (e : Expr) : Forall_nodes (fun _ => true) e = true.
Proof. apply (Forall_nodes_true_lt (S (expr_size e))). lia. Qed.

(** C1 (amended): in every module the planner produces, every function
    outside the bodies of primitive functions, top-level or local, is
    primitive or carries "param_se_scopes" with one scope per parameter and
    "result_se_scope". Primitive functions are returned unchanged, without
    these attributes (see [primitive_function_unattributed]). *)
Theorem PlanDevices_functions_attributed (cfg : CompilationConfig) (checked_type : Expr -> Ty)
  (mod_ mod' : IRModule) :
  PlanDevices cfg checked_type mod_ = Ok mod' -> module_ok has_se_scope_attrs mod' = true.
Proof.
  unfold PlanDevices, PlanDevicesCore. intros H.
  apply bind_Ok in H as [st1 [_ H]]. apply bind_Ok in H as [st2 [_ H]].
  apply (Capture_nodes st2 has_se_scope_attrs (fun _ => true)) in H.
  - exact H.
  - intros e He. destruct e; try discriminate; reflexivity.
  - intros ps b attrs Hp. cbn. rewrite Hp. reflexivity.
  - intros ps b pss rs Hl. cbn. apply Nat.eqb_eq, Hl.
  - reflexivity.
  - reflexivity.
  - reflexivity.
  - unfold module_ok. apply forallb_forall. intros gf _. apply Forall_nodes_true.
Qed.


Lemma VisitExpr_op_lt (domains : DeviceDomains) (n : nat) : forall e l o,
  expr_size e < n -> Forall_nodes no_annotated_op e = true ->
  DeviceCapturer.VisitExpr domains e l = Ok (OpNode o) -> e = OpNode o.
Proof.
  induction n as [|n IH]; intros e l o Hs Hq Hv; [lia|].
  destruct e as [x|x|k|o'|c|fs|t i|c t f|x v b|ps b attrs|op args attrs|d cls|v|r|r v];
    cbn [DeviceCapturer.VisitExpr] in Hv; cbn [Forall_nodes] in Hq;
    apply andb_prop in Hq as [Hqe Hq];
    try (injection Hv as <-; reflexivity);
    try (repeat (apply bind_Ok in Hv as [? [? Hv]]; cbv beta zeta in Hv); discriminate).
  - (* function *)
    destruct (primitive attrs); [discriminate|].
    repeat (apply bind_Ok in Hv as [? [? Hv]]; cbv beta zeta in Hv). discriminate.
  - (* call *)
    apply andb_prop in Hq as [_ Hqa].
    apply bind_Ok in Hv as [call_s [_ Hv]].
    destruct args as [|a [|a2 rest]];
      try (repeat (apply bind_Ok in Hv as [? [? Hv]]; cbv beta zeta in Hv); discriminate).
    cbn [forallb] in Hqa. rewrite andb_true_r in Hqa.
    assert (Ha : forall l' o', DeviceCapturer.VisitExpr domains a l' = Ok (OpNode o') ->
                               a = OpNode o')
      by (intros l' o' H; apply (IH a l' o'); [simpl in Hs; lia | exact Hqa | exact H]).
    unfold no_annotated_op, annotates_op in Hqe.
    destruct (GetOnDeviceProps (CallNode op [a] attrs)) as [[[body s0] f0]|] eqn:On.
    + apply Ha in Hv. subst a.
      exfalso. destruct op; try discriminate. destruct attrs; try discriminate.
      cbn in On. destruct (String.eqb _ _); [|discriminate]. injection On as <- <- <-.
      discriminate.
    + destruct (GetDeviceCopyProps (CallNode op [a] attrs)) as [[[body src] dst]|] eqn:Cp.
      * assert (body = a) as ->.
        { destruct op; try discriminate. destruct attrs; try discriminate.
          cbn in Cp. destruct (String.eqb _ _); [|discriminate]. injection Cp as <- _ _.
          reflexivity. }
        apply bind_Ok in Hv as [u [_ Hv]].
        destruct (se_scope_eqb _ _) eqn:E.
        -- apply Ha in Hv. subst a. discriminate.
        -- exfalso. unfold DeviceCapturer.VisitChild in Hv.
           apply bind_Ok in Hv as [? [_ Hv]]. apply bind_Ok in Hv as [? [_ Hv]].
           destruct a; try discriminate;
             apply bind_Ok in Hv as [? [_ Hv]]; rewrite E in Hv; cbn [negb] in Hv;
             rewrite se_scope_eqb_refl in Hv; discriminate.
      * repeat (apply bind_Ok in Hv as [? [? Hv]]; cbv beta zeta in Hv). discriminate.
Qed.

Lemma VisitChild_op (domains : DeviceDomains) (s c : SEScope) (op : Expr) (l : Loc)
  (o : string) :
  Forall_nodes no_annotated_op op = true ->
  DeviceCapturer.VisitChild s s c op (DeviceCapturer.VisitExpr domains op l) = Ok (OpNode o) ->
  op = OpNode o.
Proof.
  intros Hq Hv. unfold DeviceCapturer.VisitChild in Hv.
  apply bind_Ok in Hv as [? [_ Hv]]. apply bind_Ok in Hv as [? [_ Hv]].
  rewrite se_scope_eqb_refl in Hv. cbn [negb] in Hv.
  pose proof (VisitExpr_op_lt domains (S (expr_size op)) op l o (Nat.lt_succ_diag_r _) Hq)
    as Gen.
  destruct op; try (injection Hv as <-; reflexivity); try discriminate;
    apply bind_Ok in Hv as [v [Hvis Hv]];
    destruct (se_scope_eqb c s); cbn [negb] in Hv; try discriminate;
    injection Hv as ->;
    exact (Gen Hvis).
Qed.


Lemma forallb_map_ {A B} (f : B -> bool) (g : A -> B) (l : list A) :
  forallb f (List.map g l) = forallb (fun x => f (g x)) l.
Proof. induction l as [|x l IH]; simpl; [reflexivity|]. rewrite IH. reflexivity. Qed.

Lemma Rewrite_op_name (e : Expr) : op_name (RewriteOnDevices.VisitExpr e) = op_name e.
Proof.
  destruct e; cbn [RewriteOnDevices.VisitExpr]; try reflexivity.
  destruct (GetOnDeviceProps _) as [[[? ?] [|]]|]; reflexivity.
Qed.

Lemma annotates_op_nonop (op : Expr) (args : list Expr) (attrs : CallAttrs) :
  op_name op = None -> annotates_op (CallNode op args attrs) = false.
Proof.
  intros H. destruct op; try discriminate; destruct args as [|a [|]]; destruct attrs; reflexivity.
Qed.

Lemma op_name_Some (e : Expr) (n : string) : op_name e = Some n -> e = OpNode n.
Proof. destruct e; try discriminate. cbn. congruence. Qed.

Lemma annotates_op_congr (op op' : Expr) (args args' : list Expr) (attrs : CallAttrs) :
  op_name op = op_name op' -> List.map op_name args = List.map op_name args' ->
  annotates_op (CallNode op args attrs) = annotates_op (CallNode op' args' attrs).
Proof.
  intros Ho Ha.
  destruct (op_name op) as [n|] eqn:E.
  2:{ rewrite !annotates_op_nonop; auto. }
  apply op_name_Some in E. symmetry in Ho. apply op_name_Some in Ho. subst op op'.
  destruct args as [|a [|a2 r]]; destruct args' as [|a' [|a2' r']]; cbn in Ha;
    try discriminate; try reflexivity.
  injection Ha as Ha.
  destruct attrs; try reflexivity;
    destruct a; destruct a'; cbn in Ha; try discriminate; try reflexivity;
    try (injection Ha as <-); unfold annotates_op, GetOnDeviceProps, GetDeviceCopyProps;
    repeat match goal with |- context [String.eqb ?x ?y] => destruct (String.eqb x y) end;
    reflexivity.
Qed.

Lemma OnDevice_refix (x body : Expr) (s : SEScope) (f f' : bool) :
  GetOnDeviceProps x = Some (body, s, f) -> Forall_nodes no_annotated_op x = true ->
  Forall_nodes no_annotated_op (OnDevice body s f') = true.
Proof.
  intros H Hx.
  destruct x as [| | | | | | | | | |op args attrs| | | |]; try discriminate.
  destruct op; try discriminate. destruct args as [|b [|]]; try discriminate.
  destruct attrs; try discriminate. cbn in H.
  destruct (String.eqb_spec name "on_device") as [->|]; [|discriminate].
  injection H as <- <- <-. exact Hx.
Qed.

Lemma Rewrite_nodes_lt (n : nat) : forall e, expr_size e < n ->
  Forall_nodes no_annotated_op e = true ->
  Forall_nodes no_annotated_op (RewriteOnDevices.VisitExpr e) = true.
Proof.
  induction n as [|n IH]; intros e Hs Hq; [lia|].
  assert (Child : forall c, expr_size c < expr_size e -> Forall_nodes no_annotated_op c = true ->
            Forall_nodes no_annotated_op (RewriteOnDevices.VisitExpr c) = true)
    by (intros c Hc; apply IH; lia).
  clear IH.
  pose proof Hq as Hq0.
  destruct e as [x|x|k|o|c|fs|t i|c t f|x v b|ps b attrs|op args attrs|d cls|v|r|r v];
    cbn [RewriteOnDevices.VisitExpr]; cbn [Forall_nodes] in Hq;
    repeat match goal with H : _ && _ = true |- _ => apply andb_prop in H as [? ?] end;
    try exact Hq0.
  - (* tuple *)
    cbn [Forall_nodes]. rewrite forallb_map_. apply forallb_forall. intros f Hf.
    apply Child.
    + pose proof (in_list_sum f fs Hf). cbn [expr_size]. lia.
    + assert (Hqfs : forallb (Forall_nodes no_annotated_op) fs = true) by assumption.
      rewrite forallb_forall in Hqfs. apply Hqfs, Hf.
  - (* tuple projection *)
    assert (Ht : Forall_nodes no_annotated_op (RewriteOnDevices.VisitExpr t) = true)
      by (apply Child; [cbn [expr_size]; lia | assumption]).
    destruct (GetOnDeviceProps (RewriteOnDevices.VisitExpr t)) as [[[? ?] [|]]|];
      unfold OnDevice; cbn [Forall_nodes forallb]; rewrite Ht; reflexivity.
  - (* if *)
    cbn [Forall_nodes]. rewrite !Child by (cbn [expr_size]; lia || assumption). reflexivity.
  - (* let *)
    assert (Hv : Forall_nodes no_annotated_op (RewriteOnDevices.VisitExpr v) = true)
      by (apply Child; [cbn [expr_size]; lia | assumption]).
    cbn [Forall_nodes]. rewrite Child by (cbn [expr_size]; lia || assumption).
    destruct (GetOnDeviceProps (RewriteOnDevices.VisitExpr v)) as [[[body s] [|]]|] eqn:On;
      rewrite ?Hv; [reflexivity| |reflexivity].
    rewrite (OnDevice_refix _ _ _ _ true On Hv). reflexivity.
  - (* function *)
    cbn [Forall_nodes]. destruct (primitive attrs) eqn:Pr; [reflexivity|]. cbn [orb].
    assert (Hb : Forall_nodes no_annotated_op (RewriteOnDevices.VisitExpr b) = true).
    { apply Child; [cbn [expr_size]; lia|].
      match goal with H : context [Forall_nodes no_annotated_op b] |- _ => exact H end. }
    destruct (GetOnDeviceProps (RewriteOnDevices.VisitExpr b)) as [[[body s] [|]]|] eqn:On;
      rewrite ?Hb; [reflexivity| |reflexivity].
    rewrite (OnDevice_refix _ _ _ _ true On Hb). reflexivity.
  - (* call *)
    cbn [Forall_nodes].
    assert (Hqa : forallb (Forall_nodes no_annotated_op) args = true) by assumption.
    rewrite forallb_forall in Hqa.
    rewrite Child by (cbn [expr_size]; lia || assumption).
    rewrite forallb_map_.
    replace (forallb _ args) with true.
    2:{ symmetry. apply forallb_forall. intros a Ha. apply Child; [|exact (Hqa a Ha)].
        pose proof (in_list_sum a args Ha). cbn [expr_size]. lia. }
    unfold no_annotated_op at 1.
    rewrite (annotates_op_congr _ op _ args).
    + assert (He : no_annotated_op (CallNode op args attrs) = true) by assumption.
      unfold no_annotated_op in He. rewrite He. reflexivity.
    + apply Rewrite_op_name.
    + rewrite map_map. apply map_ext. apply Rewrite_op_name.
  - (* match *)
    cbn [Forall_nodes]. rewrite Child by (cbn [expr_size]; lia || assumption).
    rewrite forallb_map_. apply forallb_forall. intros c Hc. cbn [snd].
    assert (Hqc : forallb (fun c => Forall_nodes no_annotated_op (snd c)) cls = true)
      by assumption.
    rewrite forallb_forall in Hqc.
    apply Child; [|exact (Hqc c Hc)].
    pose proof (in_list_sum_snd c cls Hc). cbn [expr_size]. lia.
  - (* ref create *)
    cbn [Forall_nodes]. rewrite Child by (cbn [expr_size]; lia || assumption). reflexivity.
  - (* ref read *)
    cbn [Forall_nodes]. rewrite Child by (cbn [expr_size]; lia || assumption). reflexivity.
  - (* ref write *)
    cbn [Forall_nodes]. rewrite !Child by (cbn [expr_size]; lia || assumption). reflexivity.
Qed.

Lemma Rewrite_nodes (mod_ : IRModule) :
  module_ok no_annotated_op mod_ = true -> module_ok no_annotated_op (Rewrite mod_) = true.
Proof.
  unfold module_ok, Rewrite. cbn [functions]. rewrite forallb_map_.
  rewrite !forallb_forall. intros H [gv f] Hin. cbn [snd].
  apply (Rewrite_nodes_lt (S (expr_size f))); [lia|]. exact (H _ Hin).
Qed.


Lemma PlanDevices_functions_attributed_witness :
  PlanDevices ex_config (tensor_types [("main", 2)]) copy_module = Ok copy_module_planned
  /\ module_ok has_se_scope_attrs copy_module_planned = true.
Proof.
  assert (H : PlanDevices ex_config (tensor_types [("main", 2)]) copy_module
              = Ok copy_module_planned) by (vm_compute; reflexivity).
  split; [exact H|]. exact (PlanDevices_functions_attributed _ _ _ _ H).
Defined.


(** ** Phase 0: its fixed points, and what it leaves behind *)

Lemma map_fixed {A} (f : A -> A) (l : list A) :
  (forall x, In x l -> f x = x) -> List.map f l = l.
Proof.
  induction l as [|x l IH]; intros H; [reflexivity|]. cbn [List.map].
  rewrite H, IH; [reflexivity| |left; reflexivity]. intros y Hy. apply H. right. exact Hy.
Qed.

Lemma GetOnDeviceProps_inv (x body : Expr) (s : SEScope) (f : bool) :
  GetOnDeviceProps x = Some (body, s, f) -> x = OnDevice body s f.
Proof.
  intros H.
  destruct x as [| | | | | | | | | |op args attrs| | | |]; try discriminate.
  destruct op; try discriminate. destruct args as [|b [|]]; try discriminate.
  destruct attrs; try discriminate. cbn in H.
  destruct (String.eqb_spec name "on_device") as [->|]; [|discriminate].
  injection H as <- <- <-. reflexivity.
Qed.

Lemma All_nodes_OnDevice (p : Expr -> bool) (body : Expr) (s : SEScope) (f : bool) :
  All_nodes p (OnDevice body s f)
  = p (OnDevice body s f) && (p (OpNode "on_device") && All_nodes p body).
Proof. unfold OnDevice. cbn [All_nodes forallb]. rewrite !andb_true_r. reflexivity. Qed.

Lemma All_nodes_body (p : Expr -> bool) (x body : Expr) (s : SEScope) (f : bool) :
  GetOnDeviceProps x = Some (body, s, f) -> All_nodes p x = true -> All_nodes p body = true.
Proof.
  intros H. apply GetOnDeviceProps_inv in H. subst x. rewrite All_nodes_OnDevice.
  intros H. apply andb_prop in H as [_ H]. apply andb_prop in H as [_ H]. exact H.
Qed.

Lemma GetOnDeviceProps_nonop (op : Expr) (args : list Expr) (attrs : CallAttrs) :
  op_name op = None -> GetOnDeviceProps (CallNode op args attrs) = None.
Proof. destruct op; try discriminate; reflexivity. Qed.

Lemma unfixed_call_Rewrite (op : Expr) (args : list Expr) (attrs : CallAttrs) :
  unfixed_on_device (CallNode (RewriteOnDevices.VisitExpr op)
                       (List.map RewriteOnDevices.VisitExpr args) attrs)
  = unfixed_on_device (CallNode op args attrs).
Proof.
  destruct (op_name op) as [n|] eqn:E.
  - apply op_name_Some in E. subst op. cbn [RewriteOnDevices.VisitExpr].
    destruct args as [|a [|a2 r]]; try reflexivity.
    destruct attrs; try reflexivity.
    unfold unfixed_on_device. cbn. destruct (String.eqb n "on_device"); reflexivity.
  - unfold unfixed_on_device.
    rewrite (GetOnDeviceProps_nonop op) by exact E.
    rewrite (GetOnDeviceProps_nonop (RewriteOnDevices.VisitExpr op))
      by (rewrite Rewrite_op_name; exact E).
    reflexivity.
Qed.

Lemma unfixed_Rewrite (e : Expr) :
  All_nodes (fun x => negb (projects_unfixed x)) e = true ->
  unfixed_on_device (RewriteOnDevices.VisitExpr e) = unfixed_on_device e.
Proof.
  induction e as [| | | | | |t IHt i| | | |op IHop args attrs| | | |]; intros H;
    try reflexivity.
  - (* tuple projection *)
    cbn [All_nodes projects_unfixed] in H. apply andb_prop in H as [H1 H2].
    apply negb_true_iff in H1. specialize (IHt H2). rewrite H1 in IHt.
    cbn [RewriteOnDevices.VisitExpr].
    destruct (GetOnDeviceProps (RewriteOnDevices.VisitExpr t)) as [[[b s] [|]]|] eqn:E;
      try reflexivity.
    unfold unfixed_on_device in IHt. rewrite E in IHt. discriminate.
  - (* call *)
    cbn [RewriteOnDevices.VisitExpr]. apply unfixed_call_Rewrite.
Qed.

Ltac split_andb :=
  repeat match goal with H : _ && _ = true |- _ => apply andb_prop in H as [? ?] end.

Lemma Rewrite_id_lt (n : nat) : forall e, expr_size e < n ->
  All_nodes (fun x => negb (rewrite_site x)) e = true -> RewriteOnDevices.VisitExpr e = e.
Proof.
  induction n as [|n IH]; intros e Hs Hq; [lia|].
  assert (Child : forall c, expr_size c < expr_size e ->
            All_nodes (fun x => negb (rewrite_site x)) c = true ->
            RewriteOnDevices.VisitExpr c = c)
    by (intros c Hc; apply IH; lia).
  clear IH.
  destruct e as [x|x|k|o|c|fs|t i|c t f|x v b|ps b attrs|op args attrs|d cls|v|r|r v];
    cbn [RewriteOnDevices.VisitExpr]; cbn [All_nodes] in Hq;
    apply andb_prop in Hq as [Hn Hq]; split_andb; try reflexivity.
  - (* tuple *)
    f_equal. apply map_fixed. intros f Hf. apply Child.
    + pose proof (in_list_sum f fs Hf). cbn [expr_size]. lia.
    + rewrite forallb_forall in Hq. apply Hq, Hf.
  - (* tuple projection *)
    rewrite (Child t) by (cbn [expr_size]; lia || assumption).
    unfold rewrite_site, projects_unfixed, unfixed_on_device in Hn.
    destruct (GetOnDeviceProps t) as [[[? ?] [|]]|]; [reflexivity|discriminate|reflexivity].
  - (* if *)
    rewrite !Child by (cbn [expr_size]; lia || assumption). reflexivity.
  - (* let *)
    rewrite !Child by (cbn [expr_size]; lia || assumption).
    unfold rewrite_site, binds_unfixed, unfixed_on_device in Hn. cbn [orb projects_unfixed] in Hn.
    destruct (GetOnDeviceProps v) as [[[? ?] [|]]|]; [reflexivity|discriminate|reflexivity].
  - (* function *)
    rewrite !Child by (cbn [expr_size]; lia || assumption).
    unfold rewrite_site, binds_unfixed, unfixed_on_device in Hn. cbn [orb projects_unfixed] in Hn.
    destruct (GetOnDeviceProps b) as [[[? ?] [|]]|]; [reflexivity|discriminate|reflexivity].
  - (* call *)
    rewrite (Child op) by (cbn [expr_size]; lia || assumption). f_equal.
    apply map_fixed. intros a Ha. apply Child.
    + pose proof (in_list_sum a args Ha). cbn [expr_size]. lia.
    + assert (Hqa : forallb (All_nodes (fun x => negb (rewrite_site x))) args = true)
        by assumption.
      rewrite forallb_forall in Hqa. apply Hqa, Ha.
  - (* match *)
    rewrite (Child d) by (cbn [expr_size]; lia || assumption). f_equal.
    apply map_fixed. intros [lhs rhs] Hc. cbn [fst snd]. rewrite Child; [reflexivity| |].
    + pose proof (in_list_sum_snd _ cls Hc). cbn [expr_size snd] in *. lia.
    + assert (Hqc : forallb (fun c => All_nodes (fun x => negb (rewrite_site x)) (snd c)) cls
                    = true) by assumption.
      rewrite forallb_forall in Hqc. exact (Hqc _ Hc).
  - (* ref create *)
    rewrite Child by (cbn [expr_size]; lia || assumption). reflexivity.
  - (* ref read *)
    rewrite Child by (cbn [expr_size]; lia || assumption). reflexivity.
  - (* ref write *)
    rewrite !Child by (cbn [expr_size]; lia || assumption). reflexivity.
Qed.

Lemma unfixed_OnDevice (body : Expr) (s : SEScope) (f : bool) :
  unfixed_on_device (OnDevice body s f) = negb f.
Proof. destruct f; reflexivity. Qed.

Lemma Rewrite_binds_fixed_lt (n : nat) : forall e, expr_size e < n ->
  All_nodes (fun x => negb (binds_unfixed x)) (RewriteOnDevices.VisitExpr e) = true.
Proof.
  induction n as [|n IH]; intros e Hs; [lia|].
  assert (Child : forall c, expr_size c < expr_size e ->
            All_nodes (fun x => negb (binds_unfixed x)) (RewriteOnDevices.VisitExpr c) = true)
    by (intros c Hc; apply IH; lia).
  clear IH.
  destruct e as [x|x|k|o|c|fs|t i|c t f|x v b|ps b attrs|op args attrs|d cls|v|r|r v];
    cbn [RewriteOnDevices.VisitExpr]; try reflexivity.
  - (* tuple *)
    cbn [All_nodes binds_unfixed negb andb]. rewrite forallb_map_. apply forallb_forall.
    intros f Hf. apply Child. pose proof (in_list_sum f fs Hf). cbn [expr_size]. lia.
  - (* tuple projection *)
    assert (Ht : All_nodes (fun x => negb (binds_unfixed x)) (RewriteOnDevices.VisitExpr t)
                 = true) by (apply Child; cbn [expr_size]; lia).
    destruct (GetOnDeviceProps (RewriteOnDevices.VisitExpr t)) as [[[? ?] [|]]|];
      rewrite ?All_nodes_OnDevice; cbn [All_nodes binds_unfixed negb andb OnDevice]; exact Ht.
  - (* if *)
    cbn [All_nodes binds_unfixed negb andb]. rewrite !Child by (cbn [expr_size]; lia).
    reflexivity.
  - (* let *)
    assert (Hv : All_nodes (fun x => negb (binds_unfixed x)) (RewriteOnDevices.VisitExpr v)
                 = true) by (apply Child; cbn [expr_size]; lia).
    assert (Hb : All_nodes (fun x => negb (binds_unfixed x)) (RewriteOnDevices.VisitExpr b)
                 = true) by (apply Child; cbn [expr_size]; lia).
    cbn [All_nodes]. rewrite Hb, andb_true_r.
    destruct (GetOnDeviceProps (RewriteOnDevices.VisitExpr v)) as [[[body s] [|]]|] eqn:E.
    + assert (U : unfixed_on_device (RewriteOnDevices.VisitExpr v) = false)
        by (unfold unfixed_on_device; rewrite E; reflexivity).
      cbn [binds_unfixed]. rewrite U, Hv. reflexivity.
    + cbn [binds_unfixed]. rewrite unfixed_OnDevice, All_nodes_OnDevice.
      cbn [negb andb binds_unfixed OnDevice All_nodes].
      exact (All_nodes_body _ _ _ _ _ E Hv).
    + assert (U : unfixed_on_device (RewriteOnDevices.VisitExpr v) = false)
        by (unfold unfixed_on_device; rewrite E; reflexivity).
      cbn [binds_unfixed]. rewrite U, Hv. reflexivity.
  - (* function *)
    assert (Hb : All_nodes (fun x => negb (binds_unfixed x)) (RewriteOnDevices.VisitExpr b)
                 = true) by (apply Child; cbn [expr_size]; lia).
    cbn [All_nodes].
    destruct (GetOnDeviceProps (RewriteOnDevices.VisitExpr b)) as [[[body s] [|]]|] eqn:E.
    + assert (U : unfixed_on_device (RewriteOnDevices.VisitExpr b) = false)
        by (unfold unfixed_on_device; rewrite E; reflexivity).
      cbn [binds_unfixed]. rewrite U, Hb. reflexivity.
    + cbn [binds_unfixed]. rewrite unfixed_OnDevice, All_nodes_OnDevice.
      cbn [negb andb binds_unfixed OnDevice All_nodes].
      exact (All_nodes_body _ _ _ _ _ E Hb).
    + assert (U : unfixed_on_device (RewriteOnDevices.VisitExpr b) = false)
        by (unfold unfixed_on_device; rewrite E; reflexivity).
      cbn [binds_unfixed]. rewrite U, Hb. reflexivity.
  - (* call *)
    cbn [All_nodes binds_unfixed negb andb]. rewrite Child by (cbn [expr_size]; lia).
    rewrite forallb_map_. apply forallb_forall.
    intros a Ha. apply Child. pose proof (in_list_sum a args Ha). cbn [expr_size]. lia.
  - (* match *)
    cbn [All_nodes binds_unfixed negb andb]. rewrite Child by (cbn [expr_size]; lia).
    rewrite forallb_map_. apply forallb_forall. intros c Hc. cbn [snd]. apply Child.
    pose proof (in_list_sum_snd c cls Hc). cbn [expr_size]. lia.
  - (* ref create *)
    cbn [All_nodes binds_unfixed negb andb]. apply Child. cbn [expr_size]. lia.
  - (* ref read *)
    cbn [All_nodes binds_unfixed negb andb]. apply Child. cbn [expr_size]. lia.
  - (* ref write *)
    cbn [All_nodes binds_unfixed negb andb]. rewrite !Child by (cbn [expr_size]; lia).
    reflexivity.
Qed.

Lemma rewrite_site_tgi (t : Expr) (i : nat) :
  rewrite_site (TupleGetItemNode t i) = unfixed_on_device t.
Proof. unfold rewrite_site. cbn [projects_unfixed binds_unfixed]. apply orb_false_r. Qed.

Lemma rewrite_site_let (x : string) (v b : Expr) :
  rewrite_site (LetNode x v b) = unfixed_on_device v.
Proof. reflexivity. Qed.

Lemma rewrite_site_fun (ps : list string) (b : Expr) (attrs : FuncAttrs) :
  rewrite_site (FunctionNode ps b attrs) = unfixed_on_device b.
Proof. reflexivity. Qed.

Lemma Rewrite_normal_lt (n : nat) : forall e, expr_size e < n ->
  All_nodes (fun x => negb (projects_unfixed x)) e = true ->
  All_nodes (fun x => negb (rewrite_site x)) (RewriteOnDevices.VisitExpr e) = true.
Proof.
  induction n as [|n IH]; intros e Hs Hq; [lia|].
  assert (Child : forall c, expr_size c < expr_size e ->
            All_nodes (fun x => negb (projects_unfixed x)) c = true ->
            All_nodes (fun x => negb (rewrite_site x)) (RewriteOnDevices.VisitExpr c) = true)
    by (intros c Hc; apply IH; lia).
  clear IH.
  pose proof Hq as Hq0.
  destruct e as [x|x|k|o|c|fs|t i|c t f|x v b|ps b attrs|op args attrs|d cls|v|r|r v];
    cbn [RewriteOnDevices.VisitExpr]; cbn [All_nodes] in Hq;
    apply andb_prop in Hq as [Hn Hq]; split_andb; try reflexivity.
  - (* tuple *)
    unfold rewrite_site; cbn [All_nodes projects_unfixed binds_unfixed orb negb andb].
    rewrite forallb_map_. apply forallb_forall.
    intros f Hf. apply Child.
    + pose proof (in_list_sum f fs Hf). cbn [expr_size]. lia.
    + rewrite forallb_forall in Hq. apply Hq, Hf.
  - (* tuple projection *)
    assert (Ht : All_nodes (fun x => negb (rewrite_site x)) (RewriteOnDevices.VisitExpr t)
                 = true) by (apply Child; [cbn [expr_size]; lia | assumption]).
    assert (U : unfixed_on_device (RewriteOnDevices.VisitExpr t) = false).
    { rewrite unfixed_Rewrite by assumption.
      cbn [projects_unfixed] in Hn. apply negb_true_iff in Hn. exact Hn. }
    destruct (GetOnDeviceProps (RewriteOnDevices.VisitExpr t)) as [[[? ?] [|]]|] eqn:E.
    + cbn [All_nodes]. rewrite rewrite_site_tgi, U, Ht. reflexivity.
    + unfold unfixed_on_device in U. rewrite E in U. discriminate.
    + cbn [All_nodes]. rewrite rewrite_site_tgi, U, Ht. reflexivity.
  - (* if *)
    unfold rewrite_site; cbn [All_nodes projects_unfixed binds_unfixed orb negb andb].
    rewrite !Child by (cbn [expr_size]; lia || assumption). reflexivity.
  - (* let *)
    assert (Hv : All_nodes (fun x => negb (rewrite_site x)) (RewriteOnDevices.VisitExpr v)
                 = true) by (apply Child; [cbn [expr_size]; lia | assumption]).
    assert (Hb : All_nodes (fun x => negb (rewrite_site x)) (RewriteOnDevices.VisitExpr b)
                 = true) by (apply Child; [cbn [expr_size]; lia | assumption]).
    cbn [All_nodes]. rewrite Hb, andb_true_r, rewrite_site_let.
    destruct (GetOnDeviceProps (RewriteOnDevices.VisitExpr v)) as [[[body s] [|]]|] eqn:E.
    + assert (U : unfixed_on_device (RewriteOnDevices.VisitExpr v) = false)
        by (unfold unfixed_on_device; rewrite E; reflexivity).
      rewrite U, Hv. reflexivity.
    + rewrite All_nodes_OnDevice, (All_nodes_body _ _ _ _ _ E Hv). reflexivity.
    + assert (U : unfixed_on_device (RewriteOnDevices.VisitExpr v) = false)
        by (unfold unfixed_on_device; rewrite E; reflexivity).
      rewrite U, Hv. reflexivity.
  - (* function *)
    assert (Hb : All_nodes (fun x => negb (rewrite_site x)) (RewriteOnDevices.VisitExpr b)
                 = true) by (apply Child; [cbn [expr_size]; lia | assumption]).
    cbn [All_nodes]. rewrite rewrite_site_fun.
    destruct (GetOnDeviceProps (RewriteOnDevices.VisitExpr b)) as [[[body s] [|]]|] eqn:E.
    + assert (U : unfixed_on_device (RewriteOnDevices.VisitExpr b) = false)
        by (unfold unfixed_on_device; rewrite E; reflexivity).
      rewrite U, Hb. reflexivity.
    + rewrite All_nodes_OnDevice, (All_nodes_body _ _ _ _ _ E Hb). reflexivity.
    + assert (U : unfixed_on_device (RewriteOnDevices.VisitExpr b) = false)
        by (unfold unfixed_on_device; rewrite E; reflexivity).
      rewrite U, Hb. reflexivity.
  - (* call *)
    unfold rewrite_site; cbn [All_nodes projects_unfixed binds_unfixed orb negb andb].
    rewrite Child by (cbn [expr_size]; lia || assumption).
    rewrite forallb_map_. apply forallb_forall.
    intros a Ha. apply Child.
    + pose proof (in_list_sum a args Ha). cbn [expr_size]. lia.
    + assert (Hqa : forallb (All_nodes (fun x => negb (projects_unfixed x))) args = true)
        by assumption.
      rewrite forallb_forall in Hqa. apply Hqa, Ha.
  - (* match *)
    unfold rewrite_site; cbn [All_nodes projects_unfixed binds_unfixed orb negb andb].
    rewrite Child by (cbn [expr_size]; lia || assumption).
    rewrite forallb_map_. apply forallb_forall. intros c Hc. cbn [snd]. apply Child.
    + pose proof (in_list_sum_snd c cls Hc). cbn [expr_size]. lia.
    + assert (Hqc : forallb (fun c => All_nodes (fun x => negb (projects_unfixed x)) (snd c))
                      cls = true) by assumption.
      rewrite forallb_forall in Hqc. exact (Hqc _ Hc).
  - (* ref create *)
    unfold rewrite_site; cbn [All_nodes projects_unfixed binds_unfixed orb negb andb].
    apply Child; [cbn [expr_size]; lia | assumption].
  - (* ref read *)
    unfold rewrite_site; cbn [All_nodes projects_unfixed binds_unfixed orb negb andb].
    apply Child; [cbn [expr_size]; lia | assumption].
  - (* ref write *)
    unfold rewrite_site; cbn [All_nodes projects_unfixed binds_unfixed orb negb andb].
    rewrite !Child by (cbn [expr_size]; lia || assumption). reflexivity.
Qed.

(** ** The planner's output: annotations, recorded scopes, untouched parts *)

Lemma unfixed_call_capture (domains : DeviceDomains) (op : Expr) (args : list Expr)
  (attrs : CallAttrs) (op' : Expr) (args' : list Expr) (s c : SEScope) (l : Loc) :
  Forall_nodes no_annotated_op (CallNode op args attrs) = true ->
  GetOnDeviceProps (CallNode op args attrs) = None ->
  DeviceCapturer.VisitChild s s c op (DeviceCapturer.VisitExpr domains op l) = Ok op' ->
  List.length args' = List.length args ->
  unfixed_on_device (CallNode op' args' attrs) = false.
Proof.
  intros Hq Hon Hv Hlen. unfold unfixed_on_device.
  destruct op'; try reflexivity.
  cbn [Forall_nodes] in Hq. apply andb_prop in Hq as [_ Hq]. apply andb_prop in Hq as [Hq _].
  apply VisitChild_op in Hv; [subst op|exact Hq].
  destruct args' as [|a' [|a2' rest']]; try reflexivity.
  destruct args as [|a [|a2 rest]]; try discriminate.
  cbn in Hon |- *. destruct attrs; try reflexivity.
  destruct (String.eqb _ _); [discriminate|reflexivity].
Qed.

Lemma PlanDevices_inv (cfg : CompilationConfig) (checked_type : Expr -> Ty)
  (mod_ mod' : IRModule) :
  PlanDevices cfg checked_type mod_ = Ok mod' ->
  exists domains,
    Forall2 (fun gf gf' => fst gf' = fst gf /\
               DeviceCapturer.VisitExpr domains (RewriteOnDevices.VisitExpr (snd gf))
                 (root_of (fst gf)) = Ok (snd gf'))
            (functions mod_) (functions mod').
Proof.
  unfold PlanDevices, PlanDevicesCore. intros H.
  apply bind_Ok in H as [st1 [_ H]]. apply bind_Ok in H as [st2 [_ H]].
  exists st2. apply Capture_inv in H as [HF _]. unfold Rewrite in HF. cbn [functions] in HF.
  revert HF. generalize (functions mod') as l.
  induction (functions mod_) as [|[gv f] fns IH]; intros l HF;
    cbn [List.map] in HF; inversion HF; subst; constructor; auto.
Qed.

Lemma Capture_primitive (domains : DeviceDomains) (f : Expr) (l : Loc) :
  is_primitive_function f = true ->
  DeviceCapturer.VisitExpr domains (RewriteOnDevices.VisitExpr f) l
  = Ok (RewriteOnDevices.VisitExpr f).
Proof.
  destruct f; try discriminate. cbn [is_primitive_function]. intros Hp.
  cbn [RewriteOnDevices.VisitExpr DeviceCapturer.VisitExpr]. rewrite Hp. reflexivity.
Qed.

Lemma Capture_function_params (domains : DeviceDomains) (ps : list string) (b : Expr)
  (attrs : FuncAttrs) (l : Loc) (e' : Expr) :
  DeviceCapturer.VisitExpr domains (FunctionNode ps b attrs) l = Ok e' ->
  exists b' attrs', e' = FunctionNode ps b' attrs' /\ primitive attrs' = primitive attrs.
Proof.
  intros H. cbn [DeviceCapturer.VisitExpr] in H.
  destruct (primitive attrs) eqn:Pr.
  - injection H as <-. exists b, attrs. split; [reflexivity|exact Pr].
  - repeat (apply bind_Ok in H as [? [? H]]; cbv beta zeta in H).
    injection H as <-. cbn [FunctionOnDevice]. eexists _, _. split; [reflexivity|].
    cbn [primitive]. exact Pr.
Qed.

(** ** Properties of phase 0 *)

(** Phase 0 leaves an expression unchanged when none of its nodes, inside
    primitive functions included, is a tuple projection out of a non-fixed
    "on_device", a let binding a non-fixed "on_device", or a function whose
    body is a non-fixed "on_device". *)
Theorem Rewrite_fixed_points (e : Expr) :
  All_nodes (fun x => negb (rewrite_site x)) e = true -> RewriteOnDevices.VisitExpr e = e.
Proof. intros H. exact (Rewrite_id_lt (S (expr_size e)) e ltac:(lia) H). Qed.

(** After phase 0, no let anywhere binds a non-fixed "on_device" and no
    function anywhere (primitive functions included) has a non-fixed
    "on_device" as its body. *)
Theorem Rewrite_no_unfixed_bindings (e : Expr) :
  All_nodes (fun x => negb (binds_unfixed x)) (RewriteOnDevices.VisitExpr e) = true.
Proof. exact (Rewrite_binds_fixed_lt (S (expr_size e)) e ltac:(lia)). Qed.

(** Phase 0 is idempotent on an expression in which no tuple projection is
    taken directly out of a non-fixed "on_device": rewriting the result
    again changes nothing. *)
Theorem Rewrite_idempotent_without_projections (e : Expr) :
  All_nodes (fun x => negb (projects_unfixed x)) e = true ->
  RewriteOnDevices.VisitExpr (RewriteOnDevices.VisitExpr e) = RewriteOnDevices.VisitExpr e.
Proof.
  intros H.
  apply (Rewrite_id_lt (S (expr_size (RewriteOnDevices.VisitExpr e)))); [lia|].
  exact (Rewrite_normal_lt (S (expr_size e)) e ltac:(lia) H).
Qed.

(** Phase 0 is not idempotent on a tuple projection out of a non-fixed
    "on_device": the first run wraps the projection in a new non-fixed
    "on_device" and keeps the inner one, so a second run wraps again. *)
Theorem Rewrite_not_idempotent_on_projection (t : Expr) (s : SEScope) (i : nat) :
  RewriteOnDevices.VisitExpr
    (RewriteOnDevices.VisitExpr (TupleGetItemNode (OnDevice t s false) i))
  <> RewriteOnDevices.VisitExpr (TupleGetItemNode (OnDevice t s false) i).
Proof. intros H. cbn in H. discriminate H. Qed.

(** ** Properties of the planner's output *)

(** If no "on_device" or "device_copy" of the input module sits directly
    around a primitive operator, every "on_device" in the module the planner
    produces is fixed, outside the bodies of primitive functions. *)
Theorem PlanDevices_on_device_fixed (cfg : CompilationConfig) (checked_type : Expr -> Ty)
  (mod_ mod' : IRModule) :
  module_ok no_annotated_op mod_ = true ->
  PlanDevices cfg checked_type mod_ = Ok mod' ->
  module_ok (fun e => negb (unfixed_on_device e)) mod' = true.
Proof.
  unfold PlanDevices, PlanDevicesCore. intros Hq H.
  apply bind_Ok in H as [st1 [_ H]]. apply bind_Ok in H as [st2 [_ H]].
  apply (Capture_nodes st2 (fun e => negb (unfixed_on_device e)) no_annotated_op) in H.
  - exact H.
  - intros e He. destruct e; try discriminate; reflexivity.
  - intros; reflexivity.
  - intros; reflexivity.
  - intros r s. rewrite unfixed_OnDevice. reflexivity.
  - intros; reflexivity.
  - intros op args attrs op' args' s c l Hq' Hon _ Hv Hlen.
    rewrite (unfixed_call_capture st2 op args attrs op' args' s c l Hq' Hon Hv Hlen).
    reflexivity.
  - apply Rewrite_nodes, Hq.
Qed.

(** In the module the planner produces, outside the bodies of primitive
    functions, every non-primitive function records its parameter scopes and
    result scope, and none of them is the fully unconstrained scope. *)
Theorem PlanDevices_recorded_scopes_known (cfg : CompilationConfig)
  (checked_type : Expr -> Ty) (mod_ mod' : IRModule) :
  PlanDevices cfg checked_type mod_ = Ok mod' -> module_ok se_scopes_known mod' = true.
Proof.
  unfold PlanDevices, PlanDevicesCore. intros H.
  apply bind_Ok in H as [st1 [_ H]]. apply bind_Ok in H as [st2 [_ H]].
  apply (Capture_nodes_gen st2 se_scopes_known (fun _ => true)) in H.
  - exact H.
  - intros e He. destruct e; try discriminate; reflexivity.
  - intros ps b attrs Hp. cbn [se_scopes_known]. rewrite Hp. reflexivity.
  - intros ps b pss rs _ Hpss Hrs.
    cbn [se_scopes_known primitive param_se_scopes result_se_scope orb].
    rewrite Hpss, Hrs. reflexivity.
  - intros; reflexivity.
  - intros; reflexivity.
  - intros; reflexivity.
  - unfold module_ok. apply forallb_forall. intros gf _. apply Forall_nodes_true.
Qed.

(** The planner keeps the global names in their order, and returns every
    global primitive function as phase 0 rewrote it: the analyzer, the
    defaulter and the capturer leave it alone. *)
Theorem PlanDevices_primitive_functions (cfg : CompilationConfig) (checked_type : Expr -> Ty)
  (mod_ mod' : IRModule) :
  PlanDevices cfg checked_type mod_ = Ok mod' ->
  Forall2 (fun gf gf' => fst gf' = fst gf /\
             (is_primitive_function (snd gf) = true ->
              snd gf' = RewriteOnDevices.VisitExpr (snd gf)))
          (functions mod_) (functions mod').
Proof.
  intros H. destruct (PlanDevices_inv _ _ _ _ H) as [d HF].
  eapply Forall2_impl; [|exact HF]. intros gf gf' [Hn Hv]. split; [exact Hn|].
  intros Hp. rewrite (Capture_primitive d _ _ Hp) in Hv. injection Hv as <-. reflexivity.
Qed.

(** Every global function of the module the planner produces has the
    parameters of the input function in the same position, and is primitive
    exactly when the input function is. *)
Theorem PlanDevices_keeps_params (cfg : CompilationConfig) (checked_type : Expr -> Ty)
  (mod_ mod' : IRModule) :
  PlanDevices cfg checked_type mod_ = Ok mod' ->
  Forall2 (fun gf gf' => forall ps b attrs, snd gf = FunctionNode ps b attrs ->
             exists b' attrs', snd gf' = FunctionNode ps b' attrs'
                               /\ primitive attrs' = primitive attrs)
          (functions mod_) (functions mod').
Proof.
  intros H. destruct (PlanDevices_inv _ _ _ _ H) as [d HF].
  eapply Forall2_impl; [|exact HF]. intros gf gf' [_ Hv] ps b attrs Hf.
  rewrite Hf in Hv. cbn [RewriteOnDevices.VisitExpr] in Hv.
  exact (Capture_function_params d _ _ _ _ _ Hv).
Qed.

(** ** Phase 1: the invariant of the analysis, and its conflicts *)

Lemma filter_length_le (f g : nat -> bool) (l : list nat) :
  (forall k, f k = true -> g k = true) ->
  List.length (filter f l) <= List.length (filter g l).
Proof.
  intros Hfg. induction l as [|a l IH]; simpl; [lia|].
  destruct (f a) eqn:Fa; [rewrite (Hfg a Fa); simpl; lia|].
  destruct (g a); simpl; lia.
Qed.

Lemma filter_length_lt (f g : nat -> bool) (l : list nat) (x : nat) :
  (forall k, f k = true -> g k = true) -> In x l -> g x = true -> f x = false ->
  List.length (filter f l) < List.length (filter g l).
Proof.
  intros Hfg. induction l as [|a l IH]; simpl; [tauto|].
  intros [<-|Hx] Hg Hf.
  - rewrite Hf, Hg. simpl. pose proof (filter_length_le f g l Hfg). lia.
  - destruct (f a) eqn:Fa; [rewrite (Hfg a Fa); simpl; specialize (IH Hx Hg Hf); lia|].
    destruct (g a); simpl; specialize (IH Hx Hg Hf); lia.
Qed.

Lemma higher_lt (h : nat -> nat) (n j p : nat) :
  p < n -> h j < h p -> higher h n p < higher h n j.
Proof.
  intros Hp Hh. unfold higher. apply (filter_length_lt _ _ _ p).
  - intros k Hk. apply Nat.ltb_lt in Hk. apply Nat.ltb_lt. lia.
  - apply in_seq. lia.
  - apply Nat.ltb_lt. exact Hh.
  - apply Nat.ltb_ge. lia.
Qed.

Lemma higher_below (h : nat -> nat) (n j : nat) : j < n -> higher h n j < n.
Proof.
  intros Hj. unfold higher.
  assert (H : List.length (filter (fun k => Nat.ltb (h j) (h k)) (seq 0 n))
              < List.length (filter (fun _ => true) (seq 0 n))).
  { apply (filter_length_lt _ _ _ j); auto.
    - apply in_seq. lia.
    - apply Nat.ltb_ge. lia. }
  rewrite filter_true, length_seq in H. exact H.
Qed.

Section Find.

Variable nodes : nat -> UFNode.

Variable n : nat.

Variable h : nat -> nat.

Hypothesis Hwf : forall j p, nodes j = Link p -> j < n /\ p < n /\ h j < h p.

Lemma find_stable (f1 : nat) : forall f2 j,
  higher h n j < f1 -> higher h n j < f2 -> find_fuel f1 nodes j = find_fuel f2 nodes j.
Proof.
  induction f1 as [|f1 IH]; intros f2 j H1 H2; [lia|].
  destruct f2 as [|f2]; [lia|]. simpl.
  destruct (nodes j) as [s|p] eqn:E; [reflexivity|].
  destruct (Hwf j p E) as [_ [Hp Hh]].
  pose proof (higher_lt h n j p Hp Hh). apply IH; lia.
Qed.

Lemma find_root (f : nat) : forall j,
  higher h n j < f -> exists s, nodes (find_fuel f nodes j) = Root s.
Proof.
  induction f as [|f IH]; intros j H; [lia|]. simpl.
  destruct (nodes j) as [s|p] eqn:E; [exists s; exact E|].
  destruct (Hwf j p E) as [_ [Hp Hh]].
  pose proof (higher_lt h n j p Hp Hh). apply IH. lia.
Qed.

Lemma find_below (f : nat) : forall j, j < n -> find_fuel f nodes j < n.
Proof.
  induction f as [|f IH]; intros j H; [exact H|]. simpl.
  destruct (nodes j) as [s|p] eqn:E; [exact H|].
  apply IH. apply (Hwf j p E).
Qed.

Lemma find_beyond (f j : nat) : n <= j -> find_fuel f nodes j = j.
Proof.
  intros H. destruct f as [|f]; [reflexivity|]. simpl.
  destruct (nodes j) as [s|p] eqn:E; [reflexivity|].
  destruct (Hwf j p E). lia.
Qed.

End Find.

Lemma wf_Lookup_fuel (st : DeviceDomains) (h : nat -> nat)
  (Hwf : forall j p, uf st j = Link p -> j < next_id st /\ p < next_id st /\ h j < h p)
  (j f : nat) :
  j < next_id st -> higher h (next_id st) j < f -> Lookup st j = find_fuel f (uf st) j.
Proof.
  intros Hj Hf. unfold Lookup. pose proof (higher_below h _ _ Hj).
  apply (find_stable _ _ h Hwf); lia.
Qed.

Lemma Lookup_of_root (st : DeviceDomains) (j : nat) (s : SEScope) :
  uf st j = Root s -> Lookup st j = j.
Proof. intros H. unfold Lookup. simpl. rewrite H. reflexivity. Qed.

Lemma Lookup_is_root (st : DeviceDomains) (j : nat) :
  uf_wf st -> exists s, uf st (Lookup st j) = Root s.
Proof.
  intros [h Hwf]. destruct (Nat.lt_ge_cases j (next_id st)) as [Hj|Hj].
  - unfold Lookup. apply (find_root _ _ h Hwf). pose proof (higher_below h _ _ Hj). lia.
  - unfold Lookup. rewrite (find_beyond _ _ h Hwf _ _ Hj).
    destruct (uf st j) as [s|p] eqn:E; [exists s; reflexivity|].
    destruct (Hwf j p E). lia.
Qed.

Lemma Lookup_below (st : DeviceDomains) (j : nat) :
  uf_wf st -> j < next_id st -> Lookup st j < next_id st.
Proof. intros [h Hwf] Hj. unfold Lookup. exact (find_below _ _ h Hwf _ _ Hj). Qed.

Lemma Lookup_beyond (st : DeviceDomains) (j : nat) :
  uf_wf st -> next_id st <= j -> Lookup st j = j.
Proof. intros [h Hwf] Hj. unfold Lookup. exact (find_beyond _ _ h Hwf _ _ Hj). Qed.

Lemma Lookup_idem (st : DeviceDomains) (j : nat) :
  uf_wf st -> Lookup st (Lookup st j) = Lookup st j.
Proof.
  intros Hwf. destruct (Lookup_is_root st j Hwf) as [s Hs].
  exact (Lookup_of_root _ _ _ Hs).
Qed.

Lemma Lookup_link (st : DeviceDomains) (j p : nat) :
  uf_wf st -> uf st j = Link p -> Lookup st j = Lookup st p.
Proof.
  intros [h Hwf] E. destruct (Hwf j p E) as [Hj [Hp Hh]].
  pose proof (higher_lt h _ _ _ Hp Hh). pose proof (higher_below h _ _ Hj).
  unfold Lookup at 1. simpl. rewrite E.
  symmetry. apply (wf_Lookup_fuel st h Hwf); lia.
Qed.

Section Link.

Variables (st : DeviceDomains) (ra rb : nat) (s sa sb : SEScope).

Hypotheses (Hwf : uf_wf st) (Ha : ra < next_id st) (Hb : rb < next_id st) (Hab : ra <> rb)
  (Hra : uf st ra = Root sa) (Hrb : uf st rb = Root sb).

Lemma link_uf (k : nat) :
  uf (link_roots st ra rb s) k =
  if Nat.eqb k ra then Root s else if Nat.eqb k rb then Link ra else uf st k.
Proof. reflexivity. Qed.

Lemma link_wf : uf_wf (link_roots st ra rb s).
Proof.
  destruct Hwf as [h Hh].
  exists (fun j => if Nat.eqb (Lookup st j) ra then h j + h rb + 1 else h j).
  intros j p E. rewrite link_uf in E. cbn [next_id link_roots set_node].
  destruct (Nat.eqb_spec j ra); [discriminate|].
  destruct (Nat.eqb_spec j rb) as [->|Hjb].
  - injection E as <-. rewrite (Lookup_of_root _ _ _ Hra), (Lookup_of_root _ _ _ Hrb).
    rewrite Nat.eqb_refl. destruct (Nat.eqb_spec rb ra); [congruence|]. lia.
  - destruct (Hh j p E) as [Hj [Hp Hjp]].
    rewrite (Lookup_link st j p (ex_intro _ h Hh) E).
    destruct (Nat.eqb (Lookup st p) ra); lia.
Qed.

Lemma link_find (h : nat -> nat)
  (Hh : forall j p, uf st j = Link p -> j < next_id st /\ p < next_id st /\ h j < h p)
  (f : nat) : forall k, higher h (next_id st) k < f ->
  find_fuel (S f) (uf (link_roots st ra rb s)) k =
  (if Nat.eqb (find_fuel f (uf st) k) rb then ra else find_fuel f (uf st) k).
Proof.
  induction f as [|f IH]; intros k Hk; [lia|].
  cbn [find_fuel]. rewrite link_uf.
  destruct (Nat.eqb_spec k ra) as [->|Hka].
  - rewrite Hra. destruct (Nat.eqb_spec ra rb); congruence.
  - destruct (Nat.eqb_spec k rb) as [->|Hkb].
    + rewrite Hrb, Nat.eqb_refl. destruct f; cbn [find_fuel]; rewrite link_uf, Nat.eqb_refl;
        reflexivity.
    + destruct (uf st k) as [s0|p] eqn:E.
      * destruct (Nat.eqb_spec k rb); congruence.
      * destruct (Hh k p E) as [_ [Hp Hkp]]. pose proof (higher_lt h _ _ _ Hp Hkp).
        apply IH. lia.
Qed.

Lemma link_Lookup (k : nat) :
  Lookup (link_roots st ra rb s) k =
  if Nat.eqb (Lookup st k) rb then ra else Lookup st k.
Proof.
  pose proof Hwf as [h Hh].
  destruct (Nat.lt_ge_cases k (next_id st)) as [Hk|Hk].
  - pose proof (higher_below h _ _ Hk).
    unfold Lookup at 1. cbn [next_id link_roots set_node].
    change (MkDomains (config st) (expr_to_domain st) (call_to_callee_domain st)
              (fun k0 => if Nat.eqb k0 ra then Root s
                         else if Nat.eqb k0 rb then Link ra else uf st k0) (next_id st))
      with (link_roots st ra rb s).
    rewrite (link_find h Hh (next_id st) k H).
    rewrite <- (wf_Lookup_fuel st h Hh k (next_id st) Hk H). reflexivity.
  - rewrite (Lookup_beyond st k Hwf Hk).
    destruct (Nat.eqb_spec k rb); [lia|].
    assert (E : uf (link_roots st ra rb s) k = uf st k).
    { rewrite link_uf. destruct (Nat.eqb_spec k ra); [lia|].
      destruct (Nat.eqb_spec k rb); [lia|]. reflexivity. }
    destruct (uf st k) as [s0|p] eqn:E0.
    + exact (Lookup_of_root _ _ _ (eq_trans E eq_refl)).
    + destruct (Hh k p E0). lia.
Qed.

Lemma link_leaf_scope (k : nat) :
  leaf_scope (link_roots st ra rb s) k =
  if Nat.eqb (Lookup st k) ra || Nat.eqb (Lookup st k) rb then s else leaf_scope st k.
Proof.
  unfold leaf_scope at 1. rewrite link_Lookup.
  destruct (Nat.eqb_spec (Lookup st k) rb) as [Eb|Eb].
  - rewrite link_uf, Nat.eqb_refl, orb_true_r. reflexivity.
  - rewrite link_uf. destruct (Nat.eqb_spec (Lookup st k) ra) as [Ea|Ea]; [reflexivity|].
    destruct (Nat.eqb_spec (Lookup st k) rb); [congruence|]. reflexivity.
Qed.

End Link.

Lemma refines_refl (st : DeviceDomains) : uf_wf st -> refines st st.
Proof. intros H. repeat split; auto. Qed.

Lemma refines_trans (st1 st2 st3 : DeviceDomains) :
  refines st1 st2 -> refines st2 st3 -> refines st1 st3.
Proof.
  intros [C1 [N1 [E1 [K1 [W1 [L1 F1]]]]]] [C2 [N2 [E2 [K2 [W2 [L2 F2]]]]]].
  repeat split; try congruence; auto.
  intros Hc x Hx. rewrite <- (F1 Hc x Hx). apply F2; [rewrite C1; exact Hc|].
  rewrite (F1 Hc x Hx). exact Hx.
Qed.

Lemma Join_fc_left (a b s : SEScope) :
  IsFullyConstrainedScope a = true -> Join a b = Some s -> s = a.
Proof.
  destruct a as [[d1|] [t1|] [m1|]]; try discriminate; intros _.
  destruct b as [d2 t2 m2]; unfold Join; simpl.
  destruct d2 as [d2|]; [destruct (Nat.eqb d1 d2)|];
  (destruct t2 as [t2|]; [destruct (Nat.eqb t1 t2)|]);
  (destruct m2 as [m2|]; [destruct (String.eqb m1 m2)|]);
  try discriminate; intros H; injection H as <-; reflexivity.
Qed.

Lemma Join_fc_right (a b s : SEScope) :
  IsFullyConstrainedScope b = true -> Join a b = Some s -> s = b.
Proof.
  destruct b as [[d2|] [t2|] [m2|]]; try discriminate; intros _.
  destruct a as [[d1|] [t1|] [m1|]]; unfold Join, join_facet; cbn; intros H;
    repeat match type of H with
           | context [Nat.eqb ?x ?y] => destruct (Nat.eqb_spec x y); subst
           | context [String.eqb ?x ?y] => destruct (String.eqb_spec x y); subst
           end;
    try discriminate; injection H as <-; reflexivity.
Qed.

Lemma fc_not_fu (s : SEScope) : IsFullyConstrainedScope s = true -> IsFullyUnconstrained s = false.
Proof. destruct s as [[]  [] []]; simpl; congruence. Qed.

Lemma leaf_scope_root (st : DeviceDomains) (r : nat) (s : SEScope) :
  uf st r = Root s -> leaf_scope st r = s.
Proof. intros H. unfold leaf_scope. rewrite (Lookup_of_root _ _ _ H), H. reflexivity. Qed.

Lemma UnifyLeaves_spec (st : DeviceDomains) (a b : nat) (st' : DeviceDomains) (ok : bool) :
  uf_wf st -> a < next_id st -> b < next_id st -> UnifyLeaves st a b = (st', ok) ->
  refines st st' /\ (ok = true -> Lookup st' a = Lookup st' b).
Proof.
  intros Hwf Ha Hb. unfold UnifyLeaves. cbv zeta.
  destruct (Nat.eqb_spec (Lookup st a) (Lookup st b)) as [Eab|Nab].
  { intros H. injection H as <- <-. split; [apply refines_refl, Hwf|]. intros _; exact Eab. }
  destruct (Lookup_is_root st a Hwf) as [sa Hra].
  destruct (Lookup_is_root st b Hwf) as [sb Hrb].
  rewrite (leaf_scope_root _ _ _ Hra), (leaf_scope_root _ _ _ Hrb).
  destruct (Join sa sb) as [s0|] eqn:J.
  2:{ intros H. injection H as <- <-. split; [apply refines_refl, Hwf|]. discriminate. }
  intros H. injection H as <- <-.
  set (s' := if IsFullyUnconstrained s0 then s0 else CanonicalSEScope (config st) s0).
  change (set_node (set_node st (Lookup st b) (Link (Lookup st a))) (Lookup st a) (Root s'))
    with (link_roots st (Lookup st a) (Lookup st b) s').
  pose proof (Lookup_below st a Hwf Ha) as Ba. pose proof (Lookup_below st b Hwf Hb) as Bb.
  split.
  - repeat split.
    + exact (link_wf st _ _ s' sa sb Hwf Ba Bb Nab Hra Hrb).
    + intros j k Ejk. rewrite !(link_Lookup st _ _ s' sa sb Hwf Ba Bb Nab Hra Hrb), Ejk.
      reflexivity.
    + intros Hc x Hx. rewrite (link_leaf_scope st _ _ s' sa sb Hwf Ba Bb Nab Hra Hrb).
      destruct (Nat.eqb_spec (Lookup st x) (Lookup st a)) as [Ex|Ex]; cbn [orb].
      * assert (leaf_scope st x = sa) as Hxs.
        { rewrite (leaf_scope_same_rep st x (Lookup st a));
            [exact (leaf_scope_root _ _ _ Hra) | rewrite (Lookup_idem st a Hwf); exact Ex]. }
        rewrite Hxs in Hx |- *. pose proof (Join_fc_left _ _ _ Hx J) as ->.
        subst s'. rewrite (fc_not_fu _ Hx). apply Hc, Hx.
      * destruct (Nat.eqb_spec (Lookup st x) (Lookup st b)) as [Ex'|Ex']; [|reflexivity].
        assert (leaf_scope st x = sb) as Hxs.
        { rewrite (leaf_scope_same_rep st x (Lookup st b));
            [exact (leaf_scope_root _ _ _ Hrb) | rewrite (Lookup_idem st b Hwf); exact Ex']. }
        rewrite Hxs in Hx |- *. pose proof (Join_fc_right _ _ _ Hx J) as ->.
        subst s'. rewrite (fc_not_fu _ Hx). apply Hc, Hx.
  - intros _. rewrite !(link_Lookup st _ _ s' sa sb Hwf Ba Bb Nab Hra Hrb).
    rewrite Nat.eqb_refl. destruct (Nat.eqb_spec (Lookup st a) (Lookup st b)); congruence.
Qed.

Lemma UnifyOrNull_HO (st : DeviceDomains) (ps qs : list DeviceDomain) (r r' : DeviceDomain) :
  UnifyOrNull st (HigherOrder ps r) (HigherOrder qs r') =
  if Nat.eqb (List.length ps) (List.length qs) then
    let '(st, ok) := unify_list st ps qs in
    if ok then UnifyOrNull st r r' else (st, false)
  else (st, false).
Proof.
  simpl. destruct (Nat.eqb _ _); [|reflexivity].
  replace ((fix go st ps qs :=
             match ps, qs with
             | p :: ps', q :: qs' =>
                 let '(st, ok) := UnifyOrNull st p q in
                 if ok then go st ps' qs' else (st, false)
             | _, _ => (st, true)
             end) st ps qs) with (unify_list st ps qs); [reflexivity|].
  revert st qs. induction ps as [|p ps IH]; intros st qs; [reflexivity|].
  destruct qs as [|q qs]; [reflexivity|]. simpl.
  destruct (UnifyOrNull st p q) as [st1 ok1]. destruct ok1; [apply IH|reflexivity].
Qed.

Lemma same_shape_HO (ps qs : list DeviceDomain) (r r' : DeviceDomain) :
  same_shape (HigherOrder ps r) (HigherOrder qs r') =
  Nat.eqb (List.length ps) (List.length qs) && shape_list ps qs && same_shape r r'.
Proof.
  reflexivity.
Qed.

Lemma leaf_pairs_HO (ps qs : list DeviceDomain) (r r' : DeviceDomain) :
  leaf_pairs (HigherOrder ps r) (HigherOrder qs r') = (pairs_list ps qs ++ leaf_pairs r r')%list.
Proof.
  reflexivity.
Qed.

Lemma below_HO (st : DeviceDomains) (ps : list DeviceDomain) (r : DeviceDomain) :
  below st (HigherOrder ps r) = forallb (below st) ps && below st r.
Proof.
  unfold below. simpl. rewrite forallb_app. f_equal.
  induction ps as [|p ps IH]; [reflexivity|]. simpl. rewrite forallb_app, IH. reflexivity.
Qed.

Lemma below_refines (st st' : DeviceDomains) (d : DeviceDomain) :
  refines st st' -> below st' d = below st d.
Proof. intros [_ [N _]]. unfold below. rewrite N. reflexivity. Qed.

Lemma forallb_below_refines (st st' : DeviceDomains) (ds : list DeviceDomain) :
  refines st st' -> forallb (below st') ds = forallb (below st) ds.
Proof.
  intros R. induction ds as [|d ds IH]; [reflexivity|].
  simpl. rewrite IH, (below_refines _ _ d R). reflexivity.
Qed.

Lemma refines_wf (st st' : DeviceDomains) : refines st st' -> uf_wf st'.
Proof. intros R. apply R. Qed.

Lemma refines_Lookup (st st' : DeviceDomains) (j k : nat) :
  refines st st' -> Lookup st j = Lookup st k -> Lookup st' j = Lookup st' k.
Proof. intros R. apply R. Qed.

Lemma UnifyOrNull_spec (a : DeviceDomain) : forall b st st' ok,
  uf_wf st -> below st a = true -> below st b = true -> UnifyOrNull st a b = (st', ok) ->
  refines st st' /\ (ok = true -> same_shape a b = true /\
     forall x y, In (x, y) (leaf_pairs a b) -> Lookup st' x = Lookup st' y).
Proof.
  induction a as [x|ps r IHps IHr] using DeviceDomain_ind';
    intros b st st' ok Hwf Ha Hb H.
  - destruct b as [y|qs r'].
    + unfold below in Ha, Hb. simpl in Ha, Hb. rewrite andb_true_r, Nat.ltb_lt in Ha, Hb.
      destruct (UnifyLeaves_spec st x y st' ok Hwf Ha Hb H) as [R E].
      split; [exact R|]. intros Hok. split; [reflexivity|].
      intros x' y' [Hxy|[]]. injection Hxy as <- <-. apply E, Hok.
    + injection H as <- <-. split; [apply refines_refl, Hwf|discriminate].
  - destruct b as [y|qs r'].
    { injection H as <- <-. split; [apply refines_refl, Hwf|discriminate]. }
    rewrite UnifyOrNull_HO in H. rewrite below_HO in Ha, Hb.
    apply andb_prop in Ha as [Hps Hr]. apply andb_prop in Hb as [Hqs Hr'].
    destruct (Nat.eqb_spec (List.length ps) (List.length qs)) as [Hlen|Hlen].
    2:{ injection H as <- <-. split; [apply refines_refl, Hwf|discriminate]. }
    assert (L : forall ps qs st st1 ok1, Forall (fun a => forall b st st' ok,
        uf_wf st -> below st a = true -> below st b = true -> UnifyOrNull st a b = (st', ok) ->
        refines st st' /\ (ok = true -> same_shape a b = true /\
          forall x y, In (x, y) (leaf_pairs a b) -> Lookup st' x = Lookup st' y)) ps ->
        uf_wf st -> forallb (below st) ps = true -> forallb (below st) qs = true ->
        unify_list st ps qs = (st1, ok1) ->
        refines st st1 /\ (ok1 = true -> shape_list ps qs = true /\
          forall x y, In (x, y) (pairs_list ps qs) -> Lookup st1 x = Lookup st1 y)).
    { clear. induction ps as [|p ps IH]; intros qs st st1 ok1 HF Hwf Hps Hqs Hu.
      - injection Hu as <- <-. split; [apply refines_refl, Hwf|]. intros _.
        split; [reflexivity|intros x y []].
      - destruct qs as [|q qs].
        { injection Hu as <- <-. split; [apply refines_refl, Hwf|]. intros _.
          split; [reflexivity|intros x y []]. }
        inversion HF as [|? ? Hp HF']; subst.
        cbn [forallb] in Hps, Hqs. apply andb_prop in Hps as [Hp1 Hps].
        apply andb_prop in Hqs as [Hq1 Hqs].
        cbn [unify_list] in Hu. destruct (UnifyOrNull st p q) as [st2 ok2] eqn:U.
        destruct (Hp q st st2 ok2 Hwf Hp1 Hq1 U) as [R2 E2].
        destruct ok2.
        2:{ injection Hu as <- <-. split; [exact R2|discriminate]. }
        assert (Hps' : forallb (below st2) ps = true).
        { rewrite (forallb_below_refines _ _ _ R2). exact Hps. }
        assert (Hqs' : forallb (below st2) qs = true).
        { rewrite (forallb_below_refines _ _ _ R2). exact Hqs. }
        destruct (IH qs st2 st1 ok1 HF' (refines_wf _ _ R2) Hps' Hqs' Hu) as [R1 E1].
        split; [exact (refines_trans _ _ _ R2 R1)|].
        intros Hok. destruct (E1 Hok) as [S1 P1]. destruct (E2 eq_refl) as [S2 P2].
        split; [cbn [shape_list]; rewrite S2, S1; reflexivity|].
        intros x y Hxy. cbn [pairs_list] in Hxy. apply in_app_or in Hxy as [Hxy|Hxy].
        + apply (refines_Lookup _ _ _ _ R1). apply P2, Hxy.
        + apply P1, Hxy. }
    destruct (unify_list st ps qs) as [st1 ok1] eqn:U.
    destruct (L ps qs st st1 ok1 IHps Hwf Hps Hqs U) as [R1 E1].
    destruct ok1.
    2:{ injection H as <- <-. split; [exact R1|discriminate]. }
    rewrite <- (below_refines _ _ r R1) in Hr. rewrite <- (below_refines _ _ r' R1) in Hr'.
    destruct (IHr r' st1 st' ok (refines_wf _ _ R1) Hr Hr' H) as [R2 E2].
    split; [exact (refines_trans _ _ _ R1 R2)|].
    intros Hok. destruct (E1 eq_refl) as [S1 P1]. destruct (E2 Hok) as [S2 P2].
    split; [rewrite same_shape_HO, S1, S2, !andb_true_r; apply Nat.eqb_eq, Hlen|].
    intros x y Hxy. rewrite leaf_pairs_HO in Hxy. apply in_app_or in Hxy as [Hxy|Hxy].
    + apply (refines_Lookup _ _ _ _ R2). apply P1, Hxy.
    + apply P2, Hxy.
Qed.

Lemma UnifyCollapsed_HO (st : DeviceDomains) (lhs : DeviceDomain) (ps : list DeviceDomain)
  (r : DeviceDomain) :
  UnifyCollapsedOrFalse st lhs (HigherOrder ps r) =
  let '(st, ok) := collapsed_list lhs st ps in
  if ok then UnifyCollapsedOrFalse st lhs r else (st, false).
Proof. reflexivity. Qed.

Lemma UnifyCollapsed_spec (rhs : DeviceDomain) : forall lhs st st' ok,
  uf_wf st -> below st lhs = true -> below st rhs = true ->
  UnifyCollapsedOrFalse st lhs rhs = (st', ok) ->
  refines st st' /\ (ok = true ->
     forall x y, In (x, y) (collapsed_pairs lhs rhs) -> Lookup st' x = Lookup st' y).
Proof.
  induction rhs as [y|ps r IHps IHr] using DeviceDomain_ind';
    intros lhs st st' ok Hwf Hl Hr0 H.
  - cbn [UnifyCollapsedOrFalse collapsed_pairs] in *.
    destruct (UnifyOrNull_spec lhs (FirstOrder y) st st' ok Hwf Hl Hr0 H) as [R E].
    split; [exact R|]. intros Hok. apply E, Hok.
  - rewrite UnifyCollapsed_HO in H. rewrite below_HO in Hr0.
    apply andb_prop in Hr0 as [Hps Hr].
    assert (L : forall ps st st1 ok1, Forall (fun rhs => forall lhs st st' ok,
        uf_wf st -> below st lhs = true -> below st rhs = true ->
        UnifyCollapsedOrFalse st lhs rhs = (st', ok) ->
        refines st st' /\ (ok = true ->
          forall x y, In (x, y) (collapsed_pairs lhs rhs) -> Lookup st' x = Lookup st' y)) ps ->
        uf_wf st -> below st lhs = true -> forallb (below st) ps = true ->
        collapsed_list lhs st ps = (st1, ok1) ->
        refines st st1 /\ (ok1 = true ->
          forall x y, In (x, y) (flat_map (collapsed_pairs lhs) ps) ->
          Lookup st1 x = Lookup st1 y)).
    { clear. induction ps as [|p ps IH]; intros st st1 ok1 HF Hwf Hl Hps Hu.
      - injection Hu as <- <-. split; [apply refines_refl, Hwf|]. intros _ x y [].
      - inversion HF as [|? ? Hp HF']; subst.
        cbn [forallb] in Hps. apply andb_prop in Hps as [Hp1 Hps].
        cbn [collapsed_list] in Hu. fold (collapsed_list lhs) in Hu.
        destruct (UnifyCollapsedOrFalse st lhs p) as [st2 ok2] eqn:U.
        destruct (Hp lhs st st2 ok2 Hwf Hl Hp1 U) as [R2 E2].
        destruct ok2.
        2:{ injection Hu as <- <-. split; [exact R2|discriminate]. }
        rewrite <- (forallb_below_refines _ _ _ R2) in Hps.
        rewrite <- (below_refines _ _ _ R2) in Hl.
        destruct (IH st2 st1 ok1 HF' (refines_wf _ _ R2) Hl Hps Hu) as [R1 E1].
        split; [exact (refines_trans _ _ _ R2 R1)|].
        intros Hok x y Hxy. cbn [flat_map] in Hxy. apply in_app_or in Hxy as [Hxy|Hxy].
        + apply (refines_Lookup _ _ _ _ R1). apply (E2 eq_refl), Hxy.
        + apply (E1 Hok), Hxy. }
    destruct (collapsed_list lhs st ps) as [st1 ok1] eqn:U.
    destruct (L ps st st1 ok1 IHps Hwf Hl Hps U) as [R1 E1].
    destruct ok1.
    2:{ injection H as <- <-. split; [exact R1|discriminate]. }
    rewrite <- (below_refines _ _ _ R1) in Hl. rewrite <- (below_refines _ _ _ R1) in Hr.
    destruct (IHr lhs st1 st' ok (refines_wf _ _ R1) Hl Hr H) as [R2 E2].
    split; [exact (refines_trans _ _ _ R1 R2)|].
    intros Hok x y Hxy. cbn [collapsed_pairs] in Hxy. apply in_app_or in Hxy as [Hxy|Hxy].
    + apply (refines_Lookup _ _ _ _ R2). apply (E1 eq_refl), Hxy.
    + apply (E2 Hok), Hxy.
Qed.

Lemma clash_true (st : DeviceDomains) (pairs : list (nat * nat)) :
  clash st pairs = true -> exists x y, In (x, y) pairs
    /\ IsFullyConstrainedScope (leaf_scope st x) = true
    /\ IsFullyConstrainedScope (leaf_scope st y) = true
    /\ leaf_scope st x <> leaf_scope st y.
Proof.
  unfold clash. intros H. apply existsb_exists in H as [[x y] [Hin H]].
  apply andb_prop in H as [H H3]. apply andb_prop in H as [H1 H2].
  exists x, y. repeat split; auto.
  apply se_scope_eqb_false. destruct (se_scope_eqb _ _); [discriminate|reflexivity].
Qed.

Lemma clash_pairs_fail (st st' : DeviceDomains) (pairs : list (nat * nat)) :
  canonical_fixed (config st) -> refines st st' ->
  (forall x y, In (x, y) pairs -> Lookup st' x = Lookup st' y) ->
  clash st pairs = true -> False.
Proof.
  intros Hc R P Hcl. destruct (clash_true st pairs Hcl) as [x [y [Hin [Hx [Hy Hne]]]]].
  apply Hne. destruct R as [_ [_ [_ [_ [_ [_ F]]]]]].
  rewrite <- (F Hc x Hx), <- (F Hc y Hy). apply leaf_scope_same_rep, P, Hin.
Qed.

Lemma UnifyOrNull_clash (st : DeviceDomains) (a b : DeviceDomain) :
  uf_wf st -> below st a = true -> below st b = true -> canonical_fixed (config st) ->
  clash st (leaf_pairs a b) = true -> snd (UnifyOrNull st a b) = false.
Proof.
  intros Hwf Ha Hb Hc Hcl. destruct (UnifyOrNull st a b) as [st' ok] eqn:U.
  destruct (UnifyOrNull_spec a b st st' ok Hwf Ha Hb U) as [R E].
  destruct ok; [|reflexivity]. exfalso.
  exact (clash_pairs_fail st st' _ Hc R (proj2 (E eq_refl)) Hcl).
Qed.

Lemma UnifyCollapsed_clash (st : DeviceDomains) (lhs rhs : DeviceDomain) :
  uf_wf st -> below st lhs = true -> below st rhs = true -> canonical_fixed (config st) ->
  clash st (collapsed_pairs lhs rhs) = true -> snd (UnifyCollapsedOrFalse st lhs rhs) = false.
Proof.
  intros Hwf Ha Hb Hc Hcl. destruct (UnifyCollapsedOrFalse st lhs rhs) as [st' ok] eqn:U.
  destruct (UnifyCollapsed_spec rhs lhs st st' ok Hwf Ha Hb U) as [R E].
  destruct ok; [|reflexivity]. exfalso.
  exact (clash_pairs_fail st st' _ Hc R (E eq_refl) Hcl).
Qed.

Lemma clash_app (st : DeviceDomains) (l1 l2 : list (nat * nat)) :
  clash st (l1 ++ l2)%list = clash st l1 || clash st l2.
Proof. unfold clash. apply existsb_app. Qed.

Lemma fc_differ_clash (st : DeviceDomains) (a : DeviceDomain) : forall b,
  IsFullyConstrained st a = true -> IsFullyConstrained st b = true ->
  same_shape a b = true -> ToString st a <> ToString st b ->
  clash st (leaf_pairs a b) = true.
Proof.
  induction a as [x|ps r IHps IHr] using DeviceDomain_ind'; intros b Ha Hb Hs Hne.
  - destruct b as [y|]; [|discriminate]. cbn in Ha, Hb, Hne |- *.
    rewrite Ha, Hb. cbn. destruct (se_scope_eqb _ _) eqn:E; [|reflexivity].
    exfalso. apply Hne. apply se_scope_eqb_spec in E. rewrite E. reflexivity.
  - destruct b as [|qs r']; [discriminate|].
    rewrite same_shape_HO in Hs. apply andb_prop in Hs as [Hs Hsr].
    apply andb_prop in Hs as [Hlen Hsl]. apply Nat.eqb_eq in Hlen.
    cbn [IsFullyConstrained] in Ha, Hb.
    apply andb_prop in Ha as [Hps Hr]. apply andb_prop in Hb as [Hqs Hr'].
    rewrite leaf_pairs_HO, clash_app.
    assert (L : forall ps qs, Forall (fun a => forall b,
        IsFullyConstrained st a = true -> IsFullyConstrained st b = true ->
        same_shape a b = true -> ToString st a <> ToString st b ->
        clash st (leaf_pairs a b) = true) ps ->
        forallb (IsFullyConstrained st) ps = true ->
        forallb (IsFullyConstrained st) qs = true ->
        shape_list ps qs = true -> List.length ps = List.length qs ->
        clash st (pairs_list ps qs) = false ->
        ~ ~ List.map (ToString st) ps = List.map (ToString st) qs).
    { clear. induction ps as [|p ps IH]; intros [|q qs] HF Hp Hq Hs Hl Hc; try discriminate.
      - intros N. apply N. reflexivity.
      - inversion HF as [|? ? Hp1 HF']; subst.
        cbn [forallb shape_list pairs_list] in Hp, Hq, Hs, Hc.
        apply andb_prop in Hp as [Hp Hps]. apply andb_prop in Hq as [Hq Hqs].
        apply andb_prop in Hs as [Hs Hss]. rewrite clash_app in Hc.
        apply orb_false_iff in Hc as [Hc1 Hc2].
        intros N. apply (IH qs HF' Hps Hqs Hss (eq_add_S _ _ Hl) Hc2). intros E.
        assert (E1 : ~ ToString st p <> ToString st q).
        { intros D. rewrite (Hp1 q Hp Hq Hs D) in Hc1. discriminate. }
        apply E1. intros D. apply N. cbn. rewrite D, E. reflexivity. }
    destruct (clash st (pairs_list ps qs)) eqn:C1; [reflexivity|].
    destruct (clash st (leaf_pairs r r')) eqn:C2; [reflexivity|].
    exfalso. apply (L ps qs IHps Hps Hqs Hsl Hlen C1). intros E.
    assert (E1 : ~ ToString st r <> ToString st r').
    { intros D. rewrite (IHr r' Hr Hr' Hsr D) in C2. discriminate. }
    apply E1. intros D. apply Hne. cbn. rewrite E, D. reflexivity.
Qed.

Lemma UnifyOrNull_fully_constrained_differ (st : DeviceDomains) (a b : DeviceDomain) :
  uf_wf st -> below st a = true -> below st b = true -> canonical_fixed (config st) ->
  IsFullyConstrained st a = true -> IsFullyConstrained st b = true ->
  ToString st a <> ToString st b -> snd (UnifyOrNull st a b) = false.
Proof.
  intros Hwf Ha Hb Hc Hfa Hfb Hne. destruct (UnifyOrNull st a b) as [st' ok] eqn:U.
  destruct (UnifyOrNull_spec a b st st' ok Hwf Ha Hb U) as [R E].
  destruct ok; [|reflexivity]. exfalso. destruct (E eq_refl) as [S P].
  exact (clash_pairs_fail st st' _ Hc R P (fc_differ_clash st a b Hfa Hfb S Hne)).
Qed.

Lemma grows_refl (st : DeviceDomains) : grows st st.
Proof. split; [reflexivity|lia]. Qed.

Lemma grows_trans (a b c : DeviceDomains) : grows a b -> grows b c -> grows a c.
Proof. intros [C1 N1] [C2 N2]. split; [congruence|lia]. Qed.

Lemma refines_grows (st st' : DeviceDomains) : refines st st' -> grows st st'.
Proof. intros [C [N _]]. split; [exact C|lia]. Qed.

Lemma below_grows (st st' : DeviceDomains) (d : DeviceDomain) :
  grows st st' -> below st d = true -> below st' d = true.
Proof.
  intros [_ N] H. unfold below in *. rewrite forallb_forall in *.
  intros x Hx. specialize (H x Hx). apply Nat.ltb_lt in H. apply Nat.ltb_lt. lia.
Qed.

Lemma forallb_below_grows (st st' : DeviceDomains) (ds : list DeviceDomain) :
  grows st st' -> forallb (below st) ds = true -> forallb (below st') ds = true.
Proof.
  intros G H. rewrite forallb_forall in *. intros d Hd. apply (below_grows st); auto.
Qed.

Lemma table_below_grows (st st' : DeviceDomains) (t : list (Key * DeviceDomain)) :
  grows st st' -> table_below st t -> table_below st' t.
Proof. intros G H k d Hin. apply (below_grows st); eauto. Qed.

Lemma domains_ok_refines (st st' : DeviceDomains) :
  domains_ok st -> refines st st' -> domains_ok st'.
Proof.
  intros [_ [T1 T2]] R. pose proof (refines_grows _ _ R) as G.
  destruct R as [_ [_ [E1 [E2 [W _]]]]]. split; [exact W|]. rewrite E1, E2.
  split; apply (table_below_grows st); assumption.
Qed.

Lemma lookup_In {A} (k : Key) (t : list (Key * A)) (d : A) :
  lookup k t = Some d -> exists k', In (k', d) t.
Proof.
  induction t as [|[k' v] t IH]; simpl; [discriminate|].
  destruct (key_eqb k k'); [intros [=<-]; eauto|].
  intros H. destruct (IH H) as [k'' Hk]. eauto.
Qed.

Lemma MakeFirstOrderDomain_ok (st st' : DeviceDomains) (s : SEScope) (d : DeviceDomain) :
  domains_ok st -> MakeFirstOrderDomain st s = (st', d) -> step_ok st st' d.
Proof.
  intros [[h W] [T1 T2]] E. unfold MakeFirstOrderDomain in E. injection E as <- <-.
  assert (G : grows st (MkDomains (config st) (expr_to_domain st) (call_to_callee_domain st)
     (fun k => if Nat.eqb k (next_id st) then Root s else uf st k) (S (next_id st)))).
  { split; simpl; [reflexivity|lia]. }
  split; [|split; [|exact G]].
  - split; [|split; apply (table_below_grows st); assumption].
    exists h. intros j p. simpl. destruct (Nat.eqb_spec j (next_id st)); [discriminate|].
    intros H. destruct (W j p H) as [? [? ?]]. repeat split; lia.
  - unfold below. simpl. rewrite andb_true_r. apply Nat.ltb_lt. lia.
Qed.

Lemma ForSEScope_Func (st : DeviceDomains) (ps : list Ty) (r : Ty) (s : SEScope) :
  ForSEScope st (FuncType ps r) s =
  let '(st, params) := for_list s st ps in
  let '(st, result) := ForSEScope st r s in
  (st, HigherOrder params result).
Proof. reflexivity. Qed.

Lemma ForSEScope_ok (t : Ty) : forall s st st' d,
  domains_ok st -> ForSEScope st t s = (st', d) -> step_ok st st' d.
Proof.
  induction t as [| |ps r IHps IHr|] using Ty_ind'; intros s st st' d Ok E;
    try (simpl in E; exact (MakeFirstOrderDomain_ok _ _ _ _ Ok E)).
  rewrite ForSEScope_Func in E.
  assert (L : forall ps st st1 ds, Forall (fun t => forall s st st' d,
      domains_ok st -> ForSEScope st t s = (st', d) -> step_ok st st' d) ps ->
      domains_ok st -> for_list s st ps = (st1, ds) ->
      domains_ok st1 /\ forallb (below st1) ds = true /\ grows st st1).
  { clear. induction ps as [|p ps IH]; intros st st1 ds HF Ok E.
    - injection E as <- <-. split; [exact Ok|split; [reflexivity|apply grows_refl]].
    - inversion HF as [|? ? Hp HF']; subst. cbn [for_list] in E. fold (for_list s) in E.
      destruct (ForSEScope st p s) as [st2 d] eqn:E1.
      destruct (for_list s st2 ps) as [st3 ds'] eqn:E2. injection E as <- <-.
      destruct (Hp s st st2 d Ok E1) as [Ok2 [B2 G2]].
      destruct (IH st2 st3 ds' HF' Ok2 E2) as [Ok3 [B3 G3]].
      split; [exact Ok3|split].
      + cbn [forallb]. rewrite B3, (below_grows _ _ _ G3 B2). reflexivity.
      + exact (grows_trans _ _ _ G2 G3). }
  destruct (for_list s st ps) as [st1 ds] eqn:E1.
  destruct (ForSEScope st1 r s) as [st2 d2] eqn:E2. injection E as <- <-.
  destruct (L ps st st1 ds IHps Ok E1) as [Ok1 [B1 G1]].
  destruct (IHr s st1 st2 d2 Ok1 E2) as [Ok2 [B2 G2]].
  split; [exact Ok2|split].
  - rewrite below_HO, B2, (forallb_below_grows _ _ _ G2 B1). reflexivity.
  - exact (grows_trans _ _ _ G1 G2).
Qed.

Lemma ForSEScopes_ok (ts : list Ty) : forall s st st' ds,
  domains_ok st -> ForSEScopes st ts s = (st', ds) ->
  domains_ok st' /\ forallb (below st') ds = true /\ grows st st'.
Proof.
  induction ts as [|t ts IH]; intros s st st' ds Ok E; simpl in E.
  - injection E as <- <-. split; [exact Ok|split; [reflexivity|apply grows_refl]].
  - destruct (ForSEScope st t s) as [st1 d] eqn:E1.
    destruct (ForSEScopes st1 ts s) as [st2 ds'] eqn:E2. injection E as <- <-.
    destruct (ForSEScope_ok t s st st1 d Ok E1) as [Ok1 [B1 G1]].
    destruct (IH s st1 st2 ds' Ok1 E2) as [Ok2 [B2 G2]].
    split; [exact Ok2|split].
    + cbn [forallb]. rewrite B2, (below_grows _ _ _ G2 B1). reflexivity.
    + exact (grows_trans _ _ _ G1 G2).
Qed.

Lemma DomainFor_ok (checked_type : Expr -> Ty) (st st' : DeviceDomains) (e : Expr) (l : Loc)
  (d : DeviceDomain) :
  domains_ok st -> DomainFor checked_type st e l = (st', d) -> step_ok st st' d.
Proof.
  intros Ok E. unfold DomainFor in E.
  destruct (lookup (key_of e l) (expr_to_domain st)) as [d0|] eqn:L.
  - injection E as <- <-. destruct (lookup_In _ _ _ L) as [k Hk].
    split; [exact Ok|split; [exact (proj1 (proj2 Ok) k d0 Hk)|apply grows_refl]].
  - unfold Free in E.
    destruct (ForSEScope st (checked_type e) FullyUnconstrained) as [st1 d1] eqn:E1.
    injection E as <- <-.
    destruct (ForSEScope_ok _ _ _ _ _ Ok E1) as [[W [T1 T2]] [B G]].
    split; [|split; [exact B|exact G]]. split; [exact W|]. split.
    + intros k d' [[=<- <-]|Hin]; [exact B|exact (T1 k d' Hin)].
    + exact T2.
Qed.

Lemma remember_callee_ok (st st' : DeviceDomains) (k : Key) (d d' : DeviceDomain) :
  domains_ok st -> below st d = true -> remember_callee st k d = (st', d') -> step_ok st st' d'.
Proof.
  intros [W [T1 T2]] B E. unfold remember_callee in E. injection E as <- <-.
  split; [|split; [exact B|split; simpl; [reflexivity|lia]]]. split; [exact W|]. split; [exact T1|].
  intros k' d' [[=<- <-]|Hin]; [exact B|exact (T2 k' d' Hin)].
Qed.

Lemma ShapePosition_ok (st st' : DeviceDomains) (t : Ty) (d : DeviceDomain) :
  domains_ok st -> ShapePosition st t = (st', d) -> step_ok st st' d.
Proof.
  intros Ok E. destruct t; unfold ShapePosition, Free in E; exact (ForSEScope_ok _ _ _ _ _ Ok E).
Qed.

Lemma shape_args_ok (checked_type : Expr -> Ty) (args : list Expr) : forall st st' ds,
  domains_ok st -> shape_args checked_type st args = (st', ds) ->
  domains_ok st' /\ forallb (below st') ds = true /\ grows st st'.
Proof.
  induction args as [|a args IH]; intros st st' ds Ok E; cbn [shape_args] in E.
  - injection E as <- <-. split; [exact Ok|split; [reflexivity|apply grows_refl]].
  - fold (shape_args checked_type) in E.
    destruct (ShapePosition st (checked_type a)) as [st1 d] eqn:E1.
    destruct (shape_args checked_type st1 args) as [st2 ds'] eqn:E2. injection E as <- <-.
    destruct (ShapePosition_ok _ _ _ _ Ok E1) as [Ok1 [B1 G1]].
    destruct (IH st1 st2 ds' Ok1 E2) as [Ok2 [B2 G2]].
    split; [exact Ok2|split].
    + cbn [forallb]. rewrite B2, (below_grows _ _ _ G2 B1). reflexivity.
    + exact (grows_trans _ _ _ G1 G2).
Qed.

Lemma step_then (st st1 st2 : DeviceDomains) (d1 d2 : DeviceDomain) :
  step_ok st st1 d1 -> step_ok st1 st2 d2 -> step_ok st st2 d2 /\ below st2 d1 = true.
Proof.
  intros [_ [B1 G1]] [O2 [B2 G2]].
  split; [split; [exact O2|split; [exact B2|exact (grows_trans _ _ _ G1 G2)]]|].
  exact (below_grows _ _ _ G2 B1).
Qed.

Lemma step_ok_refl (st : DeviceDomains) (d : DeviceDomain) :
  domains_ok st -> below st d = true -> step_ok st st d.
Proof. intros O B. split; [exact O|split; [exact B|apply grows_refl]]. Qed.

Lemma below_HO_intro (st : DeviceDomains) (ps : list DeviceDomain) (r : DeviceDomain) :
  forallb (below st) ps = true -> below st r = true -> below st (HigherOrder ps r) = true.
Proof. intros H1 H2. rewrite below_HO, H1, H2. reflexivity. Qed.

Lemma forallb_below_repeat (st : DeviceDomains) (d : DeviceDomain) (xs : list Expr) :
  below st d = true -> forallb (below st) (List.map (fun _ => d) xs) = true.
Proof. intros B. induction xs as [|x xs IH]; simpl; [reflexivity|]. rewrite B, IH. reflexivity. Qed.

Lemma step_grow (st st1 st2 : DeviceDomains) (d : DeviceDomain) :
  grows st st1 -> step_ok st1 st2 d -> step_ok st st2 d.
Proof.
  intros G1 [O2 [B2 G2]]. split; [exact O2|split; [exact B2|exact (grows_trans _ _ _ G1 G2)]].
Qed.

Lemma DomainForCallee_ok (checked_type : Expr -> Ty) (st st' : DeviceDomains) (call : Expr)
  (l : Loc) (d : DeviceDomain) :
  domains_ok st -> DomainForCallee checked_type st call l = (st', d) -> step_ok st st' d.
Proof.
  intros Ok E. unfold DomainForCallee in E.
  destruct (lookup (key_of call l) (call_to_callee_domain st)) as [d0|] eqn:L.
  { injection E as <- <-. destruct (lookup_In _ _ _ L) as [k Hk].
    exact (step_ok_refl _ _ Ok (proj2 (proj2 Ok) k d0 Hk)). }
  destruct call as [| | | | | | | | | |op args a| | | |];
    try exact (DomainFor_ok _ _ _ _ _ _ Ok E).
  destruct (GetOnDeviceProps (CallNode op args a)) as [[[body s] fx]|].
  { destruct (ForSEScope st (checked_type body) s) as [st1 arg] eqn:E1.
    pose proof (ForSEScope_ok _ _ _ _ _ Ok E1) as S1.
    destruct (if fx then (st1, arg) else Free st1 (checked_type body)) as [st2 res] eqn:E2.
    assert (S2 : step_ok st st2 res /\ below st2 arg = true).
    { destruct fx.
      - injection E2 as <- <-. split; [exact S1|apply S1].
      - exact (step_then _ _ _ _ _ S1 (ForSEScope_ok _ _ _ _ _ (proj1 S1) E2)). }
    destruct S2 as [[O2 [B2 G2]] B2'].
    apply (step_grow _ _ _ _ G2). refine (remember_callee_ok _ _ _ _ _ O2 _ E).
    apply below_HO_intro; [cbn; rewrite B2'; reflexivity|exact B2]. }
  destruct (GetDeviceCopyProps (CallNode op args a)) as [[[body src] dst]|].
  { destruct (ForSEScope st (checked_type body) src) as [st1 arg] eqn:E1.
    pose proof (ForSEScope_ok _ _ _ _ _ Ok E1) as S1.
    destruct (ForSEScope st1 (checked_type body) dst) as [st2 res] eqn:E2.
    destruct (step_then _ _ _ _ _ S1 (ForSEScope_ok _ _ _ _ _ (proj1 S1) E2))
      as [[O2 [B2 G2]] B2'].
    apply (step_grow _ _ _ _ G2). refine (remember_callee_ok _ _ _ _ _ O2 _ E).
    apply below_HO_intro; [cbn; rewrite B2'; reflexivity|exact B2]. }
  destruct op as [| | |name|name| | | | | | | | | |];
    try exact (DomainFor_ok _ _ _ _ _ _ Ok E).
  - destruct (is_shape_op name).
    + fold (shape_args checked_type) in E.
      destruct (shape_args checked_type st args) as [st1 ds] eqn:E1.
      destruct (shape_args_ok _ _ _ _ _ Ok E1) as [O1 [B1 G1]].
      destruct (ShapePosition st1 (checked_type (CallNode (OpNode name) args a)))
        as [st2 res] eqn:E2.
      destruct (ShapePosition_ok _ _ _ _ O1 E2) as [O2 [B2 G2]].
      apply (step_grow _ _ _ _ (grows_trans _ _ _ G1 G2)).
      refine (remember_callee_ok _ _ _ _ _ O2 _ E).
      apply below_HO_intro; [exact (forallb_below_grows _ _ _ G2 B1)|exact B2].
    + destruct (MakeFirstOrderDomain st FullyUnconstrained) as [st1 free] eqn:E1.
      destruct (MakeFirstOrderDomain_ok _ _ _ _ Ok E1) as [O1 [B1 G1]].
      apply (step_grow _ _ _ _ G1). refine (remember_callee_ok _ _ _ _ _ O1 _ E).
      apply below_HO_intro; [apply forallb_below_repeat|]; exact B1.
  - destruct (MakeFirstOrderDomain st FullyUnconstrained) as [st1 free] eqn:E1.
    destruct (MakeFirstOrderDomain_ok _ _ _ _ Ok E1) as [O1 [B1 G1]].
    apply (step_grow _ _ _ _ G1). refine (remember_callee_ok _ _ _ _ _ O1 _ E).
    apply below_HO_intro; [apply forallb_below_repeat|]; exact B1.
Qed.

Lemma UnifyOrNull_ok (st st' : DeviceDomains) (a b : DeviceDomain) (ok : bool) :
  domains_ok st -> below st a = true -> below st b = true ->
  UnifyOrNull st a b = (st', ok) -> domains_ok st' /\ refines st st'.
Proof.
  intros O Ba Bb E. destruct (UnifyOrNull_spec a b st st' ok (proj1 O) Ba Bb E) as [R _].
  exact (conj (domains_ok_refines _ _ O R) R).
Qed.

Lemma UnifyCollapsed_ok (st st' : DeviceDomains) (a b : DeviceDomain) (ok : bool) :
  domains_ok st -> below st a = true -> below st b = true ->
  UnifyCollapsedOrFalse st a b = (st', ok) -> domains_ok st' /\ refines st st'.
Proof.
  intros O Ba Bb E. destruct (UnifyCollapsed_spec b a st st' ok (proj1 O) Ba Bb E) as [R _].
  exact (conj (domains_ok_refines _ _ O R) R).
Qed.

Lemma UnifyExprExact_ok (checked_type : Expr -> Ty) (st st' : DeviceDomains)
  (lhs : Expr) (ll : Loc) (rhs : Expr) (rl : Loc) :
  domains_ok st -> UnifyExprExact checked_type st lhs ll rhs rl = Ok st' ->
  domains_ok st' /\ grows st st'.
Proof.
  intros O E. unfold UnifyExprExact in E.
  destruct (DomainFor checked_type st lhs ll) as [st1 ld] eqn:E1.
  pose proof (DomainFor_ok _ _ _ _ _ _ O E1) as S1.
  destruct (DomainFor checked_type st1 rhs rl) as [st2 rd] eqn:E2.
  destruct (step_then _ _ _ _ _ S1 (DomainFor_ok _ _ _ _ _ _ (proj1 S1) E2))
    as [[O2 [B2 G2]] B2'].
  destruct (UnifyOrNull st2 ld rd) as [st3 ok] eqn:E3.
  destruct ok; [|discriminate]. injection E as <-.
  destruct (UnifyOrNull_ok _ _ _ _ _ O2 B2' B2 E3) as [O3 R].
  exact (conj O3 (grows_trans _ _ _ G2 (refines_grows _ _ R))).
Qed.

Lemma UnifyExprExactDomain_ok (checked_type : Expr -> Ty) (st st' : DeviceDomains)
  (e : Expr) (l : Loc) (expected : DeviceDomain) :
  domains_ok st -> below st expected = true ->
  UnifyExprExactDomain checked_type st e l expected = Ok st' ->
  domains_ok st' /\ grows st st'.
Proof.
  intros O Bx E. unfold UnifyExprExactDomain in E.
  destruct (DomainFor checked_type st e l) as [st1 d] eqn:E1.
  destruct (DomainFor_ok _ _ _ _ _ _ O E1) as [O1 [B1 G1]].
  destruct (UnifyOrNull st1 d expected) as [st3 ok] eqn:E3.
  destruct ok; [|discriminate]. injection E as <-.
  destruct (UnifyOrNull_ok _ _ _ _ _ O1 B1 (below_grows _ _ _ G1 Bx) E3) as [O3 R].
  exact (conj O3 (grows_trans _ _ _ G1 (refines_grows _ _ R))).
Qed.

Lemma UnifyExprCollapsed_ok (checked_type : Expr -> Ty) (st st' : DeviceDomains)
  (e : Expr) (l : Loc) (other : DeviceDomain) :
  domains_ok st -> below st other = true ->
  UnifyExprCollapsed checked_type st e l other = Ok st' ->
  domains_ok st' /\ grows st st'.
Proof.
  intros O Bx E. unfold UnifyExprCollapsed in E.
  destruct (DomainFor checked_type st e l) as [st1 d] eqn:E1.
  destruct (DomainFor_ok _ _ _ _ _ _ O E1) as [O1 [B1 G1]].
  destruct (UnifyCollapsedOrFalse st1 d other) as [st3 ok] eqn:E3.
  destruct ok; [|discriminate]. injection E as <-.
  destruct (UnifyCollapsed_ok _ _ _ _ _ O1 B1 (below_grows _ _ _ G1 Bx) E3) as [O3 R].
  exact (conj O3 (grows_trans _ _ _ G1 (refines_grows _ _ R))).
Qed.

Lemma VisitPattern_list (checked_type : Expr -> Ty) (st : DeviceDomains) (adt : Expr)
  (adt_loc : Loc) (c : string) (ps : list Pattern) :
  DeviceAnalyzer.VisitPattern checked_type st adt adt_loc (PatternConstructor c ps) =
    visit_patterns checked_type adt adt_loc st ps /\
  DeviceAnalyzer.VisitPattern checked_type st adt adt_loc (PatternTuple ps) =
    visit_patterns checked_type adt adt_loc st ps.
Proof. split; reflexivity. Qed.

Lemma AnnotationDomain_eq (checked_type : Expr -> Ty) (st : DeviceDomains) (ps : list string)
  (b : Expr) (attrs : FuncAttrs) :
  DeviceAnalyzer.AnnotationDomain checked_type st ps b attrs =
  let '(st, param_domains) := annotation_params checked_type attrs st ps 0 in
  let '(st, result_domain) :=
    ForSEScope st (checked_type b) (GetFunctionResultSEScope attrs) in
  (st, MakeHigherOrderDomain (param_domains ++ [result_domain])).
Proof. reflexivity. Qed.

Lemma CallPrefix_eq (checked_type : Expr -> Ty) (st : DeviceDomains) (op : Expr)
  (args : list Expr) (attrs : CallAttrs) (l : Loc) :
  CallPrefix checked_type st (CallNode op args attrs) l =
  let* st := DeviceAnalyzer.VisitExpr checked_type st op (child l 0) in
  let '(st, func_domain) := DomainForCallee checked_type st (CallNode op args attrs) l in
  let* _ := ICHECK (opt_eqb Nat.eqb (function_arity func_domain)
                            (Some (List.length args))) "call arity" in
  bind (visit_args checked_type l st args 1)
    (fun '(st, arg_domains) =>
       let '(st, call_domain) := DomainFor checked_type st (CallNode op args attrs) l in
       Ok (st, func_domain, MakeHigherOrderDomain (arg_domains ++ [call_domain]))).
Proof. reflexivity. Qed.

Lemma FunctionPrefix_eq (checked_type : Expr -> Ty) (st : DeviceDomains) (ps : list string)
  (b : Expr) (attrs : FuncAttrs) (l : Loc) :
  FunctionPrefix checked_type st (FunctionNode ps b attrs) l =
  if primitive attrs then Fatal (CheckFailed "primitive") else
  let '(st, func_domain) := DomainFor checked_type st (FunctionNode ps b attrs) l in
  let* _ := ICHECK (match function_arity func_domain with
                    | Some _ => true | None => false end) "higher-order" in
  let* st := UnifyExprExactDomain checked_type st b (child l 0)
               (function_result func_domain) in
  let* _ := ICHECK (opt_eqb Nat.eqb (function_arity func_domain)
                            (Some (List.length ps))) "function arity" in
  let* st := unify_params checked_type l st ps (function_params func_domain) in
  Ok (st, func_domain).
Proof. reflexivity. Qed.

Lemma VisitExpr_call (checked_type : Expr -> Ty) (st : DeviceDomains) (op : Expr)
  (args : list Expr) (attrs : CallAttrs) (l : Loc) :
  DeviceAnalyzer.VisitExpr checked_type st (CallNode op args attrs) l =
  bind (CallPrefix checked_type st (CallNode op args attrs) l)
       (fun '(st, func_domain, implied_domain) =>
          DeviceAnalyzer.CheckCallDomains st (CallNode op args attrs)
            func_domain implied_domain).
Proof.
  rewrite CallPrefix_eq. cbn [DeviceAnalyzer.VisitExpr].
  destruct (DeviceAnalyzer.VisitExpr checked_type st op (child l 0)); [|reflexivity]. cbn [bind].
  destruct (DomainForCallee checked_type a (CallNode op args attrs) l) as [st1 fd].
  destruct (ICHECK _ _); [|reflexivity]. cbn [bind].
  change ((fix go (st : DeviceDomains) (args : list Expr) (i : nat)
    : Result (DeviceDomains * list DeviceDomain) :=
    match args with
    | [] => Ok (st, [])
    | a :: args' =>
        let '(st, d) := DomainFor checked_type st a (child l i) in
        let* st := DeviceAnalyzer.VisitExpr checked_type st a (child l i) in
        bind (go st args' (S i)) (fun '(st, ds) => Ok (st, d :: ds))
    end) st1 args 1) with (visit_args checked_type l st1 args 1).
  destruct (visit_args checked_type l st1 args 1) as [[st2 ds]|err]; cbn [bind]; [|reflexivity].
  destruct (DomainFor checked_type st2 (CallNode op args attrs) l). reflexivity.
Qed.

Lemma VisitExpr_function (checked_type : Expr -> Ty) (st : DeviceDomains) (ps : list string)
  (b : Expr) (attrs : FuncAttrs) (l : Loc) :
  primitive attrs = false ->
  DeviceAnalyzer.VisitExpr checked_type st (FunctionNode ps b attrs) l =
  bind (FunctionPrefix checked_type st (FunctionNode ps b attrs) l)
       (fun '(st, func_domain) =>
          let* st := DeviceAnalyzer.CheckFunctionAnnotation checked_type st
                       (FunctionNode ps b attrs) ps b attrs func_domain in
          DeviceAnalyzer.VisitExpr checked_type st b (child l 0)).
Proof.
  intros P. rewrite FunctionPrefix_eq, P. cbn [DeviceAnalyzer.VisitExpr]. rewrite P.
  destruct (DomainFor checked_type st (FunctionNode ps b attrs) l) as [st1 fd].
  destruct (ICHECK _ _); [|reflexivity]. cbn [bind].
  destruct (UnifyExprExactDomain checked_type st1 b (child l 0) (function_result fd))
    as [st2|]; [|reflexivity]. cbn [bind].
  destruct (ICHECK _ _); [|reflexivity]. cbn [bind].
  change ((fix go (st : DeviceDomains) (ps : list string) (pds : list DeviceDomain)
    : Result DeviceDomains :=
    match ps, pds with
    | p :: ps', pd :: pds' =>
        let* st := UnifyExprExactDomain checked_type st (VarNode p) l pd in
        let '(st, _) := DomainFor checked_type st (VarNode p) l in
        go st ps' pds'
    | _, _ => Ok st
    end) st2 ps (function_params fd)) with (unify_params checked_type l st2 ps (function_params fd)).
  destruct (unify_params checked_type l st2 ps (function_params fd)); reflexivity.
Qed.

Lemma VisitExpr_tuple (checked_type : Expr -> Ty) (st : DeviceDomains) (fs : list Expr) (l : Loc) :
  DeviceAnalyzer.VisitExpr checked_type st (TupleNode fs) l =
  visit_fields checked_type (TupleNode fs) l st fs 0.
Proof. reflexivity. Qed.

Lemma VisitExpr_match (checked_type : Expr -> Ty) (st : DeviceDomains) (d : Expr)
  (cls : list (Pattern * Expr)) (l : Loc) :
  DeviceAnalyzer.VisitExpr checked_type st (MatchNode d cls) l =
  let '(st, match_domain) := DomainFor checked_type st (MatchNode d cls) l in
  let* st := UnifyExprCollapsed checked_type st d (child l 0) match_domain in
  let* st := visit_clauses checked_type d l match_domain st cls 1 in
  DeviceAnalyzer.VisitExpr checked_type st d (child l 0).
Proof. reflexivity. Qed.

Lemma list_sum_In {A} (f : A -> nat) (x : A) (xs : list A) :
  In x xs -> f x <= list_sum (List.map f xs).
Proof.
  induction xs as [|y xs IH]; simpl; [tauto|].
  intros [<-|H]; [lia|specialize (IH H); lia].
Qed.

Lemma MakeHigherOrderDomain_app (ds : list DeviceDomain) (r : DeviceDomain) :
  MakeHigherOrderDomain (ds ++ [r]) = HigherOrder ds r.
Proof.
  unfold MakeHigherOrderDomain. rewrite rev_app_distr. simpl. rewrite rev_involutive.
  reflexivity.
Qed.

Lemma below_function_parts (st : DeviceDomains) (d : DeviceDomain) :
  below st d = true ->
  below st (function_result d) = true /\ forallb (below st) (function_params d) = true.
Proof.
  intros B. destruct d as [x|ps r]; [split; [exact B|reflexivity]|].
  rewrite below_HO in B. apply andb_prop in B as [B1 B2]. exact (conj B2 B1).
Qed.

Lemma visit_patterns_cons (checked_type : Expr -> Ty) (adt : Expr) (al : Loc)
  (st : DeviceDomains) (p : Pattern) (ps : list Pattern) :
  visit_patterns checked_type adt al st (p :: ps) =
  let* st := DeviceAnalyzer.VisitPattern checked_type st adt al p in
  visit_patterns checked_type adt al st ps.
Proof. reflexivity. Qed.

Lemma VisitPattern_ok (checked_type : Expr -> Ty) (adt : Expr) (al : Loc) (p : Pattern) :
  forall st st', domains_ok st ->
  DeviceAnalyzer.VisitPattern checked_type st adt al p = Ok st' ->
  domains_ok st' /\ grows st st'.
Proof.
  assert (L : forall ps st st', Forall (fun p => forall st st', domains_ok st ->
      DeviceAnalyzer.VisitPattern checked_type st adt al p = Ok st' ->
      domains_ok st' /\ grows st st') ps ->
      domains_ok st -> visit_patterns checked_type adt al st ps = Ok st' ->
      domains_ok st' /\ grows st st').
  { clear p. induction ps as [|q ps IH]; intros st st' HF O E.
    - injection E as <-. exact (conj O (grows_refl _)).
    - inversion HF as [|? ? Hp HF']; subst. rewrite visit_patterns_cons in E.
      inv_bind E. destruct (Hp _ _ O Ha) as [O1 G1].
      destruct (IH _ _ HF' O1 E) as [O2 G2]. exact (conj O2 (grows_trans _ _ _ G1 G2)). }
  induction p as [|v|c ps IH|ps IH] using Pattern_ind'; intros st st' O E.
  - injection E as <-. exact (conj O (grows_refl _)).
  - cbn [DeviceAnalyzer.VisitPattern] in E.
    destruct (DomainFor checked_type st (VarNode v) al) as [st1 vd] eqn:E1.
    destruct (DomainFor_ok _ _ _ _ _ _ O E1) as [O1 [B1 G1]].
    destruct (UnifyExprCollapsed_ok _ _ _ _ _ _ O1 B1 E) as [O2 G2].
    exact (conj O2 (grows_trans _ _ _ G1 G2)).
  - rewrite (proj1 (VisitPattern_list _ _ _ _ _ _)) in E. exact (L ps st st' IH O E).
  - rewrite (proj2 (VisitPattern_list _ _ _ _ "" _)) in E. exact (L ps st st' IH O E).
Qed.

Lemma annotation_params_ok (checked_type : Expr -> Ty) (attrs : FuncAttrs) (ps : list string) :
  forall st i st' ds, domains_ok st ->
  annotation_params checked_type attrs st ps i = (st', ds) ->
  domains_ok st' /\ forallb (below st') ds = true /\ grows st st'.
Proof.
  induction ps as [|p ps IH]; intros st i st' ds O E.
  - injection E as <- <-. split; [exact O|split; [reflexivity|apply grows_refl]].
  - change (annotation_params checked_type attrs st (p :: ps) i) with
      (let '(st, d) := ForSEScope st (checked_type (VarNode p))
                         (GetFunctionParamSEScope attrs i) in
       let '(st, ds) := annotation_params checked_type attrs st ps (S i) in (st, d :: ds)) in E.
    destruct (ForSEScope st (checked_type (VarNode p)) (GetFunctionParamSEScope attrs i))
      as [st1 d] eqn:E1.
    destruct (annotation_params checked_type attrs st1 ps (S i)) as [st2 ds'] eqn:E2.
    injection E as <- <-.
    destruct (ForSEScope_ok _ _ _ _ _ O E1) as [O1 [B1 G1]].
    destruct (IH _ _ _ _ O1 E2) as [O2 [B2 G2]].
    split; [exact O2|split].
    + cbn [forallb]. rewrite B2, (below_grows _ _ _ G2 B1). reflexivity.
    + exact (grows_trans _ _ _ G1 G2).
Qed.

Lemma AnnotationDomain_ok (checked_type : Expr -> Ty) (st st' : DeviceDomains)
  (ps : list string) (b : Expr) (attrs : FuncAttrs) (ad : DeviceDomain) :
  domains_ok st -> DeviceAnalyzer.AnnotationDomain checked_type st ps b attrs = (st', ad) ->
  step_ok st st' ad.
Proof.
  intros O E. rewrite AnnotationDomain_eq in E.
  destruct (annotation_params checked_type attrs st ps 0) as [st1 ds] eqn:E1.
  destruct (annotation_params_ok _ _ _ _ _ _ _ O E1) as [O1 [B1 G1]].
  destruct (ForSEScope st1 (checked_type b) (GetFunctionResultSEScope attrs)) as [st2 r] eqn:E2.
  destruct (ForSEScope_ok _ _ _ _ _ O1 E2) as [O2 [B2 G2]].
  injection E as <- <-. rewrite MakeHigherOrderDomain_app.
  split; [exact O2|split; [|exact (grows_trans _ _ _ G1 G2)]].
  apply below_HO_intro; [exact (forallb_below_grows _ _ _ G2 B1)|exact B2].
Qed.

Lemma CheckFunctionAnnotation_ok (checked_type : Expr -> Ty) (st st' : DeviceDomains)
  (e : Expr) (ps : list string) (b : Expr) (attrs : FuncAttrs) (fd : DeviceDomain) :
  domains_ok st -> below st fd = true ->
  DeviceAnalyzer.CheckFunctionAnnotation checked_type st e ps b attrs fd = Ok st' ->
  domains_ok st' /\ grows st st'.
Proof.
  intros O B E. unfold DeviceAnalyzer.CheckFunctionAnnotation in E.
  destruct (negb _); [|injection E as <-; exact (conj O (grows_refl _))].
  destruct (DeviceAnalyzer.AnnotationDomain checked_type st ps b attrs) as [st1 ad] eqn:E1.
  destruct (AnnotationDomain_ok _ _ _ _ _ _ _ O E1) as [O1 [B1 G1]].
  destruct (UnifyOrNull st1 fd ad) as [st2 ok] eqn:E2.
  destruct ok; [|discriminate]. injection E as <-.
  destruct (UnifyOrNull_ok _ _ _ _ _ O1 (below_grows _ _ _ G1 B) B1 E2) as [O2 R].
  exact (conj O2 (grows_trans _ _ _ G1 (refines_grows _ _ R))).
Qed.

Lemma CheckCallDomains_ok (st st' : DeviceDomains) (e : Expr) (fd impl : DeviceDomain) :
  domains_ok st -> below st fd = true -> below st impl = true ->
  DeviceAnalyzer.CheckCallDomains st e fd impl = Ok st' ->
  domains_ok st' /\ grows st st'.
Proof.
  intros O B1 B2 E. unfold DeviceAnalyzer.CheckCallDomains in E.
  destruct (UnifyOrNull st fd impl) as [st2 ok] eqn:E2.
  destruct ok; [|discriminate]. injection E as <-.
  destruct (UnifyOrNull_ok _ _ _ _ _ O B1 B2 E2) as [O2 R].
  exact (conj O2 (refines_grows _ _ R)).
Qed.

Lemma unify_params_ok (checked_type : Expr -> Ty) (l : Loc) (ps : list string) :
  forall pds st st', domains_ok st -> forallb (below st) pds = true ->
  unify_params checked_type l st ps pds = Ok st' -> domains_ok st' /\ grows st st'.
Proof.
  induction ps as [|p ps IH]; intros pds st st' O B E.
  - injection E as <-. exact (conj O (grows_refl _)).
  - destruct pds as [|pd pds]; [injection E as <-; exact (conj O (grows_refl _))|].
    change (unify_params checked_type l st (p :: ps) (pd :: pds)) with
      (let* st := UnifyExprExactDomain checked_type st (VarNode p) l pd in
       let '(st, _) := DomainFor checked_type st (VarNode p) l in
       unify_params checked_type l st ps pds) in E.
    cbn [forallb] in B. apply andb_prop in B as [B1 B2].
    inv_bind E. destruct (UnifyExprExactDomain_ok _ _ _ _ _ _ O B1 Ha) as [O1 G1].
    destruct (DomainFor checked_type a (VarNode p) l) as [st2 d] eqn:E2.
    destruct (DomainFor_ok _ _ _ _ _ _ O1 E2) as [O2 [_ G2]].
    pose proof (grows_trans _ _ _ G1 G2) as G.
    destruct (IH pds st2 st' O2 (forallb_below_grows _ _ _ G B2) E) as [O3 G3].
    exact (conj O3 (grows_trans _ _ _ G G3)).
Qed.

Lemma FunctionPrefix_ok (checked_type : Expr -> Ty) (st st1 : DeviceDomains) (e : Expr)
  (l : Loc) (fd : DeviceDomain) :
  domains_ok st -> FunctionPrefix checked_type st e l = Ok (st1, fd) -> step_ok st st1 fd.
Proof.
  intros O E. destruct e as [| | | | | | | | |ps b attrs| | | | |]; try discriminate.
  rewrite FunctionPrefix_eq in E. destruct (primitive attrs); [discriminate|].
  destruct (DomainFor checked_type st (FunctionNode ps b attrs) l) as [st2 d] eqn:E2.
  destruct (DomainFor_ok _ _ _ _ _ _ O E2) as [O2 [B2 G2]].
  destruct (below_function_parts _ _ B2) as [Br Bp].
  inv_bind E. inv_bind E.
  destruct (UnifyExprExactDomain_ok _ _ _ _ _ _ O2 Br Ha0) as [O3 G3].
  inv_bind E. inv_bind E.
  destruct (unify_params_ok _ _ _ _ _ _ O3 (forallb_below_grows _ _ _ G3 Bp) Ha2) as [O4 G4].
  injection E as <- <-.
  split; [exact O4|split].
  - exact (below_grows _ _ _ (grows_trans _ _ _ G3 G4) B2).
  - exact (grows_trans _ _ _ G2 (grows_trans _ _ _ G3 G4)).
Qed.

Lemma visit_args_ok (checked_type : Expr -> Ty) (l : Loc) (args : list Expr) :
  forall st i st' ds, (forall a, In a args -> vok checked_type a) -> domains_ok st ->
  visit_args checked_type l st args i = Ok (st', ds) ->
  domains_ok st' /\ forallb (below st') ds = true /\ grows st st'.
Proof.
  induction args as [|a args IH]; intros st i st' ds V O E.
  - injection E as <- <-. split; [exact O|split; [reflexivity|apply grows_refl]].
  - change (visit_args checked_type l st (a :: args) i) with
      (let '(st, d) := DomainFor checked_type st a (child l i) in
       let* st := DeviceAnalyzer.VisitExpr checked_type st a (child l i) in
       bind (visit_args checked_type l st args (S i)) (fun '(st, ds) => Ok (st, d :: ds))) in E.
    destruct (DomainFor checked_type st a (child l i)) as [st1 d] eqn:E1.
    destruct (DomainFor_ok _ _ _ _ _ _ O E1) as [O1 [B1 G1]].
    inv_bind E. destruct (V a (or_introl eq_refl) _ _ _ O1 Ha) as [O2 G2].
    inv_bind E. destruct a1 as [st3 ds'].
    destruct (IH _ _ _ _ (fun x H => V x (or_intror H)) O2 Ha0) as [O3 [B3 G3]].
    injection E as <- <-. split; [exact O3|split].
    + cbn [forallb]. rewrite B3, (below_grows _ _ _ (grows_trans _ _ _ G2 G3) B1). reflexivity.
    + exact (grows_trans _ _ _ G1 (grows_trans _ _ _ G2 G3)).
Qed.

Lemma CallPrefix_ok_gen (checked_type : Expr -> Ty) (st st1 : DeviceDomains) (op : Expr)
  (args : list Expr) (attrs : CallAttrs) (l : Loc) (fd impl : DeviceDomain) :
  vok checked_type op -> (forall a, In a args -> vok checked_type a) -> domains_ok st ->
  CallPrefix checked_type st (CallNode op args attrs) l = Ok (st1, fd, impl) ->
  domains_ok st1 /\ below st1 fd = true /\ below st1 impl = true /\ grows st st1.
Proof.
  intros Vop V O E. rewrite CallPrefix_eq in E.
  inv_bind E. destruct (Vop _ _ _ O Ha) as [O1 G1].
  destruct (DomainForCallee checked_type a (CallNode op args attrs) l) as [st2 d] eqn:E2.
  destruct (DomainForCallee_ok _ _ _ _ _ _ O1 E2) as [O2 [B2 G2]].
  inv_bind E. inv_bind E. destruct a1 as [st3 ds].
  destruct (visit_args_ok _ _ _ _ _ _ _ V O2 Ha1) as [O3 [B3 G3]].
  destruct (DomainFor checked_type st3 (CallNode op args attrs) l) as [st4 cd] eqn:E4.
  destruct (DomainFor_ok _ _ _ _ _ _ O3 E4) as [O4 [B4 G4]].
  injection E as <- <- <-. rewrite MakeHigherOrderDomain_app.
  split; [exact O4|split; [|split]].
  - exact (below_grows _ _ _ (grows_trans _ _ _ G3 G4) B2).
  - apply below_HO_intro; [exact (forallb_below_grows _ _ _ G4 B3)|exact B4].
  - exact (grows_trans _ _ _ G1 (grows_trans _ _ _ G2 (grows_trans _ _ _ G3 G4))).
Qed.

Lemma visit_fields_ok (checked_type : Expr -> Ty) (e : Expr) (l : Loc) (fs : list Expr) :
  forall st i st', (forall f, In f fs -> vok checked_type f) -> domains_ok st ->
  visit_fields checked_type e l st fs i = Ok st' -> domains_ok st' /\ grows st st'.
Proof.
  induction fs as [|f fs IH]; intros st i st' V O E.
  - injection E as <-. exact (conj O (grows_refl _)).
  - change (visit_fields checked_type e l st (f :: fs) i) with
      (let '(st, domain) := DomainFor checked_type st f (child l i) in
       let* st := UnifyExprCollapsed checked_type st e l domain in
       let* st := DeviceAnalyzer.VisitExpr checked_type st f (child l i) in
       visit_fields checked_type e l st fs (S i)) in E.
    destruct (DomainFor checked_type st f (child l i)) as [st1 d] eqn:E1.
    destruct (DomainFor_ok _ _ _ _ _ _ O E1) as [O1 [B1 G1]].
    inv_bind E. destruct (UnifyExprCollapsed_ok _ _ _ _ _ _ O1 B1 Ha) as [O2 G2].
    inv_bind E. destruct (V f (or_introl eq_refl) _ _ _ O2 Ha0) as [O3 G3].
    destruct (IH _ _ _ (fun x H => V x (or_intror H)) O3 E) as [O4 G4].
    exact (conj O4 (grows_trans _ _ _ G1 (grows_trans _ _ _ G2 (grows_trans _ _ _ G3 G4)))).
Qed.

Lemma visit_clauses_ok (checked_type : Expr -> Ty) (d : Expr) (l : Loc) (md : DeviceDomain)
  (cls : list (Pattern * Expr)) :
  forall st i st', (forall c, In c cls -> vok checked_type (snd c)) -> domains_ok st ->
  below st md = true ->
  visit_clauses checked_type d l md st cls i = Ok st' -> domains_ok st' /\ grows st st'.
Proof.
  induction cls as [|[lhs rhs] cls IH]; intros st i st' V O B E.
  - injection E as <-. exact (conj O (grows_refl _)).
  - change (visit_clauses checked_type d l md st ((lhs, rhs) :: cls) i) with
      (let* st := DeviceAnalyzer.VisitPattern checked_type st d (child l 0) lhs in
       let* st := UnifyExprExactDomain checked_type st rhs (child l i) md in
       let* st := DeviceAnalyzer.VisitExpr checked_type st rhs (child l i) in
       visit_clauses checked_type d l md st cls (S i)) in E.
    inv_bind E. destruct (VisitPattern_ok _ _ _ _ _ _ O Ha) as [O1 G1].
    inv_bind E.
    destruct (UnifyExprExactDomain_ok _ _ _ _ _ _ O1 (below_grows _ _ _ G1 B) Ha0) as [O2 G2].
    inv_bind E. destruct (V (lhs, rhs) (or_introl eq_refl) _ _ _ O2 Ha1) as [O3 G3].
    pose proof (grows_trans _ _ _ G1 (grows_trans _ _ _ G2 G3)) as G.
    destruct (IH _ _ _ (fun x H => V x (or_intror H)) O3 (below_grows _ _ _ G B) E) as [O4 G4].
    exact (conj O4 (grows_trans _ _ _ G G4)).
Qed.

Ltac chain_ok :=
  repeat match goal with
  | G1 : grows ?a ?b, G2 : grows ?b ?c |- _ =>
      let G := fresh "G" in pose proof (grows_trans _ _ _ G1 G2) as G; clear G1 G2
  end.

Lemma VisitExpr_ok (checked_type : Expr -> Ty) (e : Expr) : vok checked_type e.
Proof.
  remember (expr_size e) as n eqn:Hn. revert e Hn.
  induction n as [n IH] using lt_wf_ind. intros e Hn. subst n.
  assert (V : forall e', expr_size e' < expr_size e -> vok checked_type e')
    by (intros e' H; exact (IH _ H e' eq_refl)).
  clear IH.
  destruct e as [name|name|c|name|name|fs|t j|c t f|x v b|ps b attrs|op args attrs|d cls
                |v|r|r v];
    intros st l st' O E; cbn [expr_size] in V.
  - cbn [DeviceAnalyzer.VisitExpr] in E.
    destruct (DomainFor checked_type st (VarNode name) l) as [st1 d] eqn:E1.
    injection E as <-. destruct (DomainFor_ok _ _ _ _ _ _ O E1) as [O1 [_ G1]]. exact (conj O1 G1).
  - cbn [DeviceAnalyzer.VisitExpr] in E.
    destruct (DomainFor checked_type st (GlobalVarNode name) l) as [st1 d] eqn:E1.
    injection E as <-. destruct (DomainFor_ok _ _ _ _ _ _ O E1) as [O1 [_ G1]]. exact (conj O1 G1).
  - cbn [DeviceAnalyzer.VisitExpr] in E.
    destruct (DomainFor checked_type st (ConstantNode c) l) as [st1 d] eqn:E1.
    injection E as <-. destruct (DomainFor_ok _ _ _ _ _ _ O E1) as [O1 [_ G1]]. exact (conj O1 G1).
  - injection E as <-. exact (conj O (grows_refl _)).
  - injection E as <-. exact (conj O (grows_refl _)).
  - rewrite VisitExpr_tuple in E. refine (visit_fields_ok _ _ _ _ _ _ _ _ O E).
    intros f Hf. apply V. pose proof (list_sum_In expr_size f fs Hf). lia.
  - cbn [DeviceAnalyzer.VisitExpr] in E.
    destruct (DomainFor checked_type st (TupleGetItemNode t j) l) as [st1 dm] eqn:E1.
    destruct (DomainFor_ok _ _ _ _ _ _ O E1) as [O1 [B1 G1]].
    inv_bind E. destruct (UnifyExprCollapsed_ok _ _ _ _ _ _ O1 B1 Ha) as [O2 G2].
    destruct (V t ltac:(lia) _ _ _ O2 E) as [O3 G3]. split; [exact O3|chain_ok; assumption].
  - cbn [DeviceAnalyzer.VisitExpr] in E.
    destruct (DomainFor checked_type st (IfNode c t f) l) as [st1 dm] eqn:E1.
    destruct (DomainFor_ok _ _ _ _ _ _ O E1) as [O1 [B1 G1]].
    inv_bind E. destruct (UnifyExprCollapsed_ok _ _ _ _ _ _ O1 B1 Ha) as [O2 G2].
    inv_bind E.
    destruct (UnifyExprExactDomain_ok _ _ _ _ _ _ O2 (below_grows _ _ _ G2 B1) Ha0) as [O3 G3].
    inv_bind E.
    destruct (UnifyExprExactDomain_ok _ _ _ _ _ _ O3
                (below_grows _ _ _ G3 (below_grows _ _ _ G2 B1)) Ha1) as [O4 G4].
    inv_bind E. destruct (V c ltac:(lia) _ _ _ O4 Ha2) as [O5 G5].
    inv_bind E. destruct (V t ltac:(lia) _ _ _ O5 Ha3) as [O6 G6].
    destruct (V f ltac:(lia) _ _ _ O6 E) as [O7 G7]. split; [exact O7|chain_ok; assumption].
  - cbn [DeviceAnalyzer.VisitExpr] in E.
    inv_bind E. destruct (UnifyExprExact_ok _ _ _ _ _ _ _ O Ha) as [O1 G1].
    inv_bind E. destruct (UnifyExprExact_ok _ _ _ _ _ _ _ O1 Ha0) as [O2 G2].
    destruct (DomainFor checked_type a0 (VarNode x) l) as [st3 dx] eqn:E3.
    destruct (DomainFor_ok _ _ _ _ _ _ O2 E3) as [O3 [_ G3]].
    inv_bind E. destruct (V v ltac:(lia) _ _ _ O3 Ha1) as [O4 G4].
    destruct (V b ltac:(lia) _ _ _ O4 E) as [O5 G5]. split; [exact O5|chain_ok; assumption].
  - destruct (primitive attrs) eqn:P.
    { cbn [DeviceAnalyzer.VisitExpr] in E. rewrite P in E. injection E as <-.
      exact (conj O (grows_refl _)). }
    rewrite (VisitExpr_function _ _ _ _ _ _ P) in E.
    inv_bind E. destruct a as [st1 fd].
    destruct (FunctionPrefix_ok _ _ _ _ _ _ O Ha) as [O1 [B1 G1]].
    inv_bind E. destruct (CheckFunctionAnnotation_ok _ _ _ _ _ _ _ _ O1 B1 Ha0) as [O2 G2].
    destruct (V b ltac:(lia) _ _ _ O2 E) as [O3 G3]. split; [exact O3|chain_ok; assumption].
  - rewrite VisitExpr_call in E. inv_bind E. destruct a as [[st1 fd] impl].
    destruct (CallPrefix_ok_gen _ _ _ _ _ _ _ _ _ (V op ltac:(lia))
                (fun a Ha => V a ltac:(pose proof (list_sum_In expr_size a args Ha); lia))
                O Ha) as [O1 [B1 [B2 G1]]].
    destruct (CheckCallDomains_ok _ _ _ _ _ O1 B1 B2 E) as [O2 G2].
    split; [exact O2|chain_ok; assumption].
  - rewrite VisitExpr_match in E.
    destruct (DomainFor checked_type st (MatchNode d cls) l) as [st1 md] eqn:E1.
    destruct (DomainFor_ok _ _ _ _ _ _ O E1) as [O1 [B1 G1]].
    inv_bind E. destruct (UnifyExprCollapsed_ok _ _ _ _ _ _ O1 B1 Ha) as [O2 G2].
    inv_bind E.
    destruct (visit_clauses_ok _ _ _ _ _ _ _ _
                (fun c Hc => V (snd c) ltac:(pose proof
                   (list_sum_In (fun c => expr_size (snd c)) c cls Hc); cbn beta in *; lia))
                O2 (below_grows _ _ _ G2 B1) Ha0) as [O3 G3].
    destruct (V d ltac:(lia) _ _ _ O3 E) as [O4 G4]. split; [exact O4|chain_ok; assumption].
  - cbn [DeviceAnalyzer.VisitExpr] in E.
    destruct (DomainFor checked_type st v (child l 0)) as [st1 dm] eqn:E1.
    destruct (DomainFor_ok _ _ _ _ _ _ O E1) as [O1 [B1 G1]].
    inv_bind E. destruct (UnifyExprCollapsed_ok _ _ _ _ _ _ O1 B1 Ha) as [O2 G2].
    destruct (V v ltac:(lia) _ _ _ O2 E) as [O3 G3]. split; [exact O3|chain_ok; assumption].
  - cbn [DeviceAnalyzer.VisitExpr] in E.
    destruct (DomainFor checked_type st (RefReadNode r) l) as [st1 dm] eqn:E1.
    destruct (DomainFor_ok _ _ _ _ _ _ O E1) as [O1 [B1 G1]].
    inv_bind E. destruct (UnifyExprCollapsed_ok _ _ _ _ _ _ O1 B1 Ha) as [O2 G2].
    destruct (V r ltac:(lia) _ _ _ O2 E) as [O3 G3]. split; [exact O3|chain_ok; assumption].
  - cbn [DeviceAnalyzer.VisitExpr] in E.
    destruct (DomainFor checked_type st v (child l 1)) as [st1 dm] eqn:E1.
    destruct (DomainFor_ok _ _ _ _ _ _ O E1) as [O1 [B1 G1]].
    inv_bind E. destruct (UnifyExprCollapsed_ok _ _ _ _ _ _ O1 B1 Ha) as [O2 G2].
    inv_bind E.
    destruct (UnifyExprCollapsed_ok _ _ _ _ _ _ O2 (below_grows _ _ _ G2 B1) Ha0) as [O3 G3].
    inv_bind E. destruct (V r ltac:(lia) _ _ _ O3 Ha1) as [O4 G4].
    destruct (V v ltac:(lia) _ _ _ O4 E) as [O5 G5]. split; [exact O5|chain_ok; assumption].
Qed.

Lemma CallPrefix_ok (checked_type : Expr -> Ty) (st st1 : DeviceDomains) (op : Expr)
  (args : list Expr) (attrs : CallAttrs) (l : Loc) (fd impl : DeviceDomain) :
  domains_ok st ->
  CallPrefix checked_type st (CallNode op args attrs) l = Ok (st1, fd, impl) ->
  domains_ok st1 /\ below st1 fd = true /\ below st1 impl = true /\ grows st st1.
Proof.
  apply CallPrefix_ok_gen; [apply VisitExpr_ok|intros a _; apply VisitExpr_ok].
Qed.

Lemma EmptyDomains_ok (cfg : CompilationConfig) : domains_ok (EmptyDomains cfg).
Proof.
  split; [|split; intros k d []].
  exists (fun _ => 0). intros j p H. discriminate H.
Qed.

Lemma Analyze_eq (checked_type : Expr -> Ty) (m : IRModule) (st : DeviceDomains) :
  DeviceAnalyzer.Analyze checked_type m st =
  fold_left (analyze_step checked_type) (functions m) (Ok st).
Proof. reflexivity. Qed.

Lemma analyze_fold_fatal (checked_type : Expr -> Ty) (fs : list (string * Expr))
  (err : PlanError) :
  fold_left (analyze_step checked_type) fs (Fatal err) = Fatal err.
Proof. induction fs as [|[gv f] fs IH]; [reflexivity|exact IH]. Qed.

Lemma Analyze_ok (checked_type : Expr -> Ty) (m : IRModule) (st st' : DeviceDomains) :
  domains_ok st -> DeviceAnalyzer.Analyze checked_type m st = Ok st' ->
  domains_ok st' /\ grows st st'.
Proof.
  rewrite Analyze_eq. generalize (functions m) as fs. intros fs.
  assert (L : forall fs st0, domains_ok st0 -> grows st st0 ->
     fold_left (analyze_step checked_type) fs (Ok st0) = Ok st' ->
     domains_ok st' /\ grows st st').
  { induction fs0 as [|[gv f] fs0 IH]; intros st0 O G E.
    - injection E as <-. exact (conj O G).
    - cbn [fold_left] in E. unfold analyze_step at 2 in E. cbn [bind] in E.
      destruct (UnifyExprExact checked_type st0 (GlobalVarNode gv) (root_of gv) f (root_of gv))
        as [st1|err] eqn:E1; cbn [bind] in E; [|rewrite analyze_fold_fatal in E; discriminate].
      destruct (UnifyExprExact_ok _ _ _ _ _ _ _ O E1) as [O1 G1].
      destruct (DeviceAnalyzer.VisitExpr checked_type st1 f (root_of gv)) as [st2|err] eqn:E2;
        [|rewrite analyze_fold_fatal in E; discriminate].
      destruct (VisitExpr_ok checked_type f st1 _ _ O1 E2) as [O2 G2].
      exact (IH st2 O2 (grows_trans _ _ _ G (grows_trans _ _ _ G1 G2)) E). }
  intros O. exact (L fs st O (grows_refl _)).
Qed.

(** C7: a unification conflict is fatal, and reported with both domains.
    The analyzer keeps its union-find well formed; two domains whose leaves
    pair two different fully constrained scopes (in particular two fully
    constrained domains of the same shape that print differently) do not
    unify; [UnifyExprExact], [UnifyExprExactDomain] and [UnifyExprCollapsed]
    then fail with the expression(s) and the printed domains, so does the
    visit of a call whose callee domain conflicts with the domain its
    arguments and context imply, and of a function that conflicts with its
    scope attributes; the failure of one global function fails the
    analysis, and the failure of the analysis is the result of the pass. *)
Theorem analyzer_conflicts_are_fatal :
  (* the analyzer keeps its union-find well formed and its configuration *)
  (forall cfg, domains_ok (EmptyDomains cfg))
  /\ (forall checked_type st e l st', domains_ok st ->
        DeviceAnalyzer.VisitExpr checked_type st e l = Ok st' ->
        domains_ok st' /\ config st' = config st)
  /\ (forall checked_type st lhs ll rhs rl st', domains_ok st ->
        UnifyExprExact checked_type st lhs ll rhs rl = Ok st' ->
        domains_ok st' /\ config st' = config st)
  /\ (forall checked_type m st st', domains_ok st ->
        DeviceAnalyzer.Analyze checked_type m st = Ok st' ->
        domains_ok st' /\ config st' = config st)
  (* unification fails on two fully constrained domains that print differently *)
  /\ (forall st a b, uf_wf st -> below st a = true -> below st b = true ->
        canonical_fixed (config st) ->
        IsFullyConstrained st a = true -> IsFullyConstrained st b = true ->
        ToString st a <> ToString st b -> snd (UnifyOrNull st a b) = false)
  (* and more generally on any pair of paired leaves with differing known scopes *)
  /\ (forall st a b, IsFullyConstrained st a = true -> IsFullyConstrained st b = true ->
        same_shape a b = true -> ToString st a <> ToString st b ->
        clash st (leaf_pairs a b) = true)
  /\ (forall st a b, uf_wf st -> below st a = true -> below st b = true ->
        canonical_fixed (config st) -> clash st (leaf_pairs a b) = true ->
        snd (UnifyOrNull st a b) = false)
  /\ (forall st lhs rhs, uf_wf st -> below st lhs = true -> below st rhs = true ->
        canonical_fixed (config st) -> clash st (collapsed_pairs lhs rhs) = true ->
        snd (UnifyCollapsedOrFalse st lhs rhs) = false)
  (* UnifyExprExact, UnifyExprExactDomain, UnifyExprCollapsed *)
  /\ (forall checked_type st lhs ll rhs rl st1 ld st2 rd, domains_ok st ->
        canonical_fixed (config st) ->
        DomainFor checked_type st lhs ll = (st1, ld) ->
        DomainFor checked_type st1 rhs rl = (st2, rd) ->
        clash st2 (leaf_pairs ld rd) = true ->
        UnifyExprExact checked_type st lhs ll rhs rl =
          Fatal (IncompatibleExprs lhs (ToString (fst (UnifyOrNull st2 ld rd)) ld)
                                   rhs (ToString (fst (UnifyOrNull st2 ld rd)) rd)))
  /\ (forall checked_type st e l expected st1 d, domains_ok st ->
        canonical_fixed (config st) -> below st expected = true ->
        DomainFor checked_type st e l = (st1, d) ->
        clash st1 (leaf_pairs d expected) = true ->
        UnifyExprExactDomain checked_type st e l expected =
          Fatal (IncompatibleDomain e (ToString (fst (UnifyOrNull st1 d expected)) d)
                                      (ToString (fst (UnifyOrNull st1 d expected)) expected)))
  /\ (forall checked_type st e l other st1 d, domains_ok st ->
        canonical_fixed (config st) -> below st other = true ->
        DomainFor checked_type st e l = (st1, d) ->
        clash st1 (collapsed_pairs d other) = true ->
        UnifyExprCollapsed checked_type st e l other =
          Fatal (IncompatibleDomain e
                   (ToString (fst (UnifyCollapsedOrFalse st1 d other)) d)
                   (ToString (fst (UnifyCollapsedOrFalse st1 d other)) other)))
  (* a call *)
  /\ (forall checked_type st op args attrs l st1 fd implied, domains_ok st ->
        canonical_fixed (config st) ->
        CallPrefix checked_type st (CallNode op args attrs) l = Ok (st1, fd, implied) ->
        clash st1 (leaf_pairs fd implied) = true ->
        DeviceAnalyzer.VisitExpr checked_type st (CallNode op args attrs) l =
          Fatal (CallScopesMismatch (CallNode op args attrs)
                   (ToString (fst (UnifyOrNull st1 fd implied)) fd)
                   (ToString (fst (UnifyOrNull st1 fd implied)) implied)))
  (* a function against its scope attributes *)
  /\ (forall checked_type st ps b attrs l st1 fd st2 ad, domains_ok st ->
        canonical_fixed (config st) ->
        FunctionPrefix checked_type st (FunctionNode ps b attrs) l = Ok (st1, fd) ->
        IsFullyUnconstrained (GetFunctionResultSEScope attrs) = false ->
        DeviceAnalyzer.AnnotationDomain checked_type st1 ps b attrs = (st2, ad) ->
        clash st2 (leaf_pairs fd ad) = true ->
        DeviceAnalyzer.VisitExpr checked_type st (FunctionNode ps b attrs) l =
          Fatal (FunctionAnnotationMismatch (FunctionNode ps b attrs)
                   (ToString (fst (UnifyOrNull st2 fd ad)) fd)
                   (ToString (fst (UnifyOrNull st2 fd ad)) ad)))
  (* the failure of one global's visit is the failure of the analysis *)
  /\ (forall checked_type fs1 gv f fs2 tds imps sm st st1 err,
        DeviceAnalyzer.Analyze checked_type (MkModule fs1 tds imps sm) st = Ok st1 ->
        (let* st2 := UnifyExprExact checked_type st1 (GlobalVarNode gv) (root_of gv) f
                       (root_of gv) in
         DeviceAnalyzer.VisitExpr checked_type st2 f (root_of gv)) = Fatal err ->
        DeviceAnalyzer.Analyze checked_type (MkModule (fs1 ++ (gv, f) :: fs2) tds imps sm) st =
          Fatal err)
  (* and the failure of the analysis is the result of the pass *)
  /\ (forall cfg checked_type mod_ err,
        DeviceAnalyzer.Analyze checked_type (Rewrite mod_) (EmptyDomains cfg) = Fatal err ->
        PlanDevices cfg checked_type mod_ = Fatal err).
Proof.
  refine (conj EmptyDomains_ok _).
  split; [intros ct st e l st' O E; destruct (VisitExpr_ok ct e st l st' O E) as [O' [C _]];
          exact (conj O' C)|].
  split; [intros ct st lhs ll rhs rl st' O E;
          destruct (UnifyExprExact_ok ct st st' lhs ll rhs rl O E) as [O' [C _]];
          exact (conj O' C)|].
  split; [intros ct m st st' O E; destruct (Analyze_ok ct m st st' O E) as [O' [C _]];
          exact (conj O' C)|].
  split; [exact UnifyOrNull_fully_constrained_differ|].
  split; [intros st a b; exact (fc_differ_clash st a b)|].
  split; [exact UnifyOrNull_clash|].
  split; [exact UnifyCollapsed_clash|].
  split.
  { intros ct st lhs ll rhs rl st1 ld st2 rd O Hc E1 E2 Hcl.
    destruct (DomainFor_ok _ _ _ _ _ _ O E1) as [O1 [B1 G1]].
    destruct (DomainFor_ok _ _ _ _ _ _ O1 E2) as [O2 [B2 G2]].
    unfold UnifyExprExact. rewrite E1, E2.
    pose proof (UnifyOrNull_clash st2 ld rd (proj1 O2) (below_grows _ _ _ G2 B1) B2
                  ltac:(rewrite (proj1 G2), (proj1 G1); exact Hc) Hcl) as F.
    destruct (UnifyOrNull st2 ld rd) as [st3 ok]. cbn in F. subst ok. reflexivity. }
  split.
  { intros ct st e l x st1 d O Hc Bx E1 Hcl.
    destruct (DomainFor_ok _ _ _ _ _ _ O E1) as [O1 [B1 G1]].
    unfold UnifyExprExactDomain. rewrite E1.
    pose proof (UnifyOrNull_clash st1 d x (proj1 O1) B1 (below_grows _ _ _ G1 Bx)
                  ltac:(rewrite (proj1 G1); exact Hc) Hcl) as F.
    destruct (UnifyOrNull st1 d x) as [st3 ok]. cbn in F. subst ok. reflexivity. }
  split.
  { intros ct st e l x st1 d O Hc Bx E1 Hcl.
    destruct (DomainFor_ok _ _ _ _ _ _ O E1) as [O1 [B1 G1]].
    unfold UnifyExprCollapsed. rewrite E1.
    pose proof (UnifyCollapsed_clash st1 d x (proj1 O1) B1 (below_grows _ _ _ G1 Bx)
                  ltac:(rewrite (proj1 G1); exact Hc) Hcl) as F.
    destruct (UnifyCollapsedOrFalse st1 d x) as [st3 ok]. cbn in F. subst ok. reflexivity. }
  split.
  { intros ct st op args attrs l st1 fd impl O Hc E Hcl.
    destruct (CallPrefix_ok _ _ _ _ _ _ _ _ _ O E) as [O1 [B1 [B2 G1]]].
    rewrite VisitExpr_call, E. cbn [bind]. unfold DeviceAnalyzer.CheckCallDomains.
    pose proof (UnifyOrNull_clash st1 fd impl (proj1 O1) B1 B2
                  ltac:(rewrite (proj1 G1); exact Hc) Hcl) as F.
    destruct (UnifyOrNull st1 fd impl) as [st3 ok]. cbn in F. subst ok. reflexivity. }
  split.
  { intros ct st ps b attrs l st1 fd st2 ad O Hc E Hfu E2 Hcl.
    destruct (primitive attrs) eqn:P.
    { rewrite FunctionPrefix_eq, P in E. discriminate. }
    destruct (FunctionPrefix_ok _ _ _ _ _ _ O E) as [O1 [B1 G1]].
    destruct (AnnotationDomain_ok _ _ _ _ _ _ _ O1 E2) as [O2 [B2 G2]].
    rewrite (VisitExpr_function _ _ _ _ _ _ P), E. cbn [bind].
    unfold DeviceAnalyzer.CheckFunctionAnnotation. rewrite Hfu. cbn [negb]. rewrite E2.
    pose proof (UnifyOrNull_clash st2 fd ad (proj1 O2) (below_grows _ _ _ G2 B1) B2
                  ltac:(rewrite (proj1 G2), (proj1 G1); exact Hc) Hcl) as F.
    destruct (UnifyOrNull st2 fd ad) as [st3 ok]. cbn in F. subst ok. reflexivity. }
  split.
  { intros ct fs1 gv f fs2 tds imps sm st st1 err E F.
    rewrite Analyze_eq in *. cbn [functions] in *. rewrite fold_left_app, E. cbn [fold_left].
    change (analyze_step ct (Ok st1) (gv, f)) with
      (let* st2 := UnifyExprExact ct st1 (GlobalVarNode gv) (root_of gv) f (root_of gv) in
       DeviceAnalyzer.VisitExpr ct st2 f (root_of gv)).
    rewrite F. apply analyze_fold_fatal. }
  intros cfg ct mod_ err H. unfold PlanDevices, PlanDevicesCore. rewrite H. reflexivity.
Qed.

Lemma Default_eq (checked_type : Expr -> Ty) (m : IRModule) (st : DeviceDomains) :
  DeviceDefaulter.Default checked_type m st =
  fold_left (default_step checked_type) (functions m) (Ok st).
Proof. reflexivity. Qed.

Lemma default_fold_fatal (checked_type : Expr -> Ty) (fs : list (string * Expr))
  (err : PlanError) :
  fold_left (default_step checked_type) fs (Fatal err) = Fatal err.
Proof. induction fs as [|[gv f] fs IH]; [reflexivity|exact IH]. Qed.

Lemma Capture_eq (domains : DeviceDomains) (m : IRModule) :
  DeviceCapturer.Capture domains m =
  let* fns := capture_functions domains (functions m) in
  Ok (MkModule fns (type_definitions m) (imports m) (source_map m)).
Proof. reflexivity. Qed.

Lemma PlanDevices_eq (cfg : CompilationConfig) (checked_type : Expr -> Ty) (m : IRModule) :
  PlanDevices cfg checked_type m =
  let* d := fold_left (analyze_step checked_type)
              (functions (Rewrite m)) (Ok (EmptyDomains cfg)) in
  let* d := fold_left (default_step checked_type) (functions (Rewrite m)) (Ok d) in
  let* fns := capture_functions d (functions (Rewrite m)) in
  Ok (MkModule fns (type_definitions m) (imports m) (source_map m)).
Proof. reflexivity. Qed.

(** C9: the planner is a function of the configuration and of the module's
    functions in their iteration order (two modules with the same functions
    in the same order are planned to the same functions, each keeping its
    own other parts); the analyzer and the defaulter visit the global
    functions in that order; the capturer rewrites each function on its own;
    and two orders of the same functions can be planned differently. *)
Theorem PlanDevices_function_order :
  (* a function of the configuration and of the functions in their order *)
  (forall cfg checked_type m1 m2, functions m1 = functions m2 ->
     match PlanDevices cfg checked_type m1, PlanDevices cfg checked_type m2 with
     | Ok a, Ok b =>
         functions a = functions b
         /\ type_definitions a = type_definitions m1 /\ imports a = imports m1
         /\ source_map a = source_map m1
         /\ type_definitions b = type_definitions m2 /\ imports b = imports m2
         /\ source_map b = source_map m2
     | Fatal e1, Fatal e2 => e1 = e2
     | _, _ => False
     end)
  (* the analyzer visits the global functions in the module's order *)
  /\ (forall checked_type gv f fs tds imps sm st,
        DeviceAnalyzer.Analyze checked_type (MkModule ((gv, f) :: fs) tds imps sm) st =
        bind (let* st := UnifyExprExact checked_type st (GlobalVarNode gv) (root_of gv) f
                           (root_of gv) in
              DeviceAnalyzer.VisitExpr checked_type st f (root_of gv))
             (fun st => DeviceAnalyzer.Analyze checked_type (MkModule fs tds imps sm) st))
  (* and so does the defaulter *)
  /\ (forall checked_type gv f fs tds imps sm st,
        DeviceDefaulter.Default checked_type (MkModule ((gv, f) :: fs) tds imps sm) st =
        bind (DeviceDefaulter.VisitExpr checked_type st f (root_of gv))
             (fun st => DeviceDefaulter.Default checked_type (MkModule fs tds imps sm) st))
  (* the capturer rewrites every function on its own *)
  /\ (forall domains mod_ mod' fns,
        Permutation (functions mod_) fns ->
        DeviceCapturer.Capture domains mod_ = Ok mod' ->
        exists fns',
          DeviceCapturer.Capture domains
            (MkModule fns (type_definitions mod_) (imports mod_) (source_map mod_)) =
            Ok (MkModule fns' (type_definitions mod') (imports mod') (source_map mod'))
          /\ Permutation (functions mod') fns')
  (* two orders of the same functions can be planned differently *)
  /\ (exists cfg checked_type m1 m2 a1 a2,
        Permutation (functions m1) (functions m2)
        /\ PlanDevices cfg checked_type m1 = Ok a1 /\ PlanDevices cfg checked_type m2 = Ok a2
        /\ lookup_function "B" a1 <> lookup_function "B" a2).
Proof.
  split.
  { intros cfg ct m1 m2 H. rewrite !PlanDevices_eq.
    assert (R : functions (Rewrite m1) = functions (Rewrite m2)) by (cbn; rewrite H; reflexivity).
    rewrite R.
    destruct (fold_left (analyze_step ct) (functions (Rewrite m2)) (Ok (EmptyDomains cfg)))
      as [d|e]; cbn [bind]; [|reflexivity].
    destruct (fold_left (default_step ct) (functions (Rewrite m2)) (Ok d)) as [d'|e];
      cbn [bind]; [|reflexivity].
    destruct (capture_functions d' (functions (Rewrite m2))) as [fns|e]; cbn [bind];
      [|reflexivity].
    cbn. repeat split. }
  split.
  { intros ct gv f fs tds imps sm st. rewrite !Analyze_eq. cbn [functions fold_left].
    change (analyze_step ct (Ok st) (gv, f)) with
      (let* st := UnifyExprExact ct st (GlobalVarNode gv) (root_of gv) f (root_of gv) in
       DeviceAnalyzer.VisitExpr ct st f (root_of gv)).
    destruct (let* st := UnifyExprExact ct st (GlobalVarNode gv) (root_of gv) f (root_of gv) in
              DeviceAnalyzer.VisitExpr ct st f (root_of gv)) as [st'|e];
      [reflexivity|apply analyze_fold_fatal]. }
  split.
  { intros ct gv f fs tds imps sm st. rewrite !Default_eq. cbn [functions fold_left].
    change (default_step ct (Ok st) (gv, f)) with
      (DeviceDefaulter.VisitExpr ct st f (root_of gv)).
    destruct (DeviceDefaulter.VisitExpr ct st f (root_of gv)) as [st'|e];
      [reflexivity|apply default_fold_fatal]. }
  split.
  { intros domains mod_ mod' fns Hp H.
    destruct (Capture_inv domains mod_ mod' H) as [HF [Ht [Hi Hs]]].
    destruct (Permutation_Forall2 Hp HF) as [fns' [Hp' HF']].
    exists fns'. split; auto.
    rewrite Ht, Hi, Hs.
    apply (Capture_of_Forall2 domains
             (MkModule fns (type_definitions mod_) (imports mod_) (source_map mod_))).
    exact HF'. }
  exists ex_config, (tensor_types [("A", 1); ("B", 1)]), module_AB, module_BA,
    planned_AB, planned_BA.
  split; [apply perm_swap|]. split; [vm_compute; reflexivity|].
  split; [vm_compute; reflexivity|].
  vm_compute. intros H; inversion H.
Qed.

(** ** Witnesses *)

Lemma Rewrite_fixed_points_witness :
  All_nodes (fun x => negb (rewrite_site x))
    (LetNode "a" (OnDevice (VarNode "x") GPU true)
       (add (OnDevice (VarNode "a") GPU false) (VarNode "y"))) = true
  /\ RewriteOnDevices.VisitExpr
       (LetNode "a" (OnDevice (VarNode "x") GPU true)
          (add (OnDevice (VarNode "a") GPU false) (VarNode "y")))
     = LetNode "a" (OnDevice (VarNode "x") GPU true)
         (add (OnDevice (VarNode "a") GPU false) (VarNode "y")).
Proof.
  assert (H : All_nodes (fun x => negb (rewrite_site x))
                (LetNode "a" (OnDevice (VarNode "x") GPU true)
                   (add (OnDevice (VarNode "a") GPU false) (VarNode "y"))) = true)
    by (vm_compute; reflexivity).
  split; [exact H|]. exact (Rewrite_fixed_points _ H).
Defined.

Lemma Rewrite_idempotent_without_projections_witness :
  All_nodes (fun x => negb (projects_unfixed x))
    (LetNode "a" (OnDevice (VarNode "x") GPU false) (VarNode "a")) = true
  /\ RewriteOnDevices.VisitExpr
       (RewriteOnDevices.VisitExpr (LetNode "a" (OnDevice (VarNode "x") GPU false) (VarNode "a")))
     = RewriteOnDevices.VisitExpr (LetNode "a" (OnDevice (VarNode "x") GPU false) (VarNode "a")).
Proof.
  assert (H : All_nodes (fun x => negb (projects_unfixed x))
                (LetNode "a" (OnDevice (VarNode "x") GPU false) (VarNode "a")) = true)
    by (vm_compute; reflexivity).
  split; [exact H|]. exact (Rewrite_idempotent_without_projections _ H).
Defined.

Lemma Rewrite_not_idempotent_on_projection_witness :
  RewriteOnDevices.VisitExpr
    (RewriteOnDevices.VisitExpr (TupleGetItemNode (OnDevice (VarNode "t") GPU false) 0))
  <> RewriteOnDevices.VisitExpr (TupleGetItemNode (OnDevice (VarNode "t") GPU false) 0).
Proof. exact (Rewrite_not_idempotent_on_projection (VarNode "t") GPU 0). Defined.

Lemma PlanDevices_on_device_fixed_witness :
  module_ok no_annotated_op copy_module = true
  /\ PlanDevices ex_config (tensor_types [("main", 2)]) copy_module = Ok copy_module_planned
  /\ module_ok (fun e => negb (unfixed_on_device e)) copy_module_planned = true.
Proof.
  assert (Hq : module_ok no_annotated_op copy_module = true) by (vm_compute; reflexivity).
  assert (H : PlanDevices ex_config (tensor_types [("main", 2)]) copy_module
              = Ok copy_module_planned) by (vm_compute; reflexivity).
  split; [exact Hq|]. split; [exact H|].
  exact (PlanDevices_on_device_fixed _ _ _ _ Hq H).
Defined.

Lemma PlanDevices_recorded_scopes_known_witness :
  PlanDevices ex_config (tensor_types [("main", 2)]) copy_module = Ok copy_module_planned
  /\ module_ok se_scopes_known copy_module_planned = true.
Proof.
  assert (H : PlanDevices ex_config (tensor_types [("main", 2)]) copy_module
              = Ok copy_module_planned) by (vm_compute; reflexivity).
  split; [exact H|]. exact (PlanDevices_recorded_scopes_known _ _ _ _ H).
Defined.

Lemma PlanDevices_primitive_functions_witness :
  PlanDevices ex_config (tensor_types [("main", 2); ("prim", 1)]) mixed_module = Ok mixed_planned
  /\ Forall2 (fun gf gf' => fst gf' = fst gf /\
                (is_primitive_function (snd gf) = true ->
                 snd gf' = RewriteOnDevices.VisitExpr (snd gf)))
             (functions mixed_module) (functions mixed_planned).
Proof.
  assert (H : PlanDevices ex_config (tensor_types [("main", 2); ("prim", 1)]) mixed_module
              = Ok mixed_planned) by (vm_compute; reflexivity).
  split; [exact H|]. exact (PlanDevices_primitive_functions _ _ _ _ H).
Defined.

Lemma PlanDevices_keeps_params_witness :
  PlanDevices ex_config (tensor_types [("main", 2)]) copy_module = Ok copy_module_planned
  /\ Forall2 (fun gf gf' => forall ps b attrs, snd gf = FunctionNode ps b attrs ->
                exists b' attrs', snd gf' = FunctionNode ps b' attrs'
                                  /\ primitive attrs' = primitive attrs)
             (functions copy_module) (functions copy_module_planned).
Proof.
  assert (H : PlanDevices ex_config (tensor_types [("main", 2)]) copy_module
              = Ok copy_module_planned) by (vm_compute; reflexivity).
  split; [exact H|]. exact (PlanDevices_keeps_params _ _ _ _ H).
Defined.

Lemma analyzer_conflicts_are_fatal_witness :
  snd (UnifyOrNull state_ab domain_a domain_b) = false
  /\ clash state_ab (leaf_pairs domain_a domain_b) = true
  /\ snd (UnifyCollapsedOrFalse state_ab domain_a domain_b) = false
  /\ UnifyExprExact conflict_types state_ab (VarNode "a") (root_of "a") (VarNode "b") (root_of "b")
     = Fatal (IncompatibleExprs (VarNode "a") (PFirst CPU) (VarNode "b") (PFirst GPU))
  /\ UnifyExprExactDomain conflict_types state_ab (VarNode "a") (root_of "a") domain_b
     = Fatal (IncompatibleDomain (VarNode "a") (PFirst CPU) (PFirst GPU))
  /\ UnifyExprCollapsed conflict_types state_ab (VarNode "a") (root_of "a") domain_b
     = Fatal (IncompatibleDomain (VarNode "a") (PFirst CPU) (PFirst GPU))
  /\ DeviceAnalyzer.VisitExpr (tensor_types []) (EmptyDomains ex_config) nested_conflict
       (root_of "main")
     = Fatal (CallScopesMismatch nested_conflict (PHigher [PFirst GPU] (PFirst GPU))
                (PHigher [PFirst CPU] (PFirst FullyUnconstrained)))
  /\ PlanDevices ex_config annotation_types annotation_module
     = Fatal (FunctionAnnotationMismatch g_annotated (PHigher [PFirst GPU] (PFirst GPU))
                (PHigher [PFirst CPU] (PFirst CPU))).
Proof.
  destruct analyzer_conflicts_are_fatal
    as [H0 [HV [HU [HA [Hfc [Hcl [Ha [Hc [Hd1 [Hd2 [Hd3 [Hb [Hf [Hp He]]]]]]]]]]]]]].
  assert (Oa : domains_ok state_a).
  { apply (HV conflict_types (EmptyDomains ex_config) constrain_a (root_of "a") state_a
             (H0 ex_config)). vm_compute. reflexivity. }
  assert (Oab : domains_ok state_ab).
  { apply (HV conflict_types state_a constrain_b (root_of "b") state_ab Oa).
    vm_compute. reflexivity. }
  assert (Cf : canonical_fixed (config state_ab)) by (intros s _; vm_compute; reflexivity).
  split; [|split; [|split; [|split; [|split; [|split; [|split]]]]]].
  - refine (Hfc state_ab domain_a domain_b (proj1 Oab) _ _ Cf _ _ _);
      [vm_compute; reflexivity..|vm_compute; discriminate].
  - apply (Hcl state_ab domain_a domain_b); vm_compute; first [reflexivity|discriminate].
  - apply (Hc state_ab domain_a domain_b (proj1 Oab)); [vm_compute; reflexivity..|exact Cf|].
    vm_compute. reflexivity.
  - rewrite (Hd1 conflict_types state_ab (VarNode "a") (root_of "a") (VarNode "b") (root_of "b")
               state_ab domain_a state_ab domain_b Oab Cf); [vm_compute; reflexivity|..];
      vm_compute; reflexivity.
  - rewrite (Hd2 conflict_types state_ab (VarNode "a") (root_of "a") domain_b
               state_ab domain_a Oab Cf); [vm_compute; reflexivity|..];
      vm_compute; reflexivity.
  - rewrite (Hd3 conflict_types state_ab (VarNode "a") (root_of "a") domain_b
               state_ab domain_a Oab Cf); [vm_compute; reflexivity|..];
      vm_compute; reflexivity.
  - unfold nested_conflict at 1, OnDevice at 1.
    rewrite (Hb (tensor_types []) (EmptyDomains ex_config) (OpNode "on_device")
               [OnDevice (VarNode "x") CPU true] (OnDeviceAttrs GPU true) (root_of "main")
               (fst (fst nested_prefix)) (snd (fst nested_prefix)) (snd nested_prefix)
               (H0 ex_config)); [vm_compute; reflexivity|..];
      [intros s _; vm_compute; reflexivity|vm_compute; reflexivity..].
  - assert (Om : domains_ok annotation_main_state).
    { refine (proj1 (HA annotation_types
                       (MkModule (firstn 1 (functions (Rewrite annotation_module))) [] [] [])
                       (EmptyDomains ex_config) annotation_main_state
                       (H0 ex_config) _)). vm_compute. reflexivity. }
    assert (Os : domains_ok annotation_state).
    { refine (proj1 (HU annotation_types annotation_main_state (GlobalVarNode "g") (root_of "g")
                       g_annotated (root_of "g") annotation_state Om _)).
      vm_compute. reflexivity. }
    assert (Fg : DeviceAnalyzer.VisitExpr annotation_types annotation_state g_annotated
                   (root_of "g") =
                 Fatal (FunctionAnnotationMismatch g_annotated
                          (PHigher [PFirst GPU] (PFirst GPU)) (PHigher [PFirst CPU] (PFirst CPU)))).
    { unfold g_annotated at 1.
      rewrite (Hf annotation_types annotation_state ["x"] (VarNode "x")
                 (MkFuncAttrs false (Some [CPU]) (Some CPU)) (root_of "g")
                 (fst annotation_prefix) (snd annotation_prefix)
                 (fst annotation_domain) (snd annotation_domain) Os);
        [vm_compute; reflexivity|intros s _; vm_compute; reflexivity|
         vm_compute; reflexivity..]. }
    apply He.
    replace (Rewrite annotation_module) with
      (MkModule (firstn 1 (functions (Rewrite annotation_module)) ++ [("g", g_annotated)])
         [] [] []) by (vm_compute; reflexivity).
    apply Hp with (st1 := annotation_main_state); [vm_compute; reflexivity|].
    replace (UnifyExprExact annotation_types annotation_main_state (GlobalVarNode "g")
               (root_of "g") g_annotated (root_of "g")) with (@Ok DeviceDomains annotation_state)
      by (vm_compute; reflexivity).
    exact Fg.
Defined.

Lemma PlanDevices_function_order_witness :
  PlanDevices ex_config order_types module_AB = Ok planned_AB
  /\ PlanDevices ex_config order_types
       (MkModule (functions module_AB) ["List"] ["prelude"] [("A", "a.py")])
     = Ok (MkModule (functions planned_AB) ["List"] ["prelude"] [("A", "a.py")])
  /\ DeviceAnalyzer.Analyze order_types module_AB (EmptyDomains ex_config)
     = DeviceAnalyzer.Analyze order_types (MkModule [("B", fn_B)] [] [] []) domains_A
  /\ DeviceCapturer.Capture domains_AB (Rewrite module_AB) = Ok planned_AB
  /\ exists fns',
       DeviceCapturer.Capture domains_AB (MkModule [("B", fn_B); ("A", fn_A)] [] [] [])
       = Ok (MkModule fns' [] [] []) /\ Permutation (functions planned_AB) fns'.
Proof.
  destruct PlanDevices_function_order as [Hi [Ha [_ [Hc _]]]].
  assert (P : PlanDevices ex_config order_types module_AB = Ok planned_AB)
    by (vm_compute; reflexivity).
  split; [exact P|]. split.
  { pose proof (Hi ex_config order_types module_AB
                  (MkModule (functions module_AB) ["List"] ["prelude"] [("A", "a.py")])
                  eq_refl) as H.
    rewrite P in H.
    destruct (PlanDevices ex_config order_types
                (MkModule (functions module_AB) ["List"] ["prelude"] [("A", "a.py")]))
      as [b|e]; [|contradiction].
    destruct H as [Hf [_ [_ [_ [Ht [Hm Hs]]]]]]. destruct b as [fb tb mb sb].
    cbn in Hf, Ht, Hm, Hs. subst. reflexivity. }
  split.
  { unfold module_AB at 1. rewrite Ha.
    replace (let* st := UnifyExprExact order_types (EmptyDomains ex_config) (GlobalVarNode "A")
                          (root_of "A") fn_A (root_of "A") in
             DeviceAnalyzer.VisitExpr order_types st fn_A (root_of "A"))
      with (@Ok DeviceDomains domains_A) by (vm_compute; reflexivity).
    reflexivity. }
  assert (C : DeviceCapturer.Capture domains_AB (Rewrite module_AB) = Ok planned_AB)
    by (vm_compute; reflexivity).
  split; [exact C|].
  destruct (Hc domains_AB (Rewrite module_AB) planned_AB [("B", fn_B); ("A", fn_A)]
              ltac:(vm_compute; apply perm_swap) C) as [fns' [E Hp]].
  exists fns'. split; [exact E|exact Hp].
Defined.
